(** * Social metrics playground: numerical engine

    A shallow embedding of the numerical core of
    [src/social_metrics_playground_random_data_toggleable_lines.jsx]:
    the xorshift generator, the Box-Muller sampler, the normal CDF and
    quantile, the sample-size calculator with its decision rules, the
    two-sample statistics and the cohort simulator.

    JavaScript numbers are IEEE-754 binary64 values.  They are modelled
    by [spec_float], the executable specification of binary floating
    point of the Standard Library, at precision 53 and maximal exponent
    1024: every arithmetic operation below rounds exactly as the
    JavaScript operator does, and every definition computes. *)

From Stdlib Require Import ZArith Lia List String Ascii Bool Reals Lra.
From Stdlib Require Import Floats.SpecFloat.
From stdpp Require Import base option list gmap strings.

Local Open Scope Z_scope.

(** ** JavaScript numbers *)

Module Num.

Definition prec : Z := 53.
Definition emax : Z := 1024.

Definition number : Type := spec_float.

Definition NaN : number := S754_nan.
Definition pos_zero : number := S754_zero false.
Definition neg_zero : number := S754_zero true.
Definition Infinity : number := S754_infinity false.
Definition neg_Infinity : number := S754_infinity true.

(** The binary operators [+ - * /] and the unary minus. *)
Definition add : number -> number -> number := SFadd prec emax.
Definition sub : number -> number -> number := SFsub prec emax.
Definition mul : number -> number -> number := SFmul prec emax.
Definition div : number -> number -> number := SFdiv prec emax.
Definition neg : number -> number := SFopp.

(** The relational operators; each is false as soon as one side is NaN. *)
Definition lt (a b : number) : bool := SFltb a b.
Definition le (a b : number) : bool := SFleb a b.
Definition gt (a b : number) : bool := SFltb b a.
Definition ge (a b : number) : bool := SFleb b a.
(** [a === b] on two numbers. *)
Definition strict_eq (a b : number) : bool := SFeqb a b.

Definition isNaN (x : number) : bool :=
  match x with S754_nan => true | _ => false end.

Definition isFinite (x : number) : bool :=
  match x with S754_zero _ | S754_finite _ _ _ => true | _ => false end.

(** Truthiness of a number, as [||] and [?:] test it: NaN and both
    zeros are falsy. *)
Definition truthy (x : number) : bool :=
  match x with S754_nan | S754_zero _ => false | _ => true end.

(** [x || d] on numbers. *)
Definition or_else (x d : number) : number := if truthy x then x else d.

(** An integer as a number (exact below 2^53, rounded to nearest even
    above). *)
Definition of_Z (n : Z) : number := binary_normalize prec emax n 0 false.

(** The decimal literal [m * 10^-k].  Numerator and denominator are
    exactly representable for every literal of the source (at most 16
    significant digits), so the correctly rounded quotient is the
    binary64 value the JavaScript parser produces for the literal. *)
Definition dec (m : Z) (k : nat) : number :=
  div (of_Z m) (of_Z (10 ^ Z.of_nat k)).

(** [Math.abs], [Math.sqrt]. *)
Definition Math_abs : number -> number := SFabs.
Definition Math_sqrt : number -> number := SFsqrt prec emax.

(** [Math.max] and [Math.min] of two arguments (ECMA-262 21.3.2.24/25):
    NaN is contagious and [+0] counts as larger than [-0]. *)
Definition Math_max (a b : number) : number :=
  if isNaN a || isNaN b then NaN
  else match SFcompare a b with
       | Some Lt => b
       | Some Gt => a
       | _ => match a with S754_zero true => b | _ => a end
       end.

Definition Math_min (a b : number) : number :=
  if isNaN a || isNaN b then NaN
  else match SFcompare a b with
       | Some Lt => a
       | Some Gt => b
       | _ => match a with S754_zero false => b | _ => a end
       end.

(** The integer [s * m] scaled by [2^e], for [e < 0], rounded by the
    three integer roundings of [Math]; a zero result keeps the sign of
    the argument. *)
Definition int_result (s : bool) (n : Z) : number :=
  if n =? 0 then S754_zero s else of_Z n.

Definition Math_floor (x : number) : number :=
  match x with
  | S754_finite s m e =>
    if 0 <=? e then x
    else int_result s (Z.shiftr (cond_Zopp s (Zpos m)) (- e))
  | _ => x
  end.

Definition Math_ceil (x : number) : number :=
  match x with
  | S754_finite s m e =>
    if 0 <=? e then x
    else int_result s (- Z.shiftr (- cond_Zopp s (Zpos m)) (- e))
  | _ => x
  end.

(** [Math.round]: nearest integer, ties towards +Infinity. *)
Definition Math_round (x : number) : number :=
  match x with
  | S754_finite s m e =>
    if 0 <=? e then x
    else int_result s
           (Z.shiftr (cond_Zopp s (Zpos m) + Z.shiftl 1 (- e - 1)) (- e))
  | _ => x
  end.

(** The mathematical integer obtained by dropping the fraction; zero for
    NaN, the zeros and the infinities (the first step of ToInt32). *)
Definition trunc_Z (x : number) : Z :=
  match x with
  | S754_finite s m e =>
    cond_Zopp s (if 0 <=? e then Z.shiftl (Zpos m) e
                 else Z.shiftr (Zpos m) (- e))
  | _ => 0
  end.

End Num.

Export Num.

(** ** 32-bit integer operators *)

Module Int32.

Definition two32 : Z := 4294967296.
Definition two31 : Z := 2147483648.

(** ToUint32 and ToInt32 of a mathematical integer. *)
Definition toUint32 (z : Z) : Z := z mod two32.
Definition toInt32 (z : Z) : Z :=
  let u := z mod two32 in if u <? two31 then u else u - two32.

(** [a ^ b], [a << n], [a >>> n] and [a | 0] on integers. *)
Definition xor (a b : Z) : Z := toInt32 (Z.lxor (toInt32 a) (toInt32 b)).
Definition shl (a n : Z) : Z := toInt32 (Z.shiftl (toInt32 a) (n mod 32)).
Definition shru (a n : Z) : Z := Z.shiftr (toUint32 a) (n mod 32).

(** [x | 0] and [x >>> 0] on a number. *)
Definition of_number (x : number) : Z := toInt32 (trunc_Z x).

End Int32.

(** Infix notation for number arithmetic, so that the embedded
    expressions read as in the source. *)
Declare Scope num_scope.
Delimit Scope num_scope with num.
Bind Scope num_scope with number.
Notation "x + y" := (add x y) : num_scope.
Notation "x - y" := (sub x y) : num_scope.
Notation "x * y" := (mul x y) : num_scope.
Notation "x / y" := (div x y) : num_scope.
Notation "- x" := (neg x) : num_scope.

(** ** The host's transcendental functions

    [Math.exp], [Math.log] and [Math.cos] are implementation-approximated
    in ECMA-262, so the embedding takes them as a parameter. *)

Record MathLib : Type := {
  Math_exp : number -> number;
  Math_log : number -> number;
  Math_cos : number -> number
}.

(** [Math.PI]. *)
Definition Math_PI : number := dec 3141592653589793 15.

(** ** Helpers (source lines 15-97) *)

(** *** [createPRNG]: xorshift32

    The closure's variable [s] is the state; a call of [rand] maps a
    state to the drawn number and the next state. *)

Definition createPRNG (seed : Z) : Z := Int32.toUint32 seed.

Definition xorshift (s : Z) : Z :=
  let s := Int32.xor s (Int32.shl s 13) in
  let s := Int32.xor s (Int32.shru s 17) in
  let s := Int32.xor s (Int32.shl s 5) in
  s.

Definition rand (s : Z) : number * Z :=
  let s := xorshift s in
  ((of_Z (Int32.toUint32 s) / of_Z 4294967295)%num, s).

(** [while (u === 0) u = rand();] starting from [u = 0]: the body runs
    at least once.  [fuel] bounds the number of draws; [None] stands for
    a loop that has not ended within the bound. *)
Fixpoint draw_nonzero (fuel : nat) (s : Z) : option (number * Z) :=
  match fuel with
  | O => None
  | S fuel' =>
    let '(u, s') := rand s in
    if strict_eq u pos_zero then draw_nonzero fuel' s' else Some (u, s')
  end.

Section WithMath.

Variable M : MathLib.

(** *** [boxMuller] *)
Definition boxMuller (fuel : nat) (s : Z) : option (number * Z) :=
  '(u, s) ← draw_nonzero fuel s;
  '(v, s) ← draw_nonzero fuel s;
  Some ((Math_sqrt (of_Z (-2) * Math_log M u)
         * Math_cos M (of_Z 2 * Math_PI * v))%num, s).

Definition clamp (x lo hi : number) : number :=
  Math_max lo (Math_min hi x).

(** *** [stdNormCDF], [twoTailedP] *)
Definition stdNormCDF (x : number) : number :=
  let t := (of_Z 1 / (of_Z 1 + dec 2316419 7 * Math_abs x))%num in
  let d := (dec 3989423 7 * Math_exp M (- x * x / of_Z 2))%num in
  let prob :=
    (of_Z 1 - d * t * (dec 1330274429 9 + t * (- dec 1821255978 9
       + t * (dec 1781477937 9 + t * (- dec 356563782 9
       + t * dec 319381530 9)))))%num in
  if ge x pos_zero then prob else (of_Z 1 - prob)%num.

Definition twoTailedP (z : number) : number :=
  (of_Z 2 * (of_Z 1 - stdNormCDF (Math_abs z)))%num.

(** *** [invNorm] (Acklam's approximation) *)
Definition invNorm_a : list number :=
  [ (- dec 3969683028665376 14)%num; dec 2209460984245205 13;
    (- dec 2759285104469687 13)%num; dec 1383577518672690 13;
    (- dec 3066479806614716 14)%num; dec 2506628277459239 15 ].
Definition invNorm_b : list number :=
  [ (- dec 5447609879822406 14)%num; dec 1615858368580409 13;
    (- dec 1556989798598866 13)%num; dec 6680131188771972 14;
    (- dec 1328068155288572 14)%num ].
Definition invNorm_c : list number :=
  [ (- dec 7784894002430293 18)%num; (- dec 3223964580411365 16)%num;
    (- dec 2400758277161838 15)%num; (- dec 2549732539343734 15)%num;
    dec 4374664141464968 15; dec 2938163982698783 15 ].
Definition invNorm_d : list number :=
  [ dec 7784695709041462 18; dec 3224671290700398 16;
    dec 2445134137142996 15; dec 3754408661907416 15 ].

(** [arr[i]]; reading past the end gives [undefined], NaN in arithmetic. *)
Definition idx (arr : list number) (i : nat) : number := nth i arr NaN.

Definition plow : number := dec 2425 5.
Definition phigh : number := (of_Z 1 - plow)%num.

Definition invNorm_tail (q : number) : number :=
  let c := idx invNorm_c in
  let d := idx invNorm_d in
  ((((((c 0%nat * q + c 1%nat) * q + c 2%nat) * q + c 3%nat) * q
      + c 4%nat) * q + c 5%nat)
   / ((((d 0%nat * q + d 1%nat) * q + d 2%nat) * q + d 3%nat) * q
      + of_Z 1))%num.

Definition invNorm (p : number) : number :=
  if le p pos_zero || ge p (of_Z 1) || isNaN p then NaN
  else if lt p plow then
    let q := Math_sqrt (of_Z (-2) * Math_log M p)%num in
    invNorm_tail q
  else if gt p phigh then
    let q := Math_sqrt (of_Z (-2) * Math_log M (of_Z 1 - p))%num in
    let c := idx invNorm_c in
    let d := idx invNorm_d in
    (- (((((c 0%nat * q + c 1%nat) * q + c 2%nat) * q + c 3%nat) * q
          + c 4%nat) * q + c 5%nat)
     / ((((d 0%nat * q + d 1%nat) * q + d 2%nat) * q + d 3%nat) * q
        + of_Z 1))%num
  else
    let a := idx invNorm_a in
    let b := idx invNorm_b in
    let q := (p - dec 5 1)%num in
    let r := (q * q)%num in
    ((((((a 0%nat * r + a 1%nat) * r + a 2%nat) * r + a 3%nat) * r
        + a 4%nat) * r + a 5%nat) * q
     / (((((b 0%nat * r + b 1%nat) * r + b 2%nat) * r + b 3%nat) * r
          + b 4%nat) * r + of_Z 1))%num.

(** *** [computeSampleSize]: target n per arm *)
Definition computeSampleSize (sigma2 mdeAbs alpha power : number) : number :=
  let zAlpha := invNorm (of_Z 1 - alpha / of_Z 2)%num in
  let zPower := invNorm power in
  if negb (isNaN zAlpha) && negb (isNaN zPower)
     && gt mdeAbs pos_zero && gt sigma2 pos_zero
  then
    let num := (of_Z 2 * (zAlpha + zPower) * (zAlpha + zPower) * sigma2)%num in
    let n := Math_ceil (num / (mdeAbs * mdeAbs))%num in
    Math_max (of_Z 2) n
  else NaN.

End WithMath.

(** *** [hashStr]

    Strings are sequences of 8-bit characters; for the ASCII metric keys
    of the program [charCodeAt] is the character's code. *)
Definition charCode (c : ascii) : Z := Z.of_nat (nat_of_ascii c).

Fixpoint hashStr_loop (h : Z) (s : string) : Z :=
  match s with
  | EmptyString => h
  | String c s' =>
    hashStr_loop (Int32.toInt32 ((Int32.shl h 5 - h) + charCode c)) s'
  end.

Definition hashStr (s : string) : Z := Int32.toUint32 (hashStr_loop 0 s).

(** ** A reference [MathLib]

    The closed examples below need one concrete host.  This one
    evaluates the three functions in 128-bit fixed point (a value [v]
    is the integer [v * 2^128]) and rounds the result to binary64; the
    special values are the ones ECMA-262 21.3.2 prescribes.  The
    general theorems never depend on it: they hold for every
    [MathLib], under the hypotheses they state. *)

Module RefMath.

Definition P : Z := 128.
Definition one : Z := 2 ^ P.

Definition fx_mul (a b : Z) : Z := Z.shiftr (a * b) P.
Definition fx_div (a b : Z) : Z := Z.shiftl a P / b.

(** [m * 2^e] in fixed point (truncated). *)
Definition fx_of (m : positive) (e : Z) : Z := Z.shiftl (Zpos m) (e + P).

(** [sum_{i < n} sgn^i * z^(2i+1) / (2i+1)], with [zp = z^(2i+1)] and
    [k = 2i+1] the running power and denominator: [atanh] for
    [sgn = 1], [atan] for [sgn = -1]. *)
Fixpoint odd_series (n : nat) (sgn z2 zp k acc : Z) : Z :=
  match n with
  | O => acc
  | S n' => odd_series n' sgn z2 (sgn * fx_mul zp z2) (k + 2) (acc + zp / k)
  end.

Definition fx_atanh (z : Z) : Z := odd_series 64 1 (fx_mul z z) z 1 0.
Definition fx_atan (z : Z) : Z := odd_series 64 (-1) (fx_mul z z) z 1 0.

(** [ln 2 = 2 atanh (1/3)] and Machin's formula for [pi]. *)
Definition LN2 : Z := Eval vm_compute in 2 * fx_atanh (one / 3).
Definition PI : Z :=
  Eval vm_compute in 16 * fx_atan (one / 5) - 4 * fx_atan (one / 239).
(** [sqrt (1/2)], by integer square root. *)
Definition SQRT_HALF : Z := Eval vm_compute in Z.sqrt (Z.shiftl 1 (2 * P - 1)).

(** [sum_{i < n} r^i / i!] with [t] the running term and [k = i + 1]. *)
Fixpoint exp_series (n : nat) (r t k acc : Z) : Z :=
  match n with
  | O => acc
  | S n' => exp_series n' r (fx_mul t r / k) (k + 1) (acc + t)
  end.

(** [sum_{i < n} (-1)^i r^(2i) / (2i)!] with [k = 2i + 1]. *)
Fixpoint cos_series (n : nat) (r2 t k acc : Z) : Z :=
  match n with
  | O => acc
  | S n' =>
    cos_series n' r2 (- (fx_mul t r2 / (k * (k + 1)))) (k + 2) (acc + t)
  end.

Definition digits (m : positive) : Z := Zpos (digits2_pos m).

Definition exp (x : number) : number :=
  match x with
  | S754_nan => NaN
  | S754_infinity false => Infinity
  | S754_infinity true => pos_zero
  | S754_zero _ => of_Z 1
  | S754_finite s m e =>
    if 11 <? e + digits m then (if s then pos_zero else Infinity)
    else
      let x := cond_Zopp s (fx_of m e) in
      let k := (2 * x + LN2) / (2 * LN2) in
      let r := x - k * LN2 in
      binary_normalize prec emax (exp_series 48 r one 1 0) (k - P) false
  end.

Definition log (x : number) : number :=
  match x with
  | S754_nan => NaN
  | S754_infinity false => Infinity
  | S754_infinity true => NaN
  | S754_zero _ => neg_Infinity
  | S754_finite true _ _ => NaN
  | S754_finite false m e =>
    let d := digits m in
    let f := Z.shiftl (Zpos m) (P - d) in
    let '(f, k) := if f <? SQRT_HALF then (2 * f, e + d - 1) else (f, e + d) in
    let v := 2 * fx_atanh (fx_div (f - one) (f + one)) + k * LN2 in
    (* the logarithm is not positive on (0, 1] *)
    let v := if le x (of_Z 1) then Z.min 0 v else v in
    binary_normalize prec emax v (- P) false
  end.

Definition cos (x : number) : number :=
  match x with
  | S754_nan | S754_infinity _ => NaN
  | S754_zero _ => of_Z 1
  | S754_finite _ m e =>
    let r := fx_of m e mod (2 * PI) in
    let r := if PI <? r then r - 2 * PI else r in
    let v := cos_series 48 (fx_mul r r) one 1 0 in
    (* the cosine lies in [-1, 1] *)
    let v := Z.max (- one) (Z.min one v) in
    binary_normalize prec emax v (- P) false
  end.

Definition lib : MathLib :=
  {| Math_exp := exp; Math_log := log; Math_cos := cos |}.

End RefMath.

(** ** Objects, references and the heap

    A record of the series is a JavaScript object, and the series an
    array of references to such objects.  Objects live in a heap, so
    that writing to a copy and writing to the original are different
    things.  A field holds a number, a string (the date and its label)
    or [null]; a missing field reads as [undefined]. *)

Inductive value : Type :=
| VNum (x : number)
| VStr (s : string)
| VNull.

Abbreviation object := (gmap string value).
Abbreviation loc := positive.
Abbreviation heap := (gmap positive (gmap string value)).

(** The number an arithmetic operator sees in a field: [null] counts as
    [+0] and [undefined] as NaN.  The metric fields of the series hold
    numbers; a string there is outside the data model and reads as NaN. *)
Definition to_number (v : option value) : number :=
  match v with
  | Some (VNum x) => x
  | Some VNull => pos_zero
  | _ => NaN
  end.

(** [o[f]], [o[f]] as a number, and [o[f] = v], for the object at [l]. *)
Definition get (h : heap) (l : loc) (f : string) : option value :=
  (h !!! l) !! f.
Definition get_num (h : heap) (l : loc) (f : string) : number :=
  to_number (get h l f).
Definition set_field (h : heap) (l : loc) (f : string) (v : value) : heap :=
  <[l := <[f := v]> (h !!! l)]> h.

(** A new object, at a reference not in use. *)
Definition alloc (h : heap) (o : object) : heap * loc :=
  let l := fresh (dom h) in (<[l := o]> h, l).

(** [data.map(row => ({ ...row }))]. *)
Fixpoint copy_rows (h : heap) (data : list loc) : heap * list loc :=
  match data with
  | [] => (h, [])
  | row :: rest =>
    let '(h, l) := alloc h (h !!! row) in
    let '(h, ls) := copy_rows h rest in
    (h, l :: ls)
  end.

(** A left fold whose step may fail to end. *)
Fixpoint foldM {A B : Type} (f : A -> B -> option A) (l : list B) (a : A)
  : option A :=
  match l with
  | [] => Some a
  | x :: l' => a' ← f a x; foldM f l' a'
  end.

(** ** Metrics (source lines 101-114) *)

Record metric : Type := { key : string; label : string; color : string }.

Definition METRICS : list metric :=
  [ {| key := "DAU"; label := "DAU"; color := "#2563eb" |};
    {| key := "WAU"; label := "WAU"; color := "#16a34a" |};
    {| key := "Sessions"; label := "Sessions"; color := "#9333ea" |};
    {| key := "Logins"; label := "Logins"; color := "#f59e0b" |};
    {| key := "Signups"; label := "Signups"; color := "#ef4444" |};
    {| key := "VideoViews"; label := "Video Views"; color := "#0ea5e9" |};
    {| key := "Shares"; label := "Shares"; color := "#22c55e" |};
    {| key := "Comments"; label := "Comments"; color := "#a855f7" |};
    {| key := "Likes"; label := "Likes"; color := "#f97316" |} ].

Definition SUCCESS_KEYS : list string :=
  ["VideoViews"; "Shares"; "Comments"; "Likes"].
Definition GUARDRAIL_KEYS : list string :=
  ["DAU"; "WAU"; "Sessions"; "Logins"; "Signups"].

(** [keys.includes(k)]. *)
Definition includes (keys : list string) (k : string) : bool :=
  existsb (String.eqb k) keys.

(** ** A/B statistics and simulation (source lines 175-270) *)

Definition zCritical : number := dec 196 2.

Record totals : Type := { tot_metric : number; tot_users : number }.

Definition add_totals (h : heap) (metricKey : string) (acc : totals) (d : loc)
  : totals :=
  {| tot_metric := (tot_metric acc + get_num h d metricKey)%num;
     tot_users := (tot_users acc + get_num h d "DAU")%num |}.

Definition sum_totals (h : heap) (metricKey : string) (data : list loc)
  : totals :=
  fold_left (add_totals h metricKey) data
            {| tot_metric := pos_zero; tot_users := pos_zero |}.

Definition basePerUser (h : heap) (metricKey : string) (data : list loc)
  : number :=
  let t := sum_totals h metricKey data in
  if gt (tot_users t) pos_zero then (tot_metric t / tot_users t)%num
  else pos_zero.

Definition basePerUserUntil (h : heap) (metricKey : string) (data : list loc)
  (endIndex : nat) : number :=
  let slice := take endIndex data in
  if (length slice =? 0)%nat then basePerUser h metricKey data
  else
    let t := sum_totals h metricKey slice in
    if gt (tot_users t) pos_zero then (tot_metric t / tot_users t)%num
    else basePerUser h metricKey data.

(** The sum of one metric over the whole series, and the seed mixed
    from it. *)
Definition metric_sum (h : heap) (metricKey : string) (data : list loc)
  : number :=
  fold_left (fun s d => (s + get_num h d metricKey)%num) data pos_zero.

Definition mixedSeed (h : heap) (metricKey : string) (data : list loc)
  (seed : Z) : Z :=
  Int32.xor (Int32.xor seed 2654435769)
            (Int32.of_number (metric_sum h metricKey data)).

Record stats : Type := {
  st_muC : number; st_muT : number; st_diff : number; st_z : number;
  st_p : number; st_ciLow : number; st_ciHigh : number; st_lift : number
}.

Record aggregate : Type := {
  agg_muC : number; agg_muT : number; agg_liftPct : number;
  agg_startIndex : nat; agg_daysInTest : Z;
  agg_NtotC : number; agg_NtotT : number
}.

Record accum : Type := {
  sumC : number; sumE : number; NtotC : number; NtotT : number
}.

Record sim_result : Type := {
  simData : list loc;
  aggregates : gmap string aggregate;
  res_startIndex : nat
}.

Section Simulation.

Variable M : MathLib.

Definition deriveDataDrivenLift (fuel : nat) (h : heap) (metricKey : string)
  (data : list loc) (seed : Z) : option number :=
  let r := createPRNG (mixedSeed h metricKey data seed) in
  '(g, _) ← boxMuller M fuel r;
  let lift := (dec 10 2 + dec 10 2 * g)%num in
  Some (clamp lift (- dec 5 1)%num (of_Z 2)).

Definition computeStats (muC liftPct nC nT varBoost : number) : stats :=
  let muT := (muC * (of_Z 1 + liftPct))%num in
  let varC := (muC * (of_Z 1 + varBoost))%num in
  let varT := (muT * (of_Z 1 + varBoost))%num in
  let diff := (muT - muC)%num in
  let se := Math_sqrt (varT / nT + varC / nC)%num in
  let z := (diff / se)%num in
  let p := twoTailedP M z in
  let ciLow := (diff - zCritical * se)%num in
  let ciHigh := (diff + zCritical * se)%num in
  {| st_muC := muC; st_muT := muT; st_diff := diff; st_z := z; st_p := p;
     st_ciLow := ciLow; st_ciHigh := ciHigh; st_lift := (diff / muC)%num |}.

(** The lift a metric is simulated with (source lines 220-221). *)
Definition lift_used (fuel : nat) (h : heap) (metricKey : string)
  (data : list loc) (seed : Z) (enforceNoDecline : bool) : option number :=
  lift ← deriveDataDrivenLift fuel h metricKey data seed;
  Some (if enforceNoDecline && includes GUARDRAIL_KEYS metricKey
        then Math_max pos_zero lift else lift).

(** The first inner loop: both cohort fields of every row start as
    [null]. *)
Definition clear_row (k : string) (h : heap) (o : loc) : heap :=
  let h := set_field h o (k +:+ "_Control") VNull in
  set_field h o (k +:+ "_Experiment") VNull.

(** The per-day cohort size [Math.max(0, Math.floor(dauDay * clamp(split, 0, 1)))]. *)
Definition cohort_size (dauDay split : number) : number :=
  Math_max pos_zero
           (Math_floor (dauDay * clamp split pos_zero (of_Z 1))%num).

(** One round of the second inner loop, for day [i] and its row [o] of
    [out]. *)
Definition sim_day (fuel : nat) (k : string) (seed : Z)
  (splitC splitT muC_pre lift : number) (st : heap * accum) (io : nat * loc)
  : option (heap * accum) :=
  let '(h, acc) := st in
  let '(i, o) := io in
  let r := createPRNG (Int32.toUint32
             (Int32.xor (Int32.xor seed (hashStr k)) (Z.of_nat i))) in
  let dauDay := get_num h o "DAU" in
  let nC_day := cohort_size dauDay splitC in
  let nT_day := cohort_size dauDay splitT in
  if String.eqb k "DAU" then
    let h := set_field h o (k +:+ "_Control") (VNum nC_day) in
    let h := set_field h o (k +:+ "_Experiment") (VNum nT_day) in
    Some (h, {| sumC := (sumC acc + nC_day)%num;
                sumE := (sumE acc + nT_day)%num;
                NtotC := (NtotC acc + nC_day)%num;
                NtotT := (NtotT acc + nT_day)%num |})
  else
    let varPerUserC := (muC_pre * (of_Z 1 + dec 5 2))%num in
    let varPerUserE :=
      (muC_pre * (of_Z 1 + lift) * (of_Z 1 + dec 5 2))%num in
    let meanC := (muC_pre * nC_day)%num in
    let meanE := (muC_pre * (of_Z 1 + lift) * nT_day)%num in
    let sdC := Math_sqrt (Math_max (dec 1 9) (varPerUserC * nC_day)%num) in
    let sdE := Math_sqrt (Math_max (dec 1 9) (varPerUserE * nT_day)%num) in
    '(g, r) ← boxMuller M fuel r;
    let sampleC := Math_max pos_zero (Math_round (meanC + sdC * g)%num) in
    '(g, r) ← boxMuller M fuel r;
    let sampleE := Math_max pos_zero (Math_round (meanE + sdE * g)%num) in
    let h := set_field h o (k +:+ "_Control") (VNum sampleC) in
    let h := set_field h o (k +:+ "_Experiment") (VNum sampleE) in
    Some (h, {| sumC := (sumC acc + sampleC)%num;
                sumE := (sumE acc + sampleE)%num;
                NtotC := (NtotC acc + nC_day)%num;
                NtotT := (NtotT acc + nT_day)%num |}).

(** The rows of [out] with their indices. *)
Definition indexed (out : list loc) : list (nat * loc) :=
  zip (seq 0 (length out)) out.

(** The body of [METRICS.forEach]. *)
Definition sim_metric (fuel : nat) (data out : list loc) (seed : Z)
  (splitC splitT : number) (startIndex : nat) (enforceNoDecline : bool)
  (st : heap * gmap string aggregate) (m : metric)
  : option (heap * gmap string aggregate) :=
  let '(h, aggs) := st in
  let k := key m in
  let muC_pre := basePerUserUntil h k data startIndex in
  lift ← lift_used fuel h k data seed enforceNoDecline;
  let h := fold_left (clear_row k) out h in
  '(h, acc) ← foldM (sim_day fuel k seed splitC splitT muC_pre lift)
                    (drop startIndex (indexed out))
                    (h, {| sumC := pos_zero; sumE := pos_zero;
                           NtotC := pos_zero; NtotT := pos_zero |});
  let len := length data in
  let daysInTest := Z.max 1 (Z.of_nat len - Z.of_nat startIndex) in
  let muC_real :=
    if gt (NtotC acc) pos_zero then (sumC acc / NtotC acc)%num
    else pos_zero in
  let muT_real :=
    if gt (NtotT acc) pos_zero then (sumE acc / NtotT acc)%num
    else pos_zero in
  let lift_real :=
    if gt muC_real pos_zero then (muT_real / muC_real - of_Z 1)%num
    else pos_zero in
  Some (h, <[k := {| agg_muC := muC_real; agg_muT := muT_real;
                     agg_liftPct := lift_real;
                     agg_startIndex := startIndex;
                     agg_daysInTest := daysInTest;
                     agg_NtotC := NtotC acc; agg_NtotT := NtotT acc |}]> aggs).

(** [simulateAB].  The window length is an integer number of days; the
    result is the heap after the call together with the returned
    object. *)
Definition simulateAB (fuel : nat) (h : heap) (data : list loc) (seed : Z)
  (splitC splitT : number) (testLen : Z) (enforceNoDecline : bool)
  : option (heap * sim_result) :=
  let len := length data in
  let startIndex := Z.to_nat (Z.max 0 (Z.of_nat len - testLen)) in
  let '(h, out) := copy_rows h data in
  '(h, aggs) ← foldM (sim_metric fuel data out seed splitC splitT startIndex
                                 enforceNoDecline)
                     METRICS (h, ∅);
  Some (h, {| simData := out; aggregates := aggs;
              res_startIndex := startIndex |}).

(** ** The decision-rule sizer (source lines 650-678) *)

Inductive rule : Type := PRIMARY | CO_PRIMARY | ANY_OF.

Record sizer_row : Type := {
  row_key : string; row_label : string; row_mu : number;
  row_n : number; row_alphaAdj : number
}.

Definition candidateKeys (selectedSuccessKeys : list string) : list string :=
  if (length selectedSuccessKeys =? 0)%nat then SUCCESS_KEYS
  else selectedSuccessKeys.

Definition metric_label (k : string) : string :=
  match find (fun m => String.eqb (key m) k) METRICS with
  | Some m => if String.eqb (label m) "" then k else label m
  | None => k
  end.

Definition is_primary (r : rule) : bool :=
  match r with PRIMARY => true | _ => false end.

Definition sizer_rows (h : heap) (data : list loc) (cand : list string)
  (r : rule) (alpha power mdePct : number) : list sizer_row :=
  map (fun k =>
         let mu := basePerUser h k data in
         let sigma2 := (mu * (of_Z 1 + dec 5 2))%num in
         let mdeAbs := (mu * Math_max pos_zero mdePct)%num in
         let kCount := of_Z (Z.max 1 (Z.of_nat (length cand))) in
         let alphaAdj := if is_primary r then alpha else (alpha / kCount)%num in
         let n := computeSampleSize M sigma2 mdeAbs alphaAdj power in
         {| row_key := k; row_label := metric_label k; row_mu := mu;
            row_n := n; row_alphaAdj := alphaAdj |})
      cand.

Definition primaryRow (rows : list sizer_row) (primary : string)
  : option sizer_row :=
  match find (fun r => String.eqb (row_key r) primary) rows with
  | Some r => Some r
  | None => head rows
  end.

Definition recommendedN (r : rule) (rows : list sizer_row) (primary : string)
  : number :=
  match r with
  | PRIMARY =>
    match primaryRow rows primary with Some r => row_n r | None => NaN end
  | CO_PRIMARY =>
    fold_left (fun m r => Math_max m (or_else (row_n r) pos_zero)) rows pos_zero
  | ANY_OF =>
    fold_left (fun m r => if strict_eq m pos_zero
                          then or_else (row_n r) pos_zero
                          else Math_min m (or_else (row_n r) pos_zero))
              rows pos_zero
  end.

(** The recommendation of [DecisionRuleSizer] from its props and state. *)
Definition DecisionRuleSizer (h : heap) (data : list loc)
  (selectedSuccessKeys : list string) (r : rule) (primary : string)
  (alpha power mdePct : number) : number :=
  let cand := candidateKeys selectedSuccessKeys in
  recommendedN r (sizer_rows h data cand r alpha power mdePct) primary.

End Simulation.

(** The call site of [computeStats] in the results table (source lines
    528 and 561): a zero arm size is replaced by 1 before the call. *)
Definition table_arm_size (Ntot : number) : number := or_else Ntot (of_Z 1).


(** ** Controls of the component (source lines 313-347 and 609)

    The state of the component that these handlers change is passed in
    and returned.  The set of selected metric keys is a [gset]: the
    program only tests membership in it. *)

(** [toggleMetric(key)]: the updater given to [setSelected]. *)
Definition toggleMetric (key : string) (prev : gset string) : gset string :=
  if decide (key ∈ prev) then prev ∖ {[key]} else prev ∪ {[key]}.

(** [setGroup(keys, checked)]. *)
Definition setGroup (keys : list string) (checked : bool)
  (prev : gset string) : gset string :=
  fold_left (fun next k => if checked then next ∪ {[k]} else next ∖ {[k]})
            keys prev.

(** [KEYS.filter(k => selected.has(k))]. *)
Definition selected_of (keys : list string) (selected : gset string)
  : list string :=
  filter (fun k => k ∈ selected) keys.

(** [setSplitPair(c, t)] on two numbers: the new control and experiment
    splits. *)
Definition setSplitPair (c t : number) : number * number :=
  let c0 := clamp (or_else c pos_zero) pos_zero (of_Z 1) in
  let t0 := clamp (or_else t pos_zero) pos_zero (of_Z 1) in
  let tot := (c0 + t0)%num in
  if gt tot (dec 98 2)
  then ((c0 / tot * dec 98 2)%num, (t0 / tot * dec 98 2)%num)
  else (c0, t0).

(** [applyToSplit(n)], the handler of "Apply as split", on the splits
    [st]. *)
Definition applyToSplit (sumDAUWindow n : number) (st : number * number)
  : number * number :=
  if isFinite n && gt sumDAUWindow pos_zero
  then let frac := clamp (n / sumDAUWindow)%num pos_zero (dec 98 2) in
       setSplitPair frac frac
  else st.
(** * Properties *)

(** ** The order of numbers

    [SFcompare] orders the numbers that are not NaN by class (negative
    infinity, negative, zero, positive, positive infinity), then by
    exponent, then by mantissa.  [ckey] makes the three components
    explicit, so that order facts reduce to linear arithmetic. *)

Definition ckey (x : number) : Z * (Z * Z) :=
  match x with
  | S754_nan => (0, (0, 0))
  | S754_infinity true => (-2, (0, 0))
  | S754_finite true m e => (-1, (- e, Zneg m))
  | S754_zero _ => (0, (0, 0))
  | S754_finite false m e => (1, (e, Zpos m))
  | S754_infinity false => (2, (0, 0))
  end.

Definition kcmp (a b : Z * (Z * Z)) : comparison :=
  match fst a ?= fst b with
  | Eq => match fst (snd a) ?= fst (snd b) with
          | Eq => snd (snd a) ?= snd (snd b)
          | c => c
          end
  | c => c
  end.

Definition kle (a b : Z * (Z * Z)) : Prop :=
  fst a < fst b \/
  (fst a = fst b /\
   (fst (snd a) < fst (snd b) \/
    (fst (snd a) = fst (snd b) /\ snd (snd a) <= snd (snd b)))).

Lemma kcmp_le a b : kcmp a b <> Gt <-> kle a b.
Proof.
  unfold kcmp, kle.
  destruct (Z.compare_spec (fst a) (fst b));
    [destruct (Z.compare_spec (fst (snd a)) (fst (snd b)));
     [destruct (Z.compare_spec (snd (snd a)) (snd (snd b)))|..]|..];
    split; intros; try lia; try congruence.
Qed.

Lemma kcmp_lt a b : kcmp a b = Lt <-> ~ kle b a.
Proof.
  unfold kcmp, kle.
  destruct (Z.compare_spec (fst a) (fst b));
    [destruct (Z.compare_spec (fst (snd a)) (fst (snd b)));
     [destruct (Z.compare_spec (snd (snd a)) (snd (snd b)))|..]|..];
    split; intros; try lia; try congruence.
Qed.

Lemma SFcompare_ckey x y :
  isNaN x = false -> isNaN y = false ->
  SFcompare x y = Some (kcmp (ckey x) (ckey y)).
Proof.
  destruct x as [[]|[]| |[] mx ex], y as [[]|[]| |[] my ey];
    simpl; try discriminate; intros _ _; try reflexivity.
  unfold kcmp; simpl fst; simpl snd.
  change (-1 ?= -1) with Eq. cbv iota.
  rewrite Z.compare_opp.
  destruct (Z.compare_spec ey ex), (Z.compare_spec ex ey);
    try lia; try reflexivity.
Qed.

Lemma le_kle x y :
  isNaN x = false -> isNaN y = false ->
  le x y = true <-> kle (ckey x) (ckey y).
Proof.
  intros Hx Hy. unfold le, SFleb. rewrite (SFcompare_ckey _ _ Hx Hy).
  rewrite <- kcmp_le. destruct (kcmp (ckey x) (ckey y)); intuition congruence.
Qed.

Lemma lt_kle x y :
  isNaN x = false -> isNaN y = false ->
  lt x y = true <-> ~ kle (ckey y) (ckey x).
Proof.
  intros Hx Hy. unfold lt, SFltb. rewrite (SFcompare_ckey _ _ Hx Hy).
  rewrite <- kcmp_lt. destruct (kcmp (ckey x) (ckey y)); intuition congruence.
Qed.

Lemma le_not_NaN x y : le x y = true -> isNaN x = false /\ isNaN y = false.
Proof. destruct x as [| | |[]], y as [| | |[]]; simpl; auto; discriminate. Qed.

Lemma lt_not_NaN x y : lt x y = true -> isNaN x = false /\ isNaN y = false.
Proof. destruct x as [| | |[]], y as [| | |[]]; simpl; auto; discriminate. Qed.

Lemma le_refl x : isNaN x = false -> le x x = true.
Proof. intros H. apply le_kle; auto. unfold kle. lia. Qed.

Lemma le_trans x y z : le x y = true -> le y z = true -> le x z = true.
Proof.
  intros H1 H2.
  destruct (le_not_NaN _ _ H1) as [Hx Hy], (le_not_NaN _ _ H2) as [_ Hz].
  apply le_kle in H1, H2; auto. apply le_kle; auto.
  unfold kle in *. lia.
Qed.

Lemma le_total x y :
  isNaN x = false -> isNaN y = false -> le x y = true \/ le y x = true.
Proof.
  intros Hx Hy. rewrite !le_kle by auto. unfold kle. lia.
Qed.

Lemma lt_le x y : lt x y = true -> le x y = true.
Proof.
  intros H. destruct (lt_not_NaN _ _ H) as [Hx Hy].
  apply lt_kle in H; auto. apply le_kle; auto. unfold kle in *. lia.
Qed.

Lemma lt_le_trans x y z : lt x y = true -> le y z = true -> lt x z = true.
Proof.
  intros H1 H2.
  destruct (lt_not_NaN _ _ H1) as [Hx Hy], (le_not_NaN _ _ H2) as [_ Hz].
  apply lt_kle in H1; auto. apply le_kle in H2; auto. apply lt_kle; auto.
  unfold kle in *. lia.
Qed.

Lemma le_lt_trans x y z : le x y = true -> lt y z = true -> lt x z = true.
Proof.
  intros H1 H2.
  destruct (le_not_NaN _ _ H1) as [Hx Hy], (lt_not_NaN _ _ H2) as [_ Hz].
  apply le_kle in H1; auto. apply lt_kle in H2; auto. apply lt_kle; auto.
  unfold kle in *. lia.
Qed.

Lemma not_le_lt x y :
  isNaN x = false -> isNaN y = false -> le x y = false -> lt y x = true.
Proof.
  intros Hx Hy H. apply lt_kle; auto. rewrite <- le_kle by auto. congruence.
Qed.

(** *** [Math.max] and [Math.min] *)

Lemma SFcompare_Eq_le a b :
  SFcompare a b = Some Eq -> le a b = true /\ le b a = true.
Proof.
  intros E.
  assert (Ha : isNaN a = false) by (destruct a; auto; discriminate).
  assert (Hb : isNaN b = false)
    by (destruct a as [| | |[]], b; auto; discriminate).
  rewrite SFcompare_ckey in E by auto. injection E as E.
  rewrite !le_kle by auto. revert E. unfold kcmp, kle.
  destruct (Z.compare_spec (fst (ckey a)) (fst (ckey b)));
    [destruct (Z.compare_spec (fst (snd (ckey a))) (fst (snd (ckey b))));
     [destruct (Z.compare_spec (snd (snd (ckey a))) (snd (snd (ckey b))))|..]|..];
    intros; try discriminate; lia.
Qed.

Lemma SFcompare_Gt_le a b : SFcompare a b = Some Gt -> le b a = true.
Proof.
  intros E.
  assert (Ha : isNaN a = false) by (destruct a; auto; discriminate).
  assert (Hb : isNaN b = false)
    by (destruct a as [| | |[]], b; auto; discriminate).
  rewrite SFcompare_ckey in E by auto. injection E as E.
  rewrite le_kle by auto. revert E. unfold kcmp, kle.
  destruct (Z.compare_spec (fst (ckey a)) (fst (ckey b)));
    [destruct (Z.compare_spec (fst (snd (ckey a))) (fst (snd (ckey b))));
     [destruct (Z.compare_spec (snd (snd (ckey a))) (snd (snd (ckey b))))|..]|..];
    intros; try discriminate; lia.
Qed.

Lemma SFcompare_Lt_le a b : SFcompare a b = Some Lt -> le a b = true.
Proof. intros E. unfold le, SFleb. now rewrite E. Qed.

Lemma SFcompare_not_NaN a b :
  isNaN a = false -> isNaN b = false -> SFcompare a b <> None.
Proof. intros Ha Hb. now rewrite SFcompare_ckey. Qed.

Lemma Math_max_NaN a b : isNaN (Math_max a b) = isNaN a || isNaN b.
Proof.
  unfold Math_max. destruct (isNaN a) eqn:Ha; [reflexivity|].
  destruct (isNaN b) eqn:Hb; [reflexivity|]. simpl.
  destruct (SFcompare a b) as [[]|] eqn:E; auto.
  - destruct a as [[]| | |]; auto.
  - exfalso. now apply (SFcompare_not_NaN a b).
Qed.

Lemma Math_min_NaN a b : isNaN (Math_min a b) = isNaN a || isNaN b.
Proof.
  unfold Math_min. destruct (isNaN a) eqn:Ha; [reflexivity|].
  destruct (isNaN b) eqn:Hb; [reflexivity|]. simpl.
  destruct (SFcompare a b) as [[]|] eqn:E; auto.
  - destruct a as [[]| | |]; auto.
  - exfalso. now apply (SFcompare_not_NaN a b).
Qed.

(** [Math.max(a, b)] is the larger of its arguments. *)
Lemma Math_max_cases a b :
  isNaN a = false -> isNaN b = false ->
  (Math_max a b = a /\ le b a = true) \/ (Math_max a b = b /\ le a b = true).
Proof.
  intros Ha Hb. unfold Math_max. rewrite Ha, Hb. simpl.
  destruct (SFcompare a b) as [[]|] eqn:E.
  - destruct (SFcompare_Eq_le _ _ E).
    destruct a as [[]| | |]; auto.
  - right. split; auto. now apply SFcompare_Lt_le.
  - left. split; auto. now apply SFcompare_Gt_le.
  - exfalso. now apply (SFcompare_not_NaN a b).
Qed.

Lemma Math_min_cases a b :
  isNaN a = false -> isNaN b = false ->
  (Math_min a b = a /\ le a b = true) \/ (Math_min a b = b /\ le b a = true).
Proof.
  intros Ha Hb. unfold Math_min. rewrite Ha, Hb. simpl.
  destruct (SFcompare a b) as [[]|] eqn:E.
  - destruct (SFcompare_Eq_le _ _ E).
    destruct a as [[]| | |]; auto.
  - left. split; auto. now apply SFcompare_Lt_le.
  - right. split; auto. now apply SFcompare_Gt_le.
  - exfalso. now apply (SFcompare_not_NaN a b).
Qed.

Lemma Math_max_ge_l a b :
  isNaN a = false -> isNaN b = false -> le a (Math_max a b) = true.
Proof.
  intros Ha Hb. destruct (Math_max_cases a b Ha Hb) as [[-> H]|[-> H]]; auto.
  now apply le_refl.
Qed.

Lemma Math_max_ge_r a b :
  isNaN a = false -> isNaN b = false -> le b (Math_max a b) = true.
Proof.
  intros Ha Hb. destruct (Math_max_cases a b Ha Hb) as [[-> H]|[-> H]]; auto.
  now apply le_refl.
Qed.

Lemma Math_min_le_l a b :
  isNaN a = false -> isNaN b = false -> le (Math_min a b) a = true.
Proof.
  intros Ha Hb. destruct (Math_min_cases a b Ha Hb) as [[-> H]|[-> H]]; auto.
  now apply le_refl.
Qed.

Lemma Math_min_le_r a b :
  isNaN a = false -> isNaN b = false -> le (Math_min a b) b = true.
Proof.
  intros Ha Hb. destruct (Math_min_cases a b Ha Hb) as [[-> H]|[-> H]]; auto.
  now apply le_refl.
Qed.

(** ** The generator at seed 0 *)

(** The first [n] outputs of a generator in state [s]. *)
Fixpoint draws (n : nat) (s : Z) : list number :=
  match n with
  | O => []
  | S n' => let '(u, s') := rand s in u :: draws n' s'
  end.

Lemma rand_zero : rand 0 = (pos_zero, 0).
Proof. reflexivity. Qed.

Lemma draws_zero n : draws n 0 = repeat pos_zero n.
Proof.
  induction n as [|n IH]; [reflexivity|].
  cbn [draws]. rewrite rand_zero. cbn [repeat]. now rewrite IH.
Qed.

Lemma draw_nonzero_zero fuel : draw_nonzero fuel 0 = None.
Proof.
  induction fuel as [|fuel IH]; [reflexivity|].
  cbn [draw_nonzero]. rewrite rand_zero. exact IH.
Qed.

(** C9 (the code at the failing input).  [createPRNG] keeps the seed as
    it is: seed 0 gives the all-zero state, which xorshift never
    leaves; every output is 0, and the redraw loop of [boxMuller] never
    ends, whatever the bound on its rounds. *)
Theorem createPRNG_seed_zero_degenerate :
  createPRNG 0 = 0 /\
  xorshift 0 = 0 /\
  (forall n, draws n (createPRNG 0) = repeat pos_zero n) /\
  (forall M fuel, boxMuller M fuel (createPRNG 0) = None).
Proof.
  split; [reflexivity|]. split; [reflexivity|]. split.
  - intros n. apply draws_zero.
  - intros M fuel. unfold boxMuller. change (createPRNG 0) with 0.
    now rewrite draw_nonzero_zero.
Qed.

(** ** The worked sample-size example *)

(** C4, amended.  With sigma2 = 105, MDE = 10, alpha = 0.05 and power =
    0.8 [computeSampleSize] returns exactly 17 per arm, on every host;
    and the formula of the claim, ceil(2 (1.95996 + 0.84162)^2 105 / 100),
    is 17 as well. *)
Theorem computeSampleSize_worked_example (M : MathLib) :
  computeSampleSize M (of_Z 105) (of_Z 10) (dec 5 2) (dec 8 1) = of_Z 17 /\
  Math_ceil (of_Z 2 * (dec 195996 5 + dec 84162 5)
             * (dec 195996 5 + dec 84162 5) * of_Z 105 / of_Z 100)%num
  = of_Z 17.
Proof. split; vm_compute; reflexivity. Qed.

(** C4 as stated fails: the value is not within 1 of 34. *)
Lemma computeSampleSize_worked_example_not_34 :
  let n := computeSampleSize RefMath.lib (of_Z 105) (of_Z 10)
                             (dec 5 2) (dec 8 1) in
  ~ (le (of_Z 33) n = true /\ le n (of_Z 35) = true).
Proof. vm_compute. intros [H _]. discriminate H. Qed.

(** ** The normal CDF and quantile *)

Lemma mul_neg_neg x : (- - x * - x)%num = (- x * x)%num.
Proof. destruct x as [[]|[]| |[] m e]; reflexivity. Qed.

Lemma abs_neg x : Math_abs (- x)%num = Math_abs x.
Proof. destruct x as [[]|[]| |[] m e]; reflexivity. Qed.

Lemma ge_zero_neg x : lt pos_zero x = true -> ge (- x)%num pos_zero = false.
Proof. destruct x as [[]|[]| |[] m e]; simpl; auto; discriminate. Qed.

Lemma ge_zero_pos x : lt pos_zero x = true -> ge x pos_zero = true.
Proof. destruct x as [[]|[]| |[] m e]; simpl; auto; discriminate. Qed.

(** The value of [stdNormCDF(0)], about 0.499999976. *)
Definition cdf_at_zero : number := S754_finite false 9007198821704524 (-54).

Lemma stdNormCDF_zero M s :
  Math_exp M neg_zero = of_Z 1 ->
  stdNormCDF M (S754_zero s) = cdf_at_zero.
Proof.
  intros Hexp. unfold stdNormCDF.
  assert (E : (- S754_zero s * S754_zero s / of_Z 2)%num = neg_zero)
    by (destruct s; reflexivity).
  rewrite E, Hexp. destruct s; vm_compute; reflexivity.
Qed.

(** C8, amended.  On a host with [Math.exp(-0) = 1] (ECMA-262
    21.3.2.14), [stdNormCDF(0)] is 0.49999997..., within 1e-7 of 0.5
    but not 0.5; [stdNormCDF(-x) = 1 - stdNormCDF(x)] for every
    [x > 0]; and [invNorm(0.975)] is within 0.02 of 1.95996. *)
Theorem normal_regression_checks (M : MathLib) :
  Math_exp M neg_zero = of_Z 1 ->
  stdNormCDF M pos_zero = cdf_at_zero /\
  lt (Math_abs (stdNormCDF M pos_zero - dec 5 1)%num) (dec 1 7) = true /\
  (forall x, lt pos_zero x = true ->
             stdNormCDF M (- x)%num = (of_Z 1 - stdNormCDF M x)%num) /\
  lt (Math_abs (invNorm M (dec 975 3) - dec 195996 5)%num) (dec 2 2) = true.
Proof.
  intros Hexp. split; [exact (stdNormCDF_zero M false Hexp)|].
  split; [unfold pos_zero at 1; rewrite (stdNormCDF_zero M false Hexp);
          vm_compute; reflexivity|].
  split; [|vm_compute; reflexivity].
  intros x Hx. unfold stdNormCDF.
  rewrite (ge_zero_neg x Hx), (ge_zero_pos x Hx), abs_neg, mul_neg_neg.
  reflexivity.
Qed.

Lemma normal_regression_checks_witness :
  Math_exp RefMath.lib neg_zero = of_Z 1 /\
  stdNormCDF RefMath.lib pos_zero = cdf_at_zero.
Proof.
  split; [reflexivity|].
  exact (proj1 (normal_regression_checks RefMath.lib eq_refl)).
Defined.

(** C8 as stated fails at [x = 0]: [stdNormCDF(0)] misses 0.5 by more
    than 2e-8, a hundred million units in the last place, and
    [stdNormCDF(-0) + stdNormCDF(0)] is not 1. *)
Lemma stdNormCDF_zero_not_half :
  lt (dec 2 8)
     (Math_abs (stdNormCDF RefMath.lib pos_zero - dec 5 1)%num) = true /\
  strict_eq (stdNormCDF RefMath.lib (- pos_zero)%num
             + stdNormCDF RefMath.lib pos_zero)%num (of_Z 1) = false.
Proof. split; vm_compute; reflexivity. Qed.

(** ** [computeStats] with an empty arm *)

Definition is_zero (x : number) : bool :=
  match x with S754_zero _ => true | _ => false end.

Definition inf_or_NaN (x : number) : Prop :=
  match x with S754_infinity _ | S754_nan => True | _ => False end.

Lemma div_zero_inf_or_NaN x d : is_zero d = true -> inf_or_NaN (x / d)%num.
Proof. destruct x as [[]|[]| |[] m e], d as [[]|[]| |[] m' e']; now simpl. Qed.

Lemma add_inf_or_NaN_r x y : inf_or_NaN y -> inf_or_NaN (x + y)%num.
Proof. destruct x as [[]|[]| |[] m e], y as [[]|[]| |[] m' e']; now simpl. Qed.

Lemma add_inf_or_NaN_l x y : inf_or_NaN x -> inf_or_NaN (x + y)%num.
Proof. destruct x as [[]|[]| |[] m e], y as [[]|[]| |[] m' e']; now simpl. Qed.

Lemma sqrt_inf_or_NaN x :
  inf_or_NaN x -> Math_sqrt x = Infinity \/ Math_sqrt x = NaN.
Proof. destruct x as [[]|[]| |[] m e]; simpl; intros []; auto. Qed.

Lemma div_by_Infinity x :
  (x / Infinity)%num = pos_zero \/ (x / Infinity)%num = neg_zero \/
  (x / Infinity)%num = NaN.
Proof. destruct x as [[]|[]| |[] m e]; simpl; auto. Qed.

Lemma div_by_NaN x : (x / NaN)%num = NaN.
Proof. destruct x as [[]|[]| |[] m e]; reflexivity. Qed.

Lemma zCritical_times_Infinity : (zCritical * Infinity)%num = Infinity.
Proof. reflexivity. Qed.

Lemma sub_Infinity x :
  (x - Infinity)%num = neg_Infinity \/ (x - Infinity)%num = NaN.
Proof. destruct x as [[]|[]| |[] m e]; simpl; auto. Qed.

Lemma add_Infinity x :
  (x + Infinity)%num = Infinity \/ (x + Infinity)%num = NaN.
Proof. destruct x as [[]|[]| |[] m e]; simpl; auto. Qed.

Lemma mul_NaN_r x : (x * NaN)%num = NaN.
Proof. destruct x as [[]|[]| |[] m e]; reflexivity. Qed.

Lemma sub_NaN_r x : (x - NaN)%num = NaN.
Proof. destruct x as [[]|[]| |[] m e]; reflexivity. Qed.

Lemma add_NaN_r x : (x + NaN)%num = NaN.
Proof. destruct x as [[]|[]| |[] m e]; reflexivity. Qed.

Lemma table_arm_size_truthy Ntot : truthy (table_arm_size Ntot) = true.
Proof.
  unfold table_arm_size, or_else.
  destruct (truthy Ntot) eqn:E; [exact E|reflexivity].
Qed.

Lemma number_over_Infinity x :
  isNaN (x / Infinity)%num = false ->
  ((x / Infinity)%num = pos_zero \/ (x / Infinity)%num = neg_zero) /\
  (x - Infinity)%num = neg_Infinity /\ (x + Infinity)%num = Infinity.
Proof.
  destruct x as [[]|[]| |[] m e]; simpl; intros H; try discriminate H; auto.
Qed.

(** C1, amended.  [computeStats] has no guard of its own.  With an arm
    size of zero the division is the IEEE one, which cannot fault: the
    standard error is +Infinity or NaN, so [z] is a zero or NaN and the
    confidence bounds are infinite or NaN; and whenever [z] is a number
    it is a zero and the interval is (-Infinity, +Infinity).  The guard is
    at the call site, which never passes a zero or NaN arm size. *)
Theorem computeStats_zero_arm (M : MathLib) (muC liftPct nC nT varBoost : number) :
  is_zero nC = true \/ is_zero nT = true ->
  let s := computeStats M muC liftPct nC nT varBoost in
  (st_z s = pos_zero \/ st_z s = neg_zero \/ st_z s = NaN) /\
  (st_ciLow s = neg_Infinity \/ st_ciLow s = NaN) /\
  (st_ciHigh s = Infinity \/ st_ciHigh s = NaN) /\
  (isNaN (st_z s) = false ->
   (st_z s = pos_zero \/ st_z s = neg_zero) /\
   st_ciLow s = neg_Infinity /\ st_ciHigh s = Infinity) /\
  (forall Ntot, truthy (table_arm_size Ntot) = true).
Proof.
  intros Hz. cbv zeta. unfold computeStats. cbn [st_z st_ciLow st_ciHigh].
  set (muT := (muC * (of_Z 1 + liftPct))%num).
  set (varC := (muC * (of_Z 1 + varBoost))%num).
  set (varT := (muT * (of_Z 1 + varBoost))%num).
  set (diff := (muT - muC)%num).
  assert (Hse : inf_or_NaN (varT / nT + varC / nC)%num).
  { destruct Hz as [Hz|Hz].
    - apply add_inf_or_NaN_r. now apply div_zero_inf_or_NaN.
    - apply add_inf_or_NaN_l. now apply div_zero_inf_or_NaN. }
  destruct (sqrt_inf_or_NaN _ Hse) as [-> | ->].
  - rewrite zCritical_times_Infinity.
    split; [apply div_by_Infinity|]. split; [apply sub_Infinity|].
    split; [apply add_Infinity|].
    split; [apply number_over_Infinity|apply table_arm_size_truthy].
  - rewrite div_by_NaN, mul_NaN_r, sub_NaN_r, add_NaN_r.
    split; [auto|]. split; [auto|]. split; [auto|].
    split; [intros H; discriminate H|apply table_arm_size_truthy].
Qed.

(** With an empty control arm, a control mean of 2.5 and a lift of 0.1:
    [z] is +0 and the interval is (-Infinity, +Infinity). *)
Lemma computeStats_zero_arm_witness :
  is_zero pos_zero = true /\
  let s := computeStats RefMath.lib (dec 25 1) (dec 1 1) pos_zero
                        (of_Z 1000) (dec 5 2) in
  st_z s = pos_zero /\ st_ciLow s = neg_Infinity /\ st_ciHigh s = Infinity.
Proof.
  split; [reflexivity|]. cbv zeta.
  destruct (computeStats_zero_arm RefMath.lib (dec 25 1) (dec 1 1) pos_zero
              (of_Z 1000) (dec 5 2) (or_introl eq_refl))
    as (_ & _ & _ & H & _).
  destruct H as ([Hz|Hz] & HL & HH); [vm_compute; reflexivity| |].
  - split; [exact Hz|]. split; [exact HL|exact HH].
  - vm_compute in Hz. discriminate Hz.
Defined.

(** C1 as stated fails: with an empty control arm the result is not an
    error or an undefined value; [z] is the number 0 and [p] a number
    (1.0000000476...). *)
Lemma computeStats_zero_arm_defined :
  let s := computeStats RefMath.lib (dec 25 1) (dec 1 1) pos_zero
                        (of_Z 1000) (dec 5 2) in
  st_z s = pos_zero /\ isNaN (st_p s) = false /\
  lt (of_Z 1) (st_p s) = true.
Proof. vm_compute. auto. Qed.

(** With an empty experiment arm and a lift of -1 the experiment variance
    is zero, the division is 0/0, and every statistic is NaN. *)
Lemma computeStats_zero_arm_NaN :
  let s := computeStats RefMath.lib (dec 25 1) (- of_Z 1)%num (of_Z 1000)
                        pos_zero (dec 5 2) in
  st_z s = NaN /\ st_p s = NaN /\ st_ciLow s = NaN /\ st_ciHigh s = NaN.
Proof. vm_compute. auto. Qed.

(** ** A small series for the closed examples

    Three days; on each day Sessions equals DAU, and the per-user rates
    of VideoViews and Shares differ widely. *)

Definition example_row (date : string) (dau : Z) : object :=
  <["date" := VStr date]> (<["label" := VStr date]> (
  <["DAU" := VNum (of_Z dau)]> (<["WAU" := VNum (of_Z (5 * dau))]> (
  <["Sessions" := VNum (of_Z dau)]> (<["Logins" := VNum (of_Z 700)]> (
  <["Signups" := VNum (of_Z 50)]> (<["VideoViews" := VNum (of_Z 2500)]> (
  <["Shares" := VNum (of_Z 150)]> (<["Comments" := VNum (of_Z 200)]> (
  <["Likes" := VNum (of_Z 700)]> ∅)))))))))).

Definition example_heap : heap :=
  <[1%positive := example_row "2024-01-01" 1001]> (
  <[2%positive := example_row "2024-01-02" 1101]> (
  <[3%positive := example_row "2024-01-03" 1201]> ∅)).

Definition example_data : list loc := [1%positive; 2%positive; 3%positive].

(** ** The lift of a metric *)

(** C3, amended.  The lift is 0.10 + 0.10 Z clamped to [-0.5, 2.0], with
    Z drawn from the stream seeded by [(seed ^ 0x9e3779b9) ^ (sum | 0)].
    The metric key enters through the sum of the metric's values only,
    no hash of it is mixed in: two metrics with the same sum get the
    same lift. *)
Theorem deriveDataDrivenLift_by_seed_and_sum (M : MathLib) (fuel : nat)
  (h : heap) (k1 k2 : string) (data : list loc) (seed : Z) :
  metric_sum h k1 data = metric_sum h k2 data ->
  deriveDataDrivenLift M fuel h k1 data seed
  = deriveDataDrivenLift M fuel h k2 data seed /\
  deriveDataDrivenLift M fuel h k1 data seed
  = '(g, _) ← boxMuller M fuel
       (createPRNG (Int32.xor (Int32.xor seed 2654435769)
                              (Int32.of_number (metric_sum h k1 data))));
    Some (clamp (dec 10 2 + dec 10 2 * g)%num (- dec 5 1)%num (of_Z 2)).
Proof.
  intros Hsum. split; [|reflexivity].
  unfold deriveDataDrivenLift, mixedSeed. now rewrite Hsum.
Qed.

Lemma deriveDataDrivenLift_by_seed_and_sum_witness :
  metric_sum example_heap "DAU" example_data
  = metric_sum example_heap "Sessions" example_data /\
  deriveDataDrivenLift RefMath.lib 1 example_heap "DAU" example_data 42
  = deriveDataDrivenLift RefMath.lib 1 example_heap "Sessions" example_data 42.
Proof.
  assert (H : metric_sum example_heap "DAU" example_data
              = metric_sum example_heap "Sessions" example_data)
    by (vm_compute; reflexivity).
  split; [exact H|].
  exact (proj1 (deriveDataDrivenLift_by_seed_and_sum RefMath.lib 1
                  example_heap "DAU" "Sessions" example_data 42 H)).
Defined.

(** C3 as stated fails: DAU and Sessions have different key hashes, and
    on the example series, with seed 42, the same lift. *)
Lemma lift_ignores_key_hash :
  hashStr "DAU" <> hashStr "Sessions" /\
  deriveDataDrivenLift RefMath.lib 1 example_heap "DAU" example_data 42
  = deriveDataDrivenLift RefMath.lib 1 example_heap "Sessions" example_data 42 /\
  is_Some (deriveDataDrivenLift RefMath.lib 1 example_heap "DAU"
                                example_data 42).
Proof.
  split; [vm_compute; discriminate|].
  split; vm_compute; eauto.
Qed.

(** ** The decision rules *)

Lemma or_else_not_NaN x : isNaN (or_else x pos_zero) = false.
Proof. unfold or_else. destruct x as [[]|[]| |[] m e]; reflexivity. Qed.

Definition co_step (m : number) (r : sizer_row) : number :=
  Math_max m (or_else (row_n r) pos_zero).

Definition any_step (m : number) (r : sizer_row) : number :=
  if strict_eq m pos_zero then or_else (row_n r) pos_zero
  else Math_min m (or_else (row_n r) pos_zero).

Lemma any_of_le_co_primary_fold (rows : list sizer_row) :
  forall ma mc,
    le ma mc = true ->
    le (fold_left any_step rows ma) (fold_left co_step rows mc) = true.
Proof.
  induction rows as [|r rows IH]; intros ma mc Hle; [exact Hle|].
  cbn [fold_left]. apply IH.
  destruct (le_not_NaN _ _ Hle) as [Ha Hc].
  pose proof (or_else_not_NaN (row_n r)) as Hv.
  unfold any_step, co_step. destruct (strict_eq ma pos_zero).
  - now apply Math_max_ge_r.
  - apply le_trans with ma; [now apply Math_min_le_l|].
    apply le_trans with mc; [exact Hle|]. now apply Math_max_ge_l.
Qed.

(** C6, amended.  For the same candidate set, MDE fraction, power and
    alpha, the CO_PRIMARY recommendation (the maximum of the per-metric
    n at alpha/k) is at least the ANY_OF recommendation (their minimum).
    Nothing orders the ANY_OF recommendation above a single metric's
    PRIMARY n. *)
Theorem co_primary_ge_any_of (M : MathLib) (h : heap) (data : list loc)
  (selectedSuccessKeys : list string) (primary : string)
  (alpha power mdePct : number) :
  le (DecisionRuleSizer M h data selectedSuccessKeys ANY_OF primary
                        alpha power mdePct)
     (DecisionRuleSizer M h data selectedSuccessKeys CO_PRIMARY primary
                        alpha power mdePct) = true.
Proof.
  unfold DecisionRuleSizer, recommendedN.
  change (sizer_rows M h data (candidateKeys selectedSuccessKeys) ANY_OF
                     alpha power mdePct)
    with (sizer_rows M h data (candidateKeys selectedSuccessKeys) CO_PRIMARY
                     alpha power mdePct).
  apply (any_of_le_co_primary_fold _ pos_zero pos_zero). reflexivity.
Qed.

(** C6 as stated fails: on the example series with candidates
    VideoViews and Shares, alpha = 0.2, power = 0.8 and MDE = 10%, the
    ANY_OF recommendation is 572, below the 6949 that Shares needs as the
    PRIMARY metric at the uncorrected alpha. *)
Lemma any_of_below_single_primary :
  let sizer r primary :=
    DecisionRuleSizer RefMath.lib example_heap example_data
                      ["VideoViews"; "Shares"] r primary
                      (dec 2 1) (dec 8 1) (dec 1 1) in
  sizer ANY_OF "VideoViews" = of_Z 572 /\
  sizer PRIMARY "Shares" = of_Z 6949 /\
  lt (sizer ANY_OF "VideoViews") (sizer PRIMARY "Shares") = true.
Proof. vm_compute. auto. Qed.

(** ** The shape of rounded results

    Rounding keeps the sign it is given and never produces NaN. *)

Definition has_sign (s : bool) (x : number) : Prop :=
  match x with
  | S754_zero s' | S754_infinity s' | S754_finite s' _ _ => s' = s
  | S754_nan => False
  end.

Lemma iter_pos_invariant {A : Type} (P : A -> Prop) (f : A -> A) :
  (forall x, P x -> P (f x)) ->
  forall p x, P x -> P (SpecFloat.iter_pos f p x).
Proof.
  intros Hf. induction p as [p IH|p IH|]; intros x Hx; simpl; auto.
Qed.

Lemma shr_1_nonneg mrs : 0 <= shr_m mrs -> 0 <= shr_m (shr_1 mrs).
Proof.
  destruct mrs as [m r s]. simpl.
  destruct m as [|[p|p|]|[p|p|]]; simpl; lia.
Qed.

Lemma shr_nonneg mrs e n : 0 <= shr_m mrs -> 0 <= shr_m (fst (shr mrs e n)).
Proof.
  intros H. destruct n as [|p|p]; simpl; auto.
  apply iter_pos_invariant; auto using shr_1_nonneg.
Qed.

Lemma shr_fexp_nonneg m e l :
  0 <= m -> 0 <= shr_m (fst (shr_fexp prec emax m e l)).
Proof.
  intros H. unfold shr_fexp. apply shr_nonneg.
  destruct l as [|[]]; simpl; exact H.
Qed.

Lemma round_nearest_even_nonneg m l : 0 <= m -> 0 <= round_nearest_even m l.
Proof.
  intros H. destruct l as [|[]]; simpl; auto; try lia.
  destruct (Z.even m); lia.
Qed.

Lemma binary_round_aux_sign sx mx ex lx :
  0 <= mx -> has_sign sx (binary_round_aux prec emax sx mx ex lx).
Proof.
  intros H. unfold binary_round_aux.
  pose proof (shr_fexp_nonneg mx ex lx H) as H1.
  destruct (shr_fexp prec emax mx ex lx) as [mrs' e']. simpl in H1.
  pose proof (shr_fexp_nonneg _ e' loc_Exact
                (round_nearest_even_nonneg _ (loc_of_shr_record mrs') H1)) as H2.
  destruct (shr_fexp prec emax _ e' loc_Exact) as [mrs'' e'']. simpl in H2.
  destruct (shr_m mrs'') as [|p|p]; [reflexivity| |lia].
  destruct (e'' <=? emax - prec); reflexivity.
Qed.

Lemma binary_round_sign sx mx ex :
  has_sign sx (binary_round prec emax sx mx ex).
Proof.
  unfold binary_round. destruct (shl_align _ _ _) as [mz ez].
  apply binary_round_aux_sign. lia.
Qed.

Lemma of_Z_pos_sign n : 0 < n -> has_sign false (of_Z n).
Proof.
  intros H. destruct n as [|p|p]; try lia. apply binary_round_sign.
Qed.

Lemma mul_sign sx sy x y :
  has_sign sx x -> has_sign sy y ->
  isNaN (x * y)%num = true \/ has_sign (xorb sx sy) (x * y)%num.
Proof.
  destruct x as [s|s| |s m e], y as [s'|s'| |s' m' e']; simpl;
    intros Hx Hy; subst; auto; try contradiction.
  right. apply binary_round_aux_sign. lia.
Qed.

(** *** Counts and cohort sizes *)

(** A count: [+0] or a positive finite number. *)
Definition count (x : number) : bool :=
  match x with
  | S754_zero false | S754_finite false _ _ => true
  | _ => false
  end.

Lemma Math_max_zero_nonneg x :
  has_sign false x \/ x = NaN -> Math_max pos_zero x = x.
Proof.
  intros [H| ->]; [|reflexivity].
  destruct x as [s|s| |s m e]; simpl in H; subst; try contradiction;
    reflexivity.
Qed.

Lemma Math_max_zero_shape y :
  has_sign false (Math_max pos_zero y) \/ Math_max pos_zero y = NaN.
Proof. destruct y as [[]|[]| |[] m e]; simpl; auto. Qed.

Lemma clamp_unit_shape x :
  has_sign false (clamp x pos_zero (of_Z 1)) \/ clamp x pos_zero (of_Z 1) = NaN.
Proof. apply Math_max_zero_shape. Qed.

Lemma Math_floor_nonneg x :
  has_sign false x -> has_sign false (Math_floor x).
Proof.
  destruct x as [s|s| |s m e]; simpl; auto.
  intros ->. destruct (0 <=? e); [reflexivity|].
  unfold int_result. simpl cond_Zopp.
  assert (H : 0 <= Z.shiftr (Zpos m) (- e)) by (apply Z.shiftr_nonneg; lia).
  destruct (Z.eqb_spec (Z.shiftr (Zpos m) (- e)) 0); [reflexivity|].
  apply of_Z_pos_sign. lia.
Qed.

(** For a count of users the per-day cohort size is the floor itself:
    the outer [Math.max(0, .)] changes nothing. *)
Lemma cohort_size_floor dauDay split :
  count dauDay = true ->
  cohort_size dauDay split
  = Math_floor (dauDay * clamp split pos_zero (of_Z 1))%num.
Proof.
  intros Hc. unfold cohort_size. apply Math_max_zero_nonneg.
  assert (Hd : has_sign false dauDay)
    by (destruct dauDay as [[]|[]| |[] m e]; try discriminate; reflexivity).
  destruct (clamp_unit_shape split) as [Hs | ->].
  - destruct (mul_sign _ _ _ _ Hd Hs) as [Hn|Hm].
    + right. destruct (_ * _)%num; try discriminate. reflexivity.
    + left. now apply Math_floor_nonneg.
  - right. destruct dauDay as [[]|[]| |[] m e]; reflexivity.
Qed.

(** ** The heap: what [simulateAB] writes *)

(** The two fields a metric owns in a simulated record. *)
Definition footprint (k : string) : list string :=
  [k +:+ "_Control"; k +:+ "_Experiment"].

Definition written_fields : list string :=
  flat_map (fun m => footprint (key m)) METRICS.

(** [h'] differs from [h] at most in the fields [F] of the objects at
    [O]. *)
Definition modifies_only (O : list loc) (F : list string) (h h' : heap)
  : Prop :=
  (forall l, l ∉ O -> h' !! l = h !! l) /\
  (forall l f, f ∉ F -> get h' l f = get h l f).

Lemma modifies_only_refl O F h : modifies_only O F h h.
Proof. split; auto. Qed.

Lemma modifies_only_trans O F h1 h2 h3 :
  modifies_only O F h1 h2 -> modifies_only O F h2 h3 ->
  modifies_only O F h1 h3.
Proof.
  intros [A1 B1] [A2 B2]. split.
  - intros l Hl. now rewrite A2, A1.
  - intros l f Hf. now rewrite B2, B1.
Qed.

Lemma modifies_only_weaken O F F' h h' :
  F ⊆ F' -> modifies_only O F h h' -> modifies_only O F' h h'.
Proof.
  intros HF [A B]. split; [exact A|].
  intros l f Hf. apply B. intros Hin. apply Hf, HF, Hin.
Qed.

Lemma get_set_field_eq (h : heap) l f v : get (set_field h l f v) l f = Some v.
Proof.
  unfold get, set_field. rewrite lookup_total_insert_eq.
  apply lookup_insert_eq.
Qed.

Lemma get_set_field_ne_field (h : heap) l f v l' f' :
  f' ≠ f -> get (set_field h l f v) l' f' = get h l' f'.
Proof.
  intros Hf. unfold get, set_field.
  destruct (decide (l = l')) as [->|Hl].
  - rewrite lookup_total_insert_eq. now apply lookup_insert_ne.
  - now rewrite lookup_total_insert_ne.
Qed.

Lemma lookup_set_field_ne (h : heap) l f v l' :
  l' ≠ l -> set_field h l f v !! l' = h !! l'.
Proof. intros Hl. unfold set_field. now apply lookup_insert_ne. Qed.

Lemma get_lookup_eq (h h' : heap) l f :
  h' !! l = h !! l -> get h' l f = get h l f.
Proof.
  intros E. unfold get. now rewrite !lookup_total_alt, E.
Qed.

Lemma set_field_modifies O F (h : heap) o f v :
  o ∈ O -> f ∈ F -> modifies_only O F h (set_field h o f v).
Proof.
  intros Ho Hf. split.
  - intros l Hl. apply lookup_set_field_ne. intros ->. contradiction.
  - intros l f' Hf'. apply get_set_field_ne_field. intros ->. contradiction.
Qed.

Lemma footprint_control k : k +:+ "_Control" ∈ footprint k.
Proof. unfold footprint. apply elem_of_cons. now left. Qed.

Lemma footprint_experiment k : k +:+ "_Experiment" ∈ footprint k.
Proof.
  unfold footprint. apply elem_of_cons. right. apply elem_of_cons. now left.
Qed.

Lemma app_suffix_ne k : k +:+ "_Control" ≠ k +:+ "_Experiment".
Proof.
  induction k as [|c k IH]; simpl; [discriminate|].
  intros H. injection H as H. contradiction.
Qed.

(** *** Copying the rows *)

Lemma dom_insert_self (h : heap) l x : l ∈ dom (<[l := x]> h).
Proof. rewrite dom_insert_L. apply elem_of_union_l, elem_of_singleton_2. reflexivity. Qed.

Lemma dom_insert_mono (h : heap) l x l' : l' ∈ dom h -> l' ∈ dom (<[l := x]> h).
Proof. intros H. rewrite dom_insert_L. now apply elem_of_union_r. Qed.

Lemma copy_rows_spec (data : list loc) :
  forall (h h1 : heap) (out : list loc),
    copy_rows h data = (h1, out) ->
    length out = length data /\
    NoDup out /\
    (forall o, o ∈ out -> (o ∉ dom h) /\ (o ∈ dom h1)) /\
    (forall l, l ∈ dom h -> (h1 !! l = h !! l) /\ (l ∈ dom h1)) /\
    (forall i row o, data !! i = Some row -> out !! i = Some o ->
                     row ∈ dom h -> h1 !! o = Some (h !!! row)).
Proof.
  induction data as [|row rest IH]; intros h h1 out Hc; simpl in Hc.
  - injection Hc as <- <-.
    split; [reflexivity|]. split; [apply NoDup_nil_2|].
    split; [intros o Ho; inversion Ho|].
    split; [intros l Hl; split; [reflexivity|exact Hl]|].
    intros i row o Hi. discriminate Hi.
  - destruct (copy_rows _ rest) as [h2 ls] eqn:Hrest.
    injection Hc as <- <-.
    pose proof (is_fresh (dom h)) as Hl.
    remember (fresh (dom h)) as l eqn:El. clear El.
    destruct (IH _ _ _ Hrest) as (Hlen & Hnd & Hout & Hframe & Hrows).
    clear IH Hrest.
    pose proof (dom_insert_self h l (h !!! row)) as Hla.
    split; [simpl; now rewrite Hlen|].
    split.
    { apply NoDup_cons. split; [|exact Hnd]. intros Hin.
      apply Hout in Hin. destruct Hin as [Hin _]. contradiction. }
    split.
    { intros o Ho. apply elem_of_cons in Ho as [->|Ho].
      - split; [exact Hl|]. now apply Hframe.
      - destruct (Hout o Ho) as [Hn Hd]. split; [|exact Hd].
        intros Hin. apply Hn. now apply dom_insert_mono. }
    split.
    { intros l' Hl'.
      destruct (Hframe l' (dom_insert_mono h l _ l' Hl')) as [E D].
      split; [|exact D].
      rewrite E. apply lookup_insert_ne. intros ->. contradiction. }
    intros i row' o Hi Ho Hrow'. destruct i as [|i]; simpl in Hi, Ho.
    + injection Hi as <-. injection Ho as <-.
      destruct (Hframe l Hla) as [E _]. rewrite E. apply lookup_insert_eq.
    + rewrite (Hrows i row' o Hi Ho (dom_insert_mono h l _ row' Hrow')).
      f_equal. apply lookup_total_insert_ne. intros ->. contradiction.
Qed.

(** *** The loops of one metric *)

Lemma clear_row_modifies O k (h : heap) o :
  o ∈ O -> modifies_only O (footprint k) h (clear_row k h o).
Proof.
  intros Ho. unfold clear_row.
  eapply modifies_only_trans;
    apply set_field_modifies;
    auto using footprint_control, footprint_experiment.
Qed.

Lemma clear_row_null k (h : heap) o :
  get (clear_row k h o) o (k +:+ "_Control") = Some VNull /\
  get (clear_row k h o) o (k +:+ "_Experiment") = Some VNull.
Proof.
  unfold clear_row. split.
  - rewrite get_set_field_ne_field by apply app_suffix_ne.
    apply get_set_field_eq.
  - apply get_set_field_eq.
Qed.

Lemma clear_row_get_other k (h : heap) o l f :
  l ≠ o -> get (clear_row k h o) l f = get h l f.
Proof.
  intros Hl. unfold clear_row.
  apply get_lookup_eq. now rewrite !lookup_set_field_ne.
Qed.

Lemma clear_rows_modifies O k (rows : list loc) :
  forall h : heap,
    rows ⊆ O ->
    modifies_only O (footprint k) h (fold_left (clear_row k) rows h).
Proof.
  induction rows as [|o rows IH]; intros h Hsub; simpl.
  - apply modifies_only_refl.
  - eapply modifies_only_trans.
    + apply clear_row_modifies. apply Hsub. now left.
    + apply IH. intros x Hx. apply Hsub. now right.
Qed.

Lemma clear_rows_null k (rows : list loc) :
  forall (h : heap) o,
    o ∈ rows \/
    (get h o (k +:+ "_Control") = Some VNull /\
     get h o (k +:+ "_Experiment") = Some VNull) ->
    get (fold_left (clear_row k) rows h) o (k +:+ "_Control") = Some VNull /\
    get (fold_left (clear_row k) rows h) o (k +:+ "_Experiment") = Some VNull.
Proof.
  induction rows as [|o' rows IH]; intros h o Ho; simpl.
  - destruct Ho as [Ho|Ho]; [inversion Ho|exact Ho].
  - apply IH. destruct (decide (o = o')) as [->|Hne].
    + right. apply clear_row_null.
    + destruct Ho as [Ho|Ho].
      * apply elem_of_cons in Ho as [->|Ho]; [contradiction|now left].
      * right. now rewrite !clear_row_get_other.
Qed.

Lemma Some_pair_inj {A B : Type} (a a' : A) (b b' : B) :
  Some (a, b) = Some (a', b') -> a = a' /\ b = b'.
Proof. intros H. injection H as -> ->. auto. Qed.

Section HeapOfSimulation.

Variable M : MathLib.
Variables (fuel : nat) (seed : Z) (splitC splitT : number).

Lemma sim_day_modifies O k muC_pre lift (h h' : heap) acc acc' i o :
  sim_day M fuel k seed splitC splitT muC_pre lift (h, acc) (i, o)
  = Some (h', acc') ->
  o ∈ O -> modifies_only O (footprint k) h h'.
Proof.
  intros Hs Ho. unfold sim_day in Hs.
  cbv zeta in Hs. destruct (String.eqb k "DAU").
  - apply Some_pair_inj in Hs as [<- _].
    eapply modifies_only_trans; apply set_field_modifies;
      auto using footprint_control, footprint_experiment.
  - destruct (boxMuller M fuel _) as [[g1 r1]|];
      cbn [mbind option_bind] in Hs; [|discriminate].
    destruct (boxMuller M fuel r1) as [[g2 r2]|];
      cbn [mbind option_bind] in Hs; [|discriminate].
    apply Some_pair_inj in Hs as [<- _].
    eapply modifies_only_trans; apply set_field_modifies;
      auto using footprint_control, footprint_experiment.
Qed.

Lemma day_loop_modifies O k muC_pre lift (L : list (nat * loc)) :
  forall (h h' : heap) acc acc',
    foldM (sim_day M fuel k seed splitC splitT muC_pre lift) L (h, acc)
    = Some (h', acc') ->
    (forall io, io ∈ L -> io.2 ∈ O) ->
    modifies_only O (footprint k) h h'.
Proof.
  induction L as [|[i o] L IH]; intros h h' acc acc' Hf HO; cbn [foldM] in Hf.
  - injection Hf as <- _. apply modifies_only_refl.
  - destruct (sim_day M fuel k seed splitC splitT muC_pre lift (h, acc) (i, o))
      as [[h1 acc1]|] eqn:Hd; cbn [mbind option_bind] in Hf; [|discriminate].
    eapply modifies_only_trans.
    + eapply sim_day_modifies; [exact Hd|]. apply (HO (i, o)). now left.
    + eapply IH; [exact Hf|]. intros io Hio. apply HO. now right.
Qed.

(** The window of the activity-count metric: each day holds exactly
    the two cohort sizes. *)
Lemma day_loop_DAU muC_pre lift (L : list (nat * loc)) :
  forall (h h' : heap) acc acc',
    foldM (sim_day M fuel "DAU" seed splitC splitT muC_pre lift) L (h, acc)
    = Some (h', acc') ->
    NoDup (L.*2) ->
    forall i o, (i, o) ∈ L ->
      get h' o "DAU_Control"
      = Some (VNum (cohort_size (get_num h o "DAU") splitC)) /\
      get h' o "DAU_Experiment"
      = Some (VNum (cohort_size (get_num h o "DAU") splitT)).
Proof.
  induction L as [|[i0 o0] L IH]; intros h h' acc acc' Hf Hnd i o Hin.
  - inversion Hin.
  - cbn [foldM] in Hf.
    destruct (sim_day M fuel "DAU" seed splitC splitT muC_pre lift
                      (h, acc) (i0, o0)) as [[h1 acc1]|] eqn:Hd;
      cbn [mbind option_bind] in Hf; [|discriminate].
    assert (Hh1 : h1 = set_field
                    (set_field h o0 "DAU_Control"
                       (VNum (cohort_size (get_num h o0 "DAU") splitC)))
                    o0 "DAU_Experiment"
                    (VNum (cohort_size (get_num h o0 "DAU") splitT))).
    { unfold sim_day in Hd. cbv zeta in Hd.
      cbn [String.eqb Ascii.eqb Bool.eqb] in Hd.
      now apply Some_pair_inj in Hd as [<- _]. }
    cbn [fmap list_fmap snd] in Hnd. apply NoDup_cons in Hnd as [Hnin Hnd].
    apply elem_of_cons in Hin as [Heq|Hin].
    + injection Heq as -> ->.
      destruct (day_loop_modifies (L.*2) "DAU" muC_pre lift L _ _ _ _ Hf)
        as [Hfr _].
      { intros io Hio. apply list_elem_of_fmap. now exists io. }
      rewrite !(get_lookup_eq h1 h' o0) by (now apply Hfr).
      rewrite Hh1. split.
      * rewrite get_set_field_ne_field by discriminate.
        apply get_set_field_eq.
      * apply get_set_field_eq.
    + destruct (IH _ _ _ _ Hf Hnd i o Hin) as [HC HE].
      assert (Hdau : get_num h1 o "DAU" = get_num h o "DAU").
      { unfold get_num. rewrite Hh1.
        now rewrite !get_set_field_ne_field by discriminate. }
      now rewrite HC, HE, Hdau.
Qed.

End HeapOfSimulation.

(** *** Rows and their indices *)

Lemma indexed_lookup (out : list loc) i :
  indexed out !! i = pair i <$> out !! i.
Proof.
  unfold indexed. rewrite lookup_zip_with.
  destruct (out !! i) as [o|] eqn:E.
  - rewrite lookup_seq_lt by (now apply lookup_lt_Some in E). reflexivity.
  - rewrite lookup_seq_ge by (now apply lookup_ge_None in E). reflexivity.
Qed.

Lemma elem_of_window (out : list loc) start i o :
  (i, o) ∈ drop start (indexed out) <-> out !! i = Some o /\ (start <= i)%nat.
Proof.
  rewrite list_elem_of_lookup. split.
  - intros [j Hj]. rewrite lookup_drop, indexed_lookup in Hj.
    destruct (out !! (start + j)%nat) as [o'|] eqn:E; [|discriminate].
    injection Hj as <- <-. split; [exact E|lia].
  - intros [Ho Hi]. exists (i - start)%nat.
    rewrite lookup_drop, indexed_lookup.
    replace (start + (i - start))%nat with i by lia. now rewrite Ho.
Qed.

Lemma window_rows (out : list loc) start :
  (drop start (indexed out)).*2 = drop start out.
Proof.
  rewrite fmap_drop. f_equal. unfold indexed. apply snd_zip.
  now rewrite length_seq.
Qed.

Lemma NoDup_drop_list {A : Type} (l : list A) n : NoDup l -> NoDup (drop n l).
Proof.
  revert l. induction n as [|n IH]; intros l Hl; [exact Hl|].
  destruct l as [|x l]; [exact Hl|]. simpl.
  apply IH. now apply NoDup_cons in Hl as [_ Hl].
Qed.

Lemma before_window (out : list loc) start i o :
  NoDup out -> out !! i = Some o -> (i < start)%nat -> o ∉ drop start out.
Proof.
  intros Hnd Ho Hi Hin. apply list_elem_of_lookup in Hin as [j Hj].
  rewrite lookup_drop in Hj.
  pose proof (NoDup_lookup _ _ _ _ Hnd Ho Hj). lia.
Qed.

Lemma DAU_not_in_footprint k : "DAU" ∉ footprint k.
Proof.
  unfold footprint. intros H.
  apply elem_of_cons in H as [H|H];
    [|apply elem_of_cons in H as [H|H]; [|inversion H]];
    destruct k as [|c1 [|c2 [|c3 [|c4 k]]]]; discriminate H.
Qed.

Section MetricsOfSimulation.

Variable M : MathLib.
Variables (fuel : nat) (data out : list loc) (seed : Z).
Variables (splitC splitT : number) (startIndex : nat).
Variable enforceNoDecline : bool.

Hypothesis out_NoDup : NoDup out.

Let step := sim_metric M fuel data out seed splitC splitT startIndex
                       enforceNoDecline.

(** The cohort fields of the rows before the window are [null]. *)
Definition null_before_window (h : heap) (k : string) : Prop :=
  forall i o, out !! i = Some o -> (i < startIndex)%nat ->
    get h o (k +:+ "_Control") = Some VNull /\
    get h o (k +:+ "_Experiment") = Some VNull.

Lemma sim_metric_spec (h h' : heap) aggs aggs' m :
  step (h, aggs) m = Some (h', aggs') ->
  modifies_only out (footprint (key m)) h h' /\
  null_before_window h' (key m) /\
  (key m = "DAU" ->
   forall i o, out !! i = Some o -> (startIndex <= i)%nat ->
     get h' o "DAU_Control"
     = Some (VNum (cohort_size (get_num h o "DAU") splitC)) /\
     get h' o "DAU_Experiment"
     = Some (VNum (cohort_size (get_num h o "DAU") splitT))).
Proof.
  unfold step, sim_metric. cbv zeta.
  destruct (lift_used M fuel h (key m) data seed enforceNoDecline)
    as [lift|]; cbn [mbind option_bind]; [|discriminate].
  set (hc := fold_left (clear_row (key m)) out h).
  set (mu := basePerUserUntil h (key m) data startIndex).
  destruct (foldM _ (drop startIndex (indexed out)) _)
    as [[h2 acc]|] eqn:Hloop; cbn [mbind option_bind]; [|discriminate].
  intros Hs. apply Some_pair_inj in Hs as [<- _].
  assert (Hclear : modifies_only out (footprint (key m)) h hc)
    by (apply clear_rows_modifies; intros x Hx; exact Hx).
  split; [|split].
  - eapply modifies_only_trans; [exact Hclear|].
    eapply day_loop_modifies; [exact Hloop|].
    intros [i o] Hio. apply elem_of_window in Hio as [Hio _].
    apply list_elem_of_lookup. now exists i.
  - intros i o Ho Hi.
    destruct (day_loop_modifies M fuel seed splitC splitT
                ((drop startIndex (indexed out)).*2) (key m) mu lift
                _ _ _ _ _ Hloop) as [Hfr _].
    { intros io Hio. apply list_elem_of_fmap. now exists io. }
    assert (E : h2 !! o = hc !! o).
    { apply Hfr. rewrite window_rows. now apply (before_window out _ i). }
    rewrite !(get_lookup_eq hc h2 o _ E).
    apply clear_rows_null. left. apply list_elem_of_lookup. now exists i.
  - intros Hk i o Ho Hi. rewrite Hk in Hloop.
    assert (Hnd : NoDup ((drop startIndex (indexed out)).*2)).
    { rewrite window_rows. now apply NoDup_drop_list. }
    destruct (day_loop_DAU M fuel seed splitC splitT mu lift _ _ _ _ _
                Hloop Hnd i o) as [HC HE].
    { now apply elem_of_window. }
    assert (Hdau : get_num hc o "DAU" = get_num h o "DAU").
    { unfold get_num. destruct Hclear as [_ Hf]. rewrite Hf; [reflexivity|].
      apply DAU_not_in_footprint. }
    now rewrite HC, HE, Hdau.
Qed.

Lemma metrics_modifies (ms : list metric) :
  forall (h h' : heap) aggs aggs',
    foldM step ms (h, aggs) = Some (h', aggs') ->
    modifies_only out (flat_map (fun m => footprint (key m)) ms) h h'.
Proof.
  induction ms as [|m ms IH]; intros h h' aggs aggs' Hf; cbn [foldM] in Hf.
  - apply Some_pair_inj in Hf as [<- _]. apply modifies_only_refl.
  - destruct (step (h, aggs) m) as [[h1 aggs1]|] eqn:Hm;
      cbn [mbind option_bind] in Hf; [|discriminate].
    destruct (sim_metric_spec _ _ _ _ _ Hm) as (Hmod & _ & _).
    cbn [flat_map]. eapply modifies_only_trans.
    + eapply modifies_only_weaken; [|exact Hmod].
      intros x Hx. apply elem_of_app. now left.
    + eapply modifies_only_weaken; [|exact (IH _ _ _ _ Hf)].
      intros x Hx. apply elem_of_app. now right.
Qed.

Lemma metrics_null_before_window (ms : list metric) :
  forall (h h' : heap) aggs aggs',
    foldM step ms (h, aggs) = Some (h', aggs') ->
    forall m, m ∈ ms \/ null_before_window h (key m) ->
              null_before_window h' (key m).
Proof.
  induction ms as [|m' ms IH]; intros h h' aggs aggs' Hf m Hm;
    cbn [foldM] in Hf.
  - apply Some_pair_inj in Hf as [<- _].
    destruct Hm as [Hm|Hm]; [inversion Hm|exact Hm].
  - destruct (step (h, aggs) m') as [[h1 aggs1]|] eqn:Hm';
      cbn [mbind option_bind] in Hf; [|discriminate].
    destruct (sim_metric_spec _ _ _ _ _ Hm') as (Hmod & Hnull & _).
    apply (IH _ _ _ _ Hf).
    destruct Hm as [Hm|Hm].
    { apply elem_of_cons in Hm as [->|Hm]; [now right|now left]. }
    right. intros i o Ho Hi. destruct (Hnull i o Ho Hi) as [NC NE].
    destruct (Hm i o Ho Hi) as [HC HE]. destruct Hmod as [_ Hfld].
    split.
    + destruct (decide (key m +:+ "_Control" ∈ footprint (key m')))
        as [Hin|Hnin]; [|now rewrite Hfld].
      apply elem_of_cons in Hin as [->|Hin]; [exact NC|].
      apply elem_of_cons in Hin as [->|Hin]; [exact NE|inversion Hin].
    + destruct (decide (key m +:+ "_Experiment" ∈ footprint (key m')))
        as [Hin|Hnin]; [|now rewrite Hfld].
      apply elem_of_cons in Hin as [->|Hin]; [exact NC|].
      apply elem_of_cons in Hin as [->|Hin]; [exact NE|inversion Hin].
Qed.

End MetricsOfSimulation.

(** ** More rounds never change a result

    A computation that ends within [fuel] rounds of the redraw loops
    gives the same result within any larger bound. *)

Lemma draw_nonzero_S fuel s :
  draw_nonzero (S fuel) s
  = if strict_eq (rand s).1 pos_zero then draw_nonzero fuel (rand s).2
    else Some (rand s).
Proof.
  cbn [draw_nonzero]. generalize (rand s). intros [u s']. reflexivity.
Qed.

Lemma draw_nonzero_more fuel : forall fuel' s r,
  (fuel <= fuel')%nat -> draw_nonzero fuel s = Some r ->
  draw_nonzero fuel' s = Some r.
Proof.
  induction fuel as [|fuel IH]; intros fuel' s r Hle H; [discriminate|].
  destruct fuel' as [|fuel']; [lia|]. rewrite draw_nonzero_S in *.
  destruct (strict_eq (rand s).1 pos_zero); [|exact H].
  apply IH; [lia|exact H].
Qed.

Lemma foldM_ext {A B : Type} (f g : A -> B -> option A) (l : list B) :
  (forall a x r, f a x = Some r -> g a x = Some r) ->
  forall a r, foldM f l a = Some r -> foldM g l a = Some r.
Proof.
  intros Hfg. induction l as [|x l IH]; intros a r H; [exact H|].
  cbn [foldM] in *. destruct (f a x) as [a'|] eqn:E;
    cbn [mbind option_bind] in H; [|discriminate].
  rewrite (Hfg _ _ _ E). cbn [mbind option_bind]. now apply IH.
Qed.

Section MoreFuel.

Variable M : MathLib.
Variables fuel fuel' : nat.
Hypothesis fuel_le : (fuel <= fuel')%nat.

Lemma boxMuller_more s r :
  boxMuller M fuel s = Some r -> boxMuller M fuel' s = Some r.
Proof.
  unfold boxMuller. intros H.
  destruct (draw_nonzero fuel s) as [[u s1]|] eqn:E1;
    cbn [mbind option_bind] in H; [|discriminate].
  rewrite (draw_nonzero_more _ _ _ _ fuel_le E1). cbn [mbind option_bind].
  destruct (draw_nonzero fuel s1) as [[v s2]|] eqn:E2;
    cbn [mbind option_bind] in H; [|discriminate].
  rewrite (draw_nonzero_more _ _ _ _ fuel_le E2). exact H.
Qed.

Lemma lift_used_more (h : heap) k data seed enforce r :
  lift_used M fuel h k data seed enforce = Some r ->
  lift_used M fuel' h k data seed enforce = Some r.
Proof.
  unfold lift_used, deriveDataDrivenLift. intros H.
  destruct (boxMuller M fuel _) as [[g s]|] eqn:E;
    cbn [mbind option_bind] in H; [|discriminate].
  rewrite (boxMuller_more _ _ E). exact H.
Qed.

Lemma sim_day_more k seed splitC splitT mu lift st io r :
  sim_day M fuel k seed splitC splitT mu lift st io = Some r ->
  sim_day M fuel' k seed splitC splitT mu lift st io = Some r.
Proof.
  unfold sim_day. destruct st as [h acc], io as [i o]. cbv zeta.
  destruct (String.eqb k "DAU"); [auto|]. intros H.
  destruct (boxMuller M fuel _) as [[g1 r1]|] eqn:E1;
    cbn [mbind option_bind] in H; [|discriminate].
  rewrite (boxMuller_more _ _ E1). cbn [mbind option_bind].
  destruct (boxMuller M fuel r1) as [[g2 r2]|] eqn:E2;
    cbn [mbind option_bind] in H; [|discriminate].
  rewrite (boxMuller_more _ _ E2). exact H.
Qed.

Lemma sim_metric_more data out seed splitC splitT start enforce st m r :
  sim_metric M fuel data out seed splitC splitT start enforce st m = Some r ->
  sim_metric M fuel' data out seed splitC splitT start enforce st m = Some r.
Proof.
  unfold sim_metric. destruct st as [h aggs]. cbv zeta. intros H.
  destruct (lift_used M fuel h (key m) data seed enforce) as [lift|] eqn:E1;
    cbn [mbind option_bind] in H; [|discriminate].
  rewrite (lift_used_more _ _ _ _ _ _ E1). cbn [mbind option_bind].
  destruct (foldM (sim_day M fuel _ _ _ _ _ _) _ _) as [[h2 acc]|] eqn:E2;
    cbn [mbind option_bind] in H; [|discriminate].
  rewrite (foldM_ext _ _ _ (sim_day_more _ _ _ _ _ _) _ _ E2). exact H.
Qed.

Lemma simulateAB_more (h : heap) data seed splitC splitT testLen enforce r :
  simulateAB M fuel h data seed splitC splitT testLen enforce = Some r ->
  simulateAB M fuel' h data seed splitC splitT testLen enforce = Some r.
Proof.
  unfold simulateAB. cbv zeta. destruct (copy_rows h data) as [h1 out].
  intros H.
  destruct (foldM (sim_metric M fuel _ _ _ _ _ _ _) _ _)
    as [[h2 aggs]|] eqn:E; cbn [mbind option_bind] in H; [|discriminate].
  rewrite (foldM_ext _ _ _ (sim_metric_more _ _ _ _ _ _ _) _ _ E). exact H.
Qed.

End MoreFuel.

(** Two runs on the same inputs agree, whatever their bounds. *)
Lemma simulateAB_deterministic M fuel1 fuel2 (h : heap) data seed splitC splitT
  testLen enforce r1 r2 :
  simulateAB M fuel1 h data seed splitC splitT testLen enforce = Some r1 ->
  simulateAB M fuel2 h data seed splitC splitT testLen enforce = Some r2 ->
  r1 = r2.
Proof.
  intros H1 H2.
  apply (simulateAB_more M fuel1 (Nat.max fuel1 fuel2)) in H1; [|lia].
  apply (simulateAB_more M fuel2 (Nat.max fuel1 fuel2)) in H2; [|lia].
  congruence.
Qed.

(** ** [simulateAB] and its input *)

Lemma baseline_fields_not_written :
  Forall (fun f => f ∉ written_fields)
         ("date" :: "label" :: map key METRICS).
Proof. apply (bool_decide_unpack _). vm_compute. exact I. Qed.

(** C10.  A call of [simulateAB] changes no object that existed before
    it, so neither the series nor its records; the returned rows are
    new, distinct objects, as many as the records; and in the row of a
    record every field other than the per-metric [_Control] and
    [_Experiment] fields has the record's value, the date and every
    baseline metric among them. *)
Theorem simulateAB_preserves_input (M : MathLib) (fuel : nat) (h h' : heap)
  (data : list loc) (seed : Z) (splitC splitT : number) (testLen : Z)
  (enforceNoDecline : bool) (res : sim_result) :
  simulateAB M fuel h data seed splitC splitT testLen enforceNoDecline
  = Some (h', res) ->
  (forall l, l ∈ dom h -> h' !! l = h !! l) /\
  length (simData res) = length data /\
  NoDup (simData res) /\
  (forall o, o ∈ simData res -> o ∉ dom h) /\
  (forall i row o f,
     data !! i = Some row -> row ∈ dom h -> simData res !! i = Some o ->
     f ∉ written_fields -> get h' o f = get h row f) /\
  Forall (fun f => f ∉ written_fields) ("date" :: "label" :: map key METRICS).
Proof.
  unfold simulateAB. cbv zeta.
  destruct (copy_rows h data) as [h1 out] eqn:Hcopy.
  destruct (foldM _ METRICS _) as [[h2 aggs]|] eqn:Hfold;
    cbn [mbind option_bind]; [|discriminate].
  intros H. apply Some_pair_inj in H as [<- <-]. cbn [simData].
  destruct (copy_rows_spec _ _ _ _ Hcopy) as (Hlen & Hnd & Hout & Hfr & Hrows).
  destruct (metrics_modifies _ _ _ _ _ _ _ _ _ Hnd _ _ _ _ _ Hfold)
    as [Hloc Hfld].
  split.
  { intros l Hl. destruct (Hfr l Hl) as [E _]. rewrite <- E. apply Hloc.
    intros Hin. now apply Hout in Hin as [Hin _]. }
  split; [exact Hlen|]. split; [exact Hnd|].
  split; [intros o Ho; now apply Hout|].
  split; [|exact baseline_fields_not_written].
  intros i row o f Hi Hrow Ho Hf.
  rewrite (Hfld o f Hf). unfold get.
  now rewrite (lookup_total_correct _ _ _ (Hrows i row o Hi Ho Hrow)).
Qed.

(** On the example series the call returns, for a window of two days. *)
Lemma simulateAB_example_returns :
  is_Some (simulateAB RefMath.lib 1 example_heap example_data 42
                      (dec 5 1) (dec 5 1) 2 true).
Proof. apply (bool_decide_unpack _). vm_compute. exact I. Qed.

Lemma simulateAB_preserves_input_witness :
  exists h' res,
    simulateAB RefMath.lib 1 example_heap example_data 42
               (dec 5 1) (dec 5 1) 2 true = Some (h', res) /\
    forall l, l ∈ dom example_heap -> h' !! l = example_heap !! l.
Proof.
  destruct simulateAB_example_returns as [[h' res] E].
  exists h', res. split; [exact E|].
  exact (proj1 (simulateAB_preserves_input _ _ _ _ _ _ _ _ _ _ _ E)).
Defined.

(** ** The lift of a guardrail metric *)

Lemma has_sign_not_NaN s x : has_sign s x -> isNaN x = false.
Proof. destruct x; simpl; auto; contradiction. Qed.

Lemma binary_normalize_not_NaN m e sz :
  isNaN (binary_normalize prec emax m e sz) = false.
Proof.
  destruct m as [|p|p]; [reflexivity| |];
    exact (has_sign_not_NaN _ _ (binary_round_sign _ _ _)).
Qed.

Lemma mul_finite_not_NaN s m e y :
  isNaN y = false -> isNaN (S754_finite s m e * y)%num = false.
Proof.
  destruct y as [s'|s'| |s' m' e']; try reflexivity; try discriminate.
  intros _. unfold mul, SFmul.
  apply (has_sign_not_NaN (xorb s s')), binary_round_aux_sign. lia.
Qed.

Lemma add_finite_not_NaN s m e y :
  isNaN y = false -> isNaN (S754_finite s m e + y)%num = false.
Proof.
  destruct y as [s'|s'| |s' m' e']; try reflexivity; try discriminate.
  intros _. unfold add, SFadd. apply binary_normalize_not_NaN.
Qed.

Lemma Some_eq_inj {A : Type} (a b : A) : Some a = Some b -> a = b.
Proof. intros H. now injection H. Qed.

Lemma clamp_NaN x lo hi :
  isNaN (clamp x lo hi) = isNaN lo || (isNaN hi || isNaN x).
Proof. unfold clamp. now rewrite Math_max_NaN, Math_min_NaN. Qed.

Lemma Math_max_zero_not_negative x : lt (Math_max pos_zero x) pos_zero = false.
Proof.
  destruct (Math_max_zero_shape x) as [H| ->]; [|reflexivity].
  destruct (Math_max pos_zero x) as [[]|[]| |[] m e]; simpl in H;
    try discriminate; try contradiction; reflexivity.
Qed.

Lemma Math_max_zero_ge x :
  isNaN x = false -> le pos_zero (Math_max pos_zero x) = true.
Proof. intros H. now apply Math_max_ge_l. Qed.

(** * Rounding

    What follows relates [binary_round_aux], the rounding step shared
    by all arithmetic operations, to integer arithmetic, and derives
    that the operations are monotone on valid numbers. *)

(** Linear arithmetic with division and remainder by constants. *)
Ltac Zify.zify_post_hook ::= Z.to_euclidean_division_equations.

(** ** Digits *)

Lemma Zdigits2_log2 p : Zdigits2 (Zpos p) = Z.log2 (Zpos p) + 1.
Proof.
  assert (H : forall q, digits2_pos q = Pos.size q).
  { induction q as [q IH|q IH|]; simpl; auto; now rewrite IH. }
  destruct p as [p|p|]; simpl; rewrite ?H; try reflexivity; lia.
Qed.

Lemma digits_bounds m :
  0 < m -> 2 ^ (Zdigits2 m - 1) <= m < 2 ^ Zdigits2 m.
Proof.
  intros H. destruct m as [|p|p]; try lia. rewrite Zdigits2_log2.
  replace (Z.log2 (Zpos p) + 1 - 1) with (Z.log2 (Zpos p)) by lia.
  apply Z.log2_spec. lia.
Qed.

Lemma digits_nonneg m : 0 <= Zdigits2 m.
Proof. destruct m; simpl; lia. Qed.

Lemma digits_pos m : 0 < m -> 1 <= Zdigits2 m.
Proof. destruct m; simpl; lia. Qed.

Lemma digits_mono a b : 0 <= a <= b -> Zdigits2 a <= Zdigits2 b.
Proof.
  intros [Ha Hab]. destruct a as [|p|p]; try lia.
  - apply digits_nonneg.
  - destruct b as [|q|q]; try lia. rewrite !Zdigits2_log2.
    apply Z.add_le_mono_r, Z.log2_le_mono. lia.
Qed.

Lemma digits_unique m d :
  1 <= d -> 2 ^ (d - 1) <= m < 2 ^ d -> Zdigits2 m = d.
Proof.
  intros Hd Hm.
  assert (0 < m) by (pose proof (Z.pow_pos_nonneg 2 (d - 1)); lia).
  destruct m as [|p|p]; try lia. rewrite Zdigits2_log2.
  rewrite (Z.log2_unique (Zpos p) (d - 1)); try lia.
  replace (Z.succ (d - 1)) with d by lia. exact Hm.
Qed.

Lemma digits_lt_pow m d : 0 <= m -> 0 <= d -> m < 2 ^ d -> Zdigits2 m <= d.
Proof.
  intros Hm Hd H. destruct (Z.eq_dec m 0) as [->|Hne]; [simpl; lia|].
  destruct (Z.le_gt_cases (Zdigits2 m) d) as [Hle|Hgt]; [exact Hle|].
  pose proof (digits_bounds m ltac:(lia)) as [Hlo _].
  assert (2 ^ d <= 2 ^ (Zdigits2 m - 1)) by (apply Z.pow_le_mono_r; lia).
  lia.
Qed.

Lemma digits_ge_pow m d : 0 <= d -> 2 ^ d <= m -> d + 1 <= Zdigits2 m.
Proof.
  intros Hd H.
  assert (0 < m) by (pose proof (Z.pow_pos_nonneg 2 d); lia).
  destruct (Z.le_gt_cases (d + 1) (Zdigits2 m)) as [Hle|Hgt]; [exact Hle|].
  pose proof (digits_bounds m ltac:(lia)) as [_ Hhi].
  assert (2 ^ Zdigits2 m <= 2 ^ d)
    by (apply Z.pow_le_mono_r; pose proof (digits_nonneg m); lia).
  lia.
Qed.

(** ** Round and sticky bits as one integer

    A mantissa [m] with its location is the integer [4 m + t]: twice the
    number of half units, plus one when the value is not a whole number
    of half units. *)

Definition loc_bits (l : location) : Z :=
  match l with
  | loc_Exact => 0
  | loc_Inexact Lt => 1
  | loc_Inexact Eq => 2
  | loc_Inexact Gt => 3
  end.

Definition code (m : Z) (l : location) : Z := 4 * m + loc_bits l.

Definition rec_code (mrs : shr_record) : Z :=
  4 * shr_m mrs + (if shr_r mrs then 2 else 0) + (if shr_s mrs then 1 else 0).

(** [n] right shifts that keep a sticky bit. *)
Definition sticky (n c : Z) : Z :=
  2 * (c / 2 ^ (n + 1)) + (if c mod 2 ^ (n + 1) =? 0 then 0 else 1).

(** Round to nearest, ties to even. *)
Definition rne (c : Z) : Z :=
  if c mod 4 <? 2 then c / 4
  else if c mod 4 =? 2 then (if Z.even (c / 4) then c / 4 else c / 4 + 1)
  else c / 4 + 1.

Lemma rec_code_of_loc m l : rec_code (shr_record_of_loc m l) = code m l.
Proof. destruct l as [|[]]; unfold rec_code, code; simpl; lia. Qed.

Lemma code_of_rec mrs :
  code (shr_m mrs) (loc_of_shr_record mrs) = rec_code mrs.
Proof. destruct mrs as [m [] []]; unfold rec_code, code; simpl; lia. Qed.

Lemma loc_bits_range l : 0 <= loc_bits l < 4.
Proof. destruct l as [|[]]; simpl; lia. Qed.

Lemma code_div m l : code m l / 4 = m.
Proof. unfold code. pose proof (loc_bits_range l). lia. Qed.

Lemma code_mod m l : code m l mod 4 = loc_bits l.
Proof. unfold code. pose proof (loc_bits_range l). lia. Qed.

Lemma rne_code m l : round_nearest_even m l = rne (code m l).
Proof.
  unfold rne. rewrite code_div, code_mod.
  destruct l as [|[]]; reflexivity.
Qed.

Lemma rne_mono c1 c2 : c1 <= c2 -> rne c1 <= rne c2.
Proof.
  intros H. unfold rne.
  destruct (Z.ltb_spec (c1 mod 4) 2), (Z.ltb_spec (c2 mod 4) 2);
    destruct (Z.eqb_spec (c1 mod 4) 2), (Z.eqb_spec (c2 mod 4) 2);
    destruct (Z.even (c1 / 4)) eqn:E1, (Z.even (c2 / 4)) eqn:E2;
    try lia;
    (destruct (Z.eq_dec (c1 / 4) (c2 / 4)) as [E|E];
     [rewrite E in E1; congruence || lia | lia]).
Qed.

Lemma rne_bounds c : c / 4 <= rne c <= c / 4 + 1.
Proof.
  unfold rne. destruct (c mod 4 <? 2), (c mod 4 =? 2), (Z.even (c / 4)); lia.
Qed.

Lemma rne_exact m : rne (4 * m) = m.
Proof.
  unfold rne. replace (4 * m mod 4) with 0 by lia.
  simpl. lia.
Qed.

Lemma sticky_0 c : sticky 0 c = c.
Proof.
  unfold sticky. change (2 ^ (0 + 1)) with 2.
  destruct (Z.eqb_spec (c mod 2) 0); lia.
Qed.

Lemma sticky_step n c :
  0 <= n -> sticky 1 (sticky n c) = sticky (n + 1) c.
Proof.
  intros Hn. unfold sticky.
  replace (2 ^ (n + 1 + 1)) with (2 ^ (n + 1) * 2)
    by (rewrite (Z.pow_add_r 2 (n + 1) 1); lia).
  change (2 ^ (1 + 1)) with 4.
  assert (Hp : 0 < 2 ^ (n + 1)) by (apply Z.pow_pos_nonneg; lia).
  rewrite <- Z.div_div by lia.
  rewrite Z.rem_mul_r by lia.
  set (q := c / 2 ^ (n + 1)). set (r := c mod 2 ^ (n + 1)).
  assert (Hr : 0 <= r < 2 ^ (n + 1)) by (apply Z.mod_pos_bound; lia).
  destruct (Z.eqb_spec r 0) as [Hr0|Hr0].
  - rewrite Hr0. destruct (Z.eqb_spec ((2 * q + 0) mod 4) 0),
                          (Z.eqb_spec (0 + 2 ^ (n + 1) * (q mod 2)) 0); nia.
  - destruct (Z.eqb_spec ((2 * q + 1) mod 4) 0),
             (Z.eqb_spec (r + 2 ^ (n + 1) * (q mod 2)) 0); nia.
Qed.

Lemma sticky_nonneg n c : 0 <= n -> 0 <= c -> 0 <= sticky n c.
Proof.
  intros Hn Hc. unfold sticky.
  assert (0 < 2 ^ (n + 1)) by (apply Z.pow_pos_nonneg; lia).
  assert (0 <= c / 2 ^ (n + 1)) by (apply Z.div_pos; lia).
  destruct (_ =? 0); lia.
Qed.

Lemma sticky_div4 n c : 0 <= n -> sticky n c / 4 = c / 4 / 2 ^ n.
Proof.
  intros Hn. unfold sticky.
  assert (0 < 2 ^ n) by (apply Z.pow_pos_nonneg; lia).
  replace (2 ^ (n + 1)) with (2 * 2 ^ n) by (rewrite Z.pow_add_r; lia).
  rewrite Z.div_div by lia.
  replace (4 * 2 ^ n) with (2 * 2 ^ n * 2) by lia.
  rewrite <- (Z.div_div c (2 * 2 ^ n) 2) by lia.
  destruct (_ =? 0); lia.
Qed.

Lemma sticky_mono n c1 c2 :
  0 <= n -> c1 <= c2 -> sticky n c1 <= sticky n c2.
Proof.
  intros Hn H. unfold sticky.
  assert (Hp : 0 < 2 ^ (n + 1)) by (apply Z.pow_pos_nonneg; lia).
  pose proof (Z.div_le_mono c1 c2 _ Hp H) as Hd.
  pose proof (Z.div_mod c1 (2 ^ (n + 1)) ltac:(lia)).
  pose proof (Z.div_mod c2 (2 ^ (n + 1)) ltac:(lia)).
  pose proof (Z.mod_pos_bound c1 _ Hp). pose proof (Z.mod_pos_bound c2 _ Hp).
  destruct (Z.eqb_spec (c1 mod 2 ^ (n + 1)) 0),
           (Z.eqb_spec (c2 mod 2 ^ (n + 1)) 0); try lia.
  destruct (Z.eq_dec (c1 / 2 ^ (n + 1)) (c2 / 2 ^ (n + 1))); nia.
Qed.

(** ** The shifts of [binary_round_aux] *)

Lemma iter_pos_nat {A : Type} (f : A -> A) p :
  forall x, SpecFloat.iter_pos f p x = Nat.iter (Pos.to_nat p) f x.
Proof.
  induction p as [p IH|p IH|]; intros x; simpl SpecFloat.iter_pos.
  - rewrite !IH, Pos2Nat.inj_xI.
    replace (S (2 * Pos.to_nat p)) with (Pos.to_nat p + S (Pos.to_nat p))%nat
      by lia.
    rewrite Nat.iter_add, Nat.iter_succ_r. reflexivity.
  - rewrite !IH, Pos2Nat.inj_xO.
    replace (2 * Pos.to_nat p)%nat with (Pos.to_nat p + Pos.to_nat p)%nat
      by lia.
    now rewrite Nat.iter_add.
  - reflexivity.
Qed.

Lemma shr_1_code mrs :
  0 <= shr_m mrs ->
  rec_code (shr_1 mrs) = sticky 1 (rec_code mrs) /\ 0 <= shr_m (shr_1 mrs).
Proof.
  destruct mrs as [m r s]. unfold rec_code, sticky. simpl shr_m.
  change (2 ^ (1 + 1)) with 4. intros Hm.
  destruct m as [|[p|p|]|p]; try lia; destruct r, s;
    cbn [shr_1 shr_m shr_r shr_s orb];
    match goal with
    | |- context [?x mod 4 =? 0] => destruct (Z.eqb_spec (x mod 4) 0)
    end; split; lia.
Qed.

Lemma iter_shr_1_code n mrs :
  0 <= shr_m mrs ->
  rec_code (Nat.iter n shr_1 mrs) = sticky (Z.of_nat n) (rec_code mrs) /\
  0 <= shr_m (Nat.iter n shr_1 mrs).
Proof.
  intros Hm. induction n as [|n [IH1 IH2]].
  - simpl. now rewrite sticky_0.
  - rewrite Nat.iter_succ. destruct (shr_1_code _ IH2) as [E1 E2].
    split; [|exact E2].
    rewrite E1, IH1, sticky_step by lia. f_equal. lia.
Qed.

Lemma shr_code mrs e n :
  0 <= shr_m mrs -> 0 <= n ->
  rec_code (fst (shr mrs e n)) = sticky n (rec_code mrs) /\
  0 <= shr_m (fst (shr mrs e n)) /\
  snd (shr mrs e n) = e + n.
Proof.
  intros Hm Hn. destruct n as [|p|p]; try lia; simpl.
  - rewrite sticky_0. repeat split; lia.
  - rewrite iter_pos_nat.
    destruct (iter_shr_1_code (Pos.to_nat p) mrs Hm) as [E1 E2].
    rewrite E1, positive_nat_Z. repeat split; auto.
Qed.

(** ** [binary_round_aux] in integer arithmetic *)

Definition two_prec : Z := 2 ^ prec.

(** The mantissa and exponent [binary_round_aux] arrives at, from the
    coded mantissa [c] at exponent [e]. *)
Definition round_fin (c e : Z) : Z * Z :=
  let E := fexp prec emax (Zdigits2 (c / 4) + e) in
  let r := rne (sticky (E - e) c) in
  if r =? two_prec then (2 ^ (prec - 1), E + 1) else (r, E).

Definition finalize (s : bool) (me : Z * Z) : number :=
  match fst me with
  | 0 => S754_zero s
  | Zpos m =>
    if snd me <=? emax - prec then S754_finite s m (snd me)
    else S754_infinity s
  | Zneg _ => S754_nan
  end.

Lemma fexp_ge_emin z : emin prec emax <= fexp prec emax z.
Proof. unfold fexp. lia. Qed.

Lemma fexp_mono a b : a <= b -> fexp prec emax a <= fexp prec emax b.
Proof. unfold fexp. lia. Qed.

(** After the first shift the mantissa has at most [prec] digits. *)
Lemma shifted_mantissa_bound m e :
  0 <= m ->
  let E := fexp prec emax (Zdigits2 m + e) in
  e <= E -> m / 2 ^ (E - e) < two_prec.
Proof.
  intros Hm E HE.
  assert (Hp : 0 < 2 ^ (E - e)) by (apply Z.pow_pos_nonneg; lia).
  apply Z.div_lt_upper_bound; [exact Hp|].
  destruct (Z.eq_dec m 0) as [->|Hne].
  { unfold two_prec. change (2 ^ prec) with 9007199254740992. lia. }
  pose proof (digits_bounds m ltac:(lia)) as [_ Hhi].
  assert (Hd : Zdigits2 m <= E - e + prec) by (unfold E, fexp; lia).
  assert (2 ^ Zdigits2 m <= 2 ^ (E - e + prec))
    by (apply Z.pow_le_mono_r; lia).
  unfold two_prec. rewrite <- Z.pow_add_r by (unfold prec in *; lia).
  lia.
Qed.

Lemma second_shift r E :
  0 <= r <= two_prec -> emin prec emax <= E ->
  let res := shr_fexp prec emax r E loc_Exact in
  (shr_m (fst res), snd res)
  = if r =? two_prec then (2 ^ (prec - 1), E + 1) else (r, E).
Proof.
  intros Hr HE. unfold shr_fexp. cbn [shr_record_of_loc].
  destruct (Z.eqb_spec r two_prec) as [->|Hne].
  - vm_compute (Zdigits2 two_prec).
    replace (fexp prec emax (54 + E) - E) with 1
      by (unfold fexp, emin, prec, emax in *; lia).
    reflexivity.
  - assert (Hd : Zdigits2 r <= prec).
    { apply digits_lt_pow; unfold prec; try lia. fold prec. fold two_prec. lia. }
    assert (Hn : fexp prec emax (Zdigits2 r + E) - E <= 0)
      by (unfold fexp, emin, prec, emax in *; lia).
    destruct (fexp prec emax (Zdigits2 r + E) - E) as [|p|p] eqn:En;
      try lia; reflexivity.
Qed.

Lemma binary_round_aux_spec s m e l :
  0 <= m -> e <= fexp prec emax (Zdigits2 m + e) ->
  binary_round_aux prec emax s m e l = finalize s (round_fin (code m l) e).
Proof.
  intros Hm He. unfold binary_round_aux, round_fin. rewrite code_div.
  set (E := fexp prec emax (Zdigits2 m + e)) in *.
  assert (Hs : shr_fexp prec emax m e l
               = shr (shr_record_of_loc m l) e (E - e)) by reflexivity.
  rewrite Hs. clear Hs.
  assert (Hrec : 0 <= shr_m (shr_record_of_loc m l))
    by (destruct l as [|[]]; exact Hm).
  destruct (shr_code (shr_record_of_loc m l) e (E - e) Hrec ltac:(lia))
    as (Hc & Hm' & He').
  destruct (shr (shr_record_of_loc m l) e (E - e)) as [mrs' e'].
  cbn [fst snd] in Hc, Hm', He'. rewrite rec_code_of_loc in Hc.
  rewrite rne_code, code_of_rec, Hc.
  replace e' with E by lia.
  set (r := rne (sticky (E - e) (code m l))).
  assert (Hr : 0 <= r <= two_prec).
  { pose proof (rne_bounds (sticky (E - e) (code m l))) as Hb. fold r in Hb.
    rewrite sticky_div4, code_div in Hb by lia.
    pose proof (shifted_mantissa_bound m e Hm He) as Hlt. fold E in Hlt.
    assert (0 <= m / 2 ^ (E - e))
      by (apply Z.div_pos; [lia|apply Z.pow_pos_nonneg; lia]).
    lia. }
  pose proof (second_shift r E Hr (fexp_ge_emin _)) as H2.
  cbv zeta in H2.
  destruct (shr_fexp prec emax r E loc_Exact) as [mrs'' e''].
  cbn [fst snd] in H2. unfold finalize.
  destruct (r =? two_prec); injection H2 as -> ->; reflexivity.
Qed.

(** ** Coded fractions

    The code of the non-negative fraction [N / D]. *)

Definition frac_code (N D : Z) : Z :=
  2 * (2 * N / D) + (if (2 * N) mod D =? 0 then 0 else 1).

Lemma frac_code_mono N1 D1 N2 D2 :
  0 < D1 -> 0 < D2 -> N1 * D2 <= N2 * D1 ->
  frac_code N1 D1 <= frac_code N2 D2.
Proof.
  intros H1 H2 H. unfold frac_code.
  pose proof (Z.div_mod (2 * N1) D1 ltac:(lia)) as E1.
  pose proof (Z.div_mod (2 * N2) D2 ltac:(lia)) as E2.
  pose proof (Z.mod_pos_bound (2 * N1) D1 H1) as B1.
  pose proof (Z.mod_pos_bound (2 * N2) D2 H2) as B2.
  set (q1 := 2 * N1 / D1) in *. set (r1 := (2 * N1) mod D1) in *.
  set (q2 := 2 * N2 / D2) in *. set (r2 := (2 * N2) mod D2) in *.
  assert (Hq : q1 <= q2).
  { destruct (Z.le_gt_cases q1 q2) as [Hle|Hgt]; [exact Hle|exfalso].
    assert (D1 * (q2 + 1) <= D1 * q1) by (apply Z.mul_le_mono_nonneg_l; lia).
    nia. }
  destruct (Z.eqb_spec r1 0), (Z.eqb_spec r2 0); try lia.
  destruct (Z.eq_dec q1 q2) as [Eq|Ne]; [exfalso; nia|lia].
Qed.

Lemma frac_code_div4 N D : 0 < D -> frac_code N D / 4 = N / D.
Proof.
  intros HD. unfold frac_code.
  assert (E : N / D = 2 * N / D / 2).
  { rewrite Z.div_div by lia. rewrite (Z.mul_comm D 2).
    now rewrite Z.div_mul_cancel_l by lia. }
  rewrite E. destruct (_ =? 0); lia.
Qed.

Lemma frac_code_sticky N D n :
  0 < D -> 0 <= n -> sticky n (frac_code N D) = frac_code N (D * 2 ^ n).
Proof.
  intros HD Hn. unfold sticky, frac_code.
  assert (Hp : 0 < 2 ^ n) by (apply Z.pow_pos_nonneg; lia).
  replace (2 ^ (n + 1)) with (2 * 2 ^ n) by (rewrite Z.pow_add_r; lia).
  rewrite <- (Z.div_div (2 * N) D (2 ^ n)) by lia.
  rewrite (Z.rem_mul_r (2 * N) D (2 ^ n)) by lia.
  set (h := 2 * N / D). set (r := (2 * N) mod D).
  assert (Hr : 0 <= r < D) by (apply Z.mod_pos_bound; lia).
  pose proof (Z.mod_pos_bound h (2 ^ n) Hp) as Hh.
  pose proof (Z.div_mod h (2 ^ n) ltac:(lia)) as Eh.
  set (hq := h / 2 ^ n) in *. set (hr := h mod 2 ^ n) in *.
  destruct (Z.eqb_spec r 0) as [Hr0|Hr0].
  - replace (2 * h + 0) with (2 * hr + hq * (2 * 2 ^ n)) by lia.
    rewrite Z.div_add, Z.mod_add by lia.
    rewrite (Z.div_small (2 * hr)), (Z.mod_small (2 * hr)) by lia.
    rewrite Hr0.
    destruct (Z.eqb_spec (2 * hr) 0), (Z.eqb_spec (0 + D * hr) 0); nia.
  - replace (2 * h + 1) with (2 * hr + 1 + hq * (2 * 2 ^ n)) by lia.
    rewrite Z.div_add, Z.mod_add by lia.
    rewrite (Z.div_small (2 * hr + 1)), (Z.mod_small (2 * hr + 1)) by lia.
    destruct (Z.eqb_spec (2 * hr + 1) 0), (Z.eqb_spec (r + D * hr) 0); nia.
Qed.

Lemma frac_code_exact m : frac_code m 1 = code m loc_Exact.
Proof.
  unfold frac_code, code. rewrite Z.div_1_r, Z.mod_1_r. simpl. lia.
Qed.

(** ** Powers of two as reals *)

Local Open Scope R_scope.

Definition pow2 (e : Z) : R := powerRZ 2 e.

Lemma pow2_pos e : 0 < pow2 e.
Proof. apply powerRZ_lt. lra. Qed.

Lemma pow2_add a b : pow2 (a + b) = pow2 a * pow2 b.
Proof. apply powerRZ_add. lra. Qed.

Lemma pow2_IZR k : (0 <= k)%Z -> pow2 k = IZR (2 ^ k).
Proof.
  intros Hk. unfold pow2. destruct k as [|p|p]; try lia.
  - simpl. reflexivity.
  - now rewrite <- Zpower_pos_powerRZ.
Qed.

Lemma pow2_le a b : (a <= b)%Z -> pow2 a <= pow2 b.
Proof.
  intros H. replace b with (a + (b - a))%Z by lia. rewrite pow2_add.
  rewrite <- (Rmult_1_r (pow2 a)) at 1.
  apply Rmult_le_compat_l; [left; apply pow2_pos|].
  rewrite pow2_IZR by lia. apply IZR_le.
  pose proof (Z.pow_pos_nonneg 2 (b - a)). lia.
Qed.

Lemma pow2_lt_inv a b : pow2 a < pow2 b -> (a < b)%Z.
Proof.
  intros H. destruct (Z.lt_ge_cases a b) as [Hlt|Hge]; [exact Hlt|].
  pose proof (pow2_le b a Hge). lra.
Qed.

(** The real value of a fraction at an exponent, and of a mantissa. *)
Definition tval (N D e : Z) : R := IZR N / IZR D * pow2 e.

Local Close Scope R_scope.

(** ** The result of rounding *)

Lemma round_fin_facts c e :
  0 <= c ->
  let E := fexp prec emax (Zdigits2 (c / 4) + e) in
  let r := rne (sticky (E - e) c) in
  e <= E ->
  0 <= r <= two_prec /\
  (emin prec emax < E -> 2 ^ (prec - 1) <= r) /\
  (c / 4 = 0 -> E = emin prec emax).
Proof.
  intros Hc E r He.
  assert (Hm : 0 <= c / 4) by lia.
  pose proof (rne_bounds (sticky (E - e) c)) as Hb. fold r in Hb.
  rewrite sticky_div4 in Hb by lia.
  pose proof (shifted_mantissa_bound (c / 4) e Hm He) as Hlt. fold E in Hlt.
  assert (Hp : 0 < 2 ^ (E - e)) by (apply Z.pow_pos_nonneg; lia).
  assert (0 <= c / 4 / 2 ^ (E - e)) by (apply Z.div_pos; lia).
  split; [lia|]. split.
  - intros HE.
    assert (Hd : Zdigits2 (c / 4) = E - e + prec)
      by (unfold E, fexp in *; lia).
    assert (Hpos : 0 < c / 4).
    { destruct (Z.eq_dec (c / 4) 0) as [E0|]; [|lia].
      rewrite E0 in Hd. simpl in Hd. unfold prec in Hd. lia. }
    pose proof (digits_bounds _ Hpos) as [Hlo _].
    rewrite Hd in Hlo.
    replace (E - e + prec - 1) with (prec - 1 + (E - e)) in Hlo by lia.
    rewrite Z.pow_add_r in Hlo by (unfold prec; lia).
    assert (2 ^ (prec - 1) <= c / 4 / 2 ^ (E - e))
      by (apply Z.div_le_lower_bound; lia).
    lia.
  - intros E0. unfold E in *. rewrite E0 in *. simpl Zdigits2 in *.
    unfold fexp, prec in *. lia.
Qed.

Lemma finalize_le r1 E1 r2 E2 :
  0 <= r1 -> 0 <= r2 ->
  r1 = 0 \/ (0 < r2 /\ (E1 < E2 \/ (E1 = E2 /\ r1 <= r2))) ->
  le (finalize false (r1, E1)) (finalize false (r2, E2)) = true.
Proof.
  intros H1 H2 H. unfold finalize. cbn [fst snd].
  destruct r1 as [|p1|p1]; try lia.
  - destruct r2 as [|p2|p2]; try lia; [reflexivity|].
    destruct (E2 <=? emax - prec); reflexivity.
  - destruct H as [H|(Hr2 & H)]; [discriminate|].
    destruct r2 as [|p2|p2]; try lia.
    destruct (Z.leb_spec E1 (emax - prec)), (Z.leb_spec E2 (emax - prec));
      try reflexivity; try lia.
    apply le_kle; try reflexivity. unfold kle. simpl. lia.
Qed.

Lemma finalize_valid s r E :
  0 <= r < two_prec -> emin prec emax <= E ->
  (emin prec emax < E -> 2 ^ (prec - 1) <= r) ->
  valid_binary prec emax (finalize s (r, E)) = true.
Proof.
  intros Hr HE Hn. unfold finalize. cbn [fst snd].
  destruct r as [|p|p]; try lia; [reflexivity|].
  destruct (Z.leb_spec E (emax - prec)) as [Hle|Hgt]; [|reflexivity].
  unfold valid_binary, bounded, canonical_mantissa.
  apply andb_true_intro. split; [|now apply Z.leb_le].
  apply Z.eqb_eq. change (Zpos (digits2_pos p)) with (Zdigits2 (Zpos p)).
  assert (Hd : Zdigits2 (Zpos p) <= prec)
    by (apply digits_lt_pow; unfold prec; try lia; apply Hr).
  destruct (Z.eq_dec E (emin prec emax)) as [->|Hne].
  - unfold fexp. lia.
  - assert (prec <= Zdigits2 (Zpos p)).
    { replace prec with (prec - 1 + 1) by lia.
      apply digits_ge_pow; [unfold prec; lia|]. apply Hn. lia. }
    unfold fexp. lia.
Qed.

Lemma round_fin_valid s c e :
  0 <= c -> e <= fexp prec emax (Zdigits2 (c / 4) + e) ->
  valid_binary prec emax (finalize s (round_fin c e)) = true.
Proof.
  intros Hc He. destruct (round_fin_facts c e Hc He) as (Hr & Hn & _).
  unfold round_fin.
  set (E := fexp prec emax (Zdigits2 (c / 4) + e)) in *.
  set (r := rne (sticky (E - e) c)) in *.
  pose proof (fexp_ge_emin (Zdigits2 (c / 4) + e)) as HE. fold E in HE.
  destruct (Z.eqb_spec r two_prec) as [Hr2|Hr2].
  - apply finalize_valid; unfold two_prec, prec in *; lia.
  - apply finalize_valid; try lia; exact Hn.
Qed.

(** ** Rounding is monotone *)

Local Open Scope R_scope.

Lemma tval_lower N D e :
  (0 < D)%Z -> (0 <= N)%Z -> IZR (N / D) * pow2 e <= tval N D e.
Proof.
  intros HD HN. unfold tval.
  apply Rmult_le_compat_r; [left; apply pow2_pos|].
  assert (0 < IZR D) by (now apply IZR_lt).
  apply Rmult_le_reg_r with (IZR D); [assumption|].
  replace (IZR N / IZR D * IZR D) with (IZR N) by (field; lra).
  rewrite <- mult_IZR. apply IZR_le.
  pose proof (Z.mul_div_le N D HD). lia.
Qed.

Lemma tval_upper N D e :
  (0 < D)%Z -> (0 <= N)%Z -> tval N D e < IZR (N / D + 1) * pow2 e.
Proof.
  intros HD HN. unfold tval.
  apply Rmult_lt_compat_r; [apply pow2_pos|].
  assert (0 < IZR D) by (now apply IZR_lt).
  apply Rmult_lt_reg_r with (IZR D); [assumption|].
  replace (IZR N / IZR D * IZR D) with (IZR N) by (field; lra).
  rewrite <- mult_IZR. apply IZR_lt.
  pose proof (Z.mod_pos_bound N D HD). pose proof (Z.div_mod N D). lia.
Qed.

(** A larger value has a larger magnitude. *)
Lemma magnitude_mono N1 D1 e1 N2 D2 e2 :
  (0 < D1)%Z -> (0 <= N1)%Z -> (0 < D2)%Z -> (0 <= N2)%Z ->
  (0 < N1 / D1)%Z ->
  tval N1 D1 e1 <= tval N2 D2 e2 ->
  (Zdigits2 (N1 / D1) + e1 <= Zdigits2 (N2 / D2) + e2)%Z.
Proof.
  intros HD1 HN1 HD2 HN2 Hm1 Hle.
  pose proof (digits_bounds _ Hm1) as [Hlo _].
  pose proof (digits_pos _ Hm1) as Hd1.
  assert (Hm2 : (0 <= N2 / D2)%Z) by (apply Z.div_pos; lia).
  assert (Hhi : (N2 / D2 + 1 <= 2 ^ Zdigits2 (N2 / D2))%Z).
  { destruct (Z.eq_dec (N2 / D2)%Z 0%Z) as [->|Hne]; [simpl; lia|].
    pose proof (digits_bounds (N2 / D2)%Z ltac:(lia)). lia. }
  pose proof (digits_nonneg (N2 / D2)%Z) as Hd2.
  assert (H1 : pow2 (Zdigits2 (N1 / D1) - 1 + e1) <= tval N1 D1 e1).
  { eapply Rle_trans; [|apply tval_lower; assumption].
    rewrite pow2_add. apply Rmult_le_compat_r; [left; apply pow2_pos|].
    rewrite pow2_IZR by lia. now apply IZR_le. }
  assert (H2 : tval N2 D2 e2 < pow2 (Zdigits2 (N2 / D2) + e2)).
  { eapply Rlt_le_trans; [apply tval_upper; assumption|].
    rewrite pow2_add. apply Rmult_le_compat_r; [left; apply pow2_pos|].
    rewrite pow2_IZR by lia. now apply IZR_le. }
  assert (H3 : pow2 (Zdigits2 (N1 / D1) - 1 + e1)
               < pow2 (Zdigits2 (N2 / D2) + e2)) by lra.
  apply pow2_lt_inv in H3. lia.
Qed.

(** The order of two values, at a common exponent [E], in integers. *)
Lemma tval_le_cross N1 D1 e1 N2 D2 e2 E :
  (0 < D1)%Z -> (0 < D2)%Z -> (e1 <= E)%Z -> (e2 <= E)%Z ->
  tval N1 D1 e1 <= tval N2 D2 e2 ->
  (N1 * (D2 * 2 ^ (E - e2)) <= N2 * (D1 * 2 ^ (E - e1)))%Z.
Proof.
  intros HD1 HD2 He1 He2 Hle. apply le_IZR. rewrite !mult_IZR.
  rewrite <- !pow2_IZR by lia.
  assert (Hb : 0 < IZR D1) by (now apply IZR_lt).
  assert (Hd : 0 < IZR D2) by (now apply IZR_lt).
  pose proof (pow2_pos (E - e1)) as Hp1. pose proof (pow2_pos (E - e2)) as Hp2.
  pose proof (pow2_pos e1) as Hq1. pose proof (pow2_pos e2) as Hq2.
  assert (HE : pow2 e1 * pow2 (E - e1) = pow2 e2 * pow2 (E - e2)).
  { rewrite <- !pow2_add. f_equal. lia. }
  unfold tval in Hle.
  set (a := IZR N1) in *. set (b := IZR D1) in *.
  set (c := IZR N2) in *. set (d := IZR D2) in *.
  set (p1 := pow2 (E - e1)) in *. set (p2 := pow2 (E - e2)) in *.
  set (q1 := pow2 e1) in *. set (q2 := pow2 e2) in *.
  assert (Hk : 0 < b * d * p1 / q2).
  { apply Rdiv_lt_0_compat; [|assumption].
    repeat apply Rmult_lt_0_compat; assumption. }
  apply (Rmult_le_compat_r _ _ _ (Rlt_le _ _ Hk)) in Hle.
  replace (a / b * q1 * (b * d * p1 / q2)) with (a * (d * (q1 * p1 / q2)))
    in Hle by (field; lra).
  replace (c / d * q2 * (b * d * p1 / q2)) with (c * (b * p1))
    in Hle by (field; lra).
  replace (q1 * p1 / q2) with p2 in Hle by (rewrite HE; field; lra).
  exact Hle.
Qed.

Local Close Scope R_scope.

Theorem round_fin_mono N1 D1 e1 N2 D2 e2 :
  0 <= N1 -> 0 < D1 -> 0 <= N2 -> 0 < D2 ->
  e1 <= fexp prec emax (Zdigits2 (N1 / D1) + e1) ->
  e2 <= fexp prec emax (Zdigits2 (N2 / D2) + e2) ->
  (tval N1 D1 e1 <= tval N2 D2 e2)%R ->
  le (finalize false (round_fin (frac_code N1 D1) e1))
     (finalize false (round_fin (frac_code N2 D2) e2)) = true.
Proof.
  intros HN1 HD1 HN2 HD2 He1 He2 Hle.
  assert (Hc1 : 0 <= frac_code N1 D1).
  { unfold frac_code. assert (0 <= 2 * N1 / D1) by (apply Z.div_pos; lia).
    destruct (_ =? 0); lia. }
  assert (Hc2 : 0 <= frac_code N2 D2).
  { unfold frac_code. assert (0 <= 2 * N2 / D2) by (apply Z.div_pos; lia).
    destruct (_ =? 0); lia. }
  pose proof (round_fin_facts _ e1 Hc1) as F1.
  pose proof (round_fin_facts _ e2 Hc2) as F2.
  unfold round_fin. cbv zeta in F1, F2.
  rewrite !frac_code_div4 in * by assumption.
  set (E1 := fexp prec emax (Zdigits2 (N1 / D1) + e1)) in *.
  set (E2 := fexp prec emax (Zdigits2 (N2 / D2) + e2)) in *.
  rewrite !frac_code_sticky in * by lia.
  set (r1 := rne (frac_code N1 (D1 * 2 ^ (E1 - e1)))) in *.
  set (r2 := rne (frac_code N2 (D2 * 2 ^ (E2 - e2)))) in *.
  destruct (F1 He1) as (Hr1 & Hn1 & Hz1).
  destruct (F2 He2) as (Hr2 & Hn2 & Hz2). clear F1 F2.
  pose proof (fexp_ge_emin (Zdigits2 (N1 / D1) + e1)) as Hm1. fold E1 in Hm1.
  pose proof (fexp_ge_emin (Zdigits2 (N2 / D2) + e2)) as Hm2. fold E2 in Hm2.
  assert (HE : E1 <= E2).
  { assert (0 <= N1 / D1) by (apply Z.div_pos; lia).
    destruct (Z.eq_dec (N1 / D1) 0) as [E0|Hne]; [rewrite (Hz1 E0); exact Hm2|].
    apply fexp_mono. apply magnitude_mono; try assumption. lia. }
  assert (Hpow : 2 ^ (prec - 1) < two_prec)
    by (unfold two_prec, prec; lia).
  destruct (Z.eq_dec E1 E2) as [Eeq|Ene].
  - assert (Hr : r1 <= r2).
    { apply rne_mono. apply frac_code_mono.
      - apply Z.mul_pos_pos; [lia|apply Z.pow_pos_nonneg; lia].
      - apply Z.mul_pos_pos; [lia|apply Z.pow_pos_nonneg; lia].
      - rewrite Eeq. apply tval_le_cross; try assumption; lia. }
    destruct (Z.eqb_spec r1 two_prec), (Z.eqb_spec r2 two_prec);
      apply finalize_le; unfold two_prec, prec in *; try lia.
  - assert (Hlt : E1 < E2) by lia.
    assert (Hr2' : 2 ^ (prec - 1) <= r2) by (apply Hn2; lia).
    destruct (Z.eqb_spec r1 two_prec), (Z.eqb_spec r2 two_prec);
      apply finalize_le; unfold two_prec, prec in *; try lia.
Qed.

(** ** Valid numbers and their real value *)

(** A number in its canonical binary64 form; every JavaScript number is
    one. *)
Definition valid (x : number) : bool := valid_binary prec emax x.

Local Open Scope R_scope.

Definition fval (x : number) : R :=
  match x with
  | S754_finite false m e => IZR (Zpos m) * pow2 e
  | S754_finite true m e => - (IZR (Zpos m) * pow2 e)
  | _ => 0
  end.

Lemma tval_1 m e : tval m 1 e = IZR m * pow2 e.
Proof. unfold tval. field. Qed.

Local Close Scope R_scope.

Lemma valid_canonical s m e :
  valid (S754_finite s m e) = true ->
  fexp prec emax (Zdigits2 (Zpos m) + e) = e /\ e <= emax - prec.
Proof.
  unfold valid, valid_binary, bounded, canonical_mantissa.
  intros H. apply andb_prop in H as [H1 H2].
  apply Z.eqb_eq in H1. apply Z.leb_le in H2. split; assumption.
Qed.

Lemma canonical_digits m e :
  fexp prec emax (Zdigits2 (Zpos m) + e) = e ->
  Zdigits2 (Zpos m) <= prec /\
  (emin prec emax < e -> Zdigits2 (Zpos m) = prec) /\
  emin prec emax <= e.
Proof. unfold fexp. lia. Qed.

Lemma le_fval_pos m1 e1 m2 e2 :
  valid (S754_finite false m1 e1) = true ->
  valid (S754_finite false m2 e2) = true ->
  le (S754_finite false m1 e1) (S754_finite false m2 e2) = true ->
  (IZR (Zpos m1) * pow2 e1 <= IZR (Zpos m2) * pow2 e2)%R.
Proof.
  intros V1 V2 H.
  apply valid_canonical in V1 as [C1 _], V2 as [C2 _].
  apply canonical_digits in C1 as (D1 & _ & M1), C2 as (_ & N2 & _).
  apply le_kle in H; try reflexivity. unfold kle in H. simpl in H.
  destruct H as [H|[_ [H|[-> H]]]]; try lia.
  - assert (Hd2 : Zdigits2 (Zpos m2) = prec) by (apply N2; lia).
    pose proof (digits_bounds (Zpos m1) ltac:(lia)) as [_ B1].
    pose proof (digits_bounds (Zpos m2) ltac:(lia)) as [B2 _].
    rewrite Hd2 in B2.
    assert (B1' : Zpos m1 <= 2 ^ prec).
    { assert (2 ^ Zdigits2 (Zpos m1) <= 2 ^ prec)
        by (apply Z.pow_le_mono_r; lia). lia. }
    apply IZR_le in B1', B2. rewrite <- !pow2_IZR in B1', B2
      by (unfold prec; lia).
    pose proof (pow2_pos e1). pose proof (pow2_pos e2).
    apply Rle_trans with (pow2 prec * pow2 e1)%R;
      [apply Rmult_le_compat_r; lra|].
    apply Rle_trans with (pow2 (prec - 1) * pow2 e2)%R;
      [|apply Rmult_le_compat_r; lra].
    rewrite <- !pow2_add. apply pow2_le. lia.
  - apply Rmult_le_compat_r; [left; apply pow2_pos|]. apply IZR_le. lia.
Qed.

Lemma fval_pos m e : (0 < IZR (Zpos m) * pow2 e)%R.
Proof.
  apply Rmult_lt_0_compat; [apply IZR_lt; lia|apply pow2_pos].
Qed.

(** On valid finite numbers the order of numbers is the order of their
    values. *)
Lemma le_fval x y :
  valid x = true -> valid y = true ->
  isFinite x = true -> isFinite y = true ->
  le x y = true -> (fval x <= fval y)%R.
Proof.
  intros Vx Vy Fx Fy H.
  destruct x as [sx|sx| |[] mx ex], y as [sy|sy| |[] my ey];
    try discriminate; simpl fval;
    try (pose proof (fval_pos mx ex)); try (pose proof (fval_pos my ey));
    try lra.
  - apply Ropp_le_contravar. apply le_fval_pos; try assumption.
    apply le_kle in H; try reflexivity. apply le_kle; try reflexivity.
    unfold kle in *. simpl in *. lia.
  - now apply le_fval_pos.
Qed.

(** ** Rounding a number that is already one *)

Lemma round_fin_canonical s m e :
  valid (S754_finite s m e) = true ->
  finalize s (round_fin (frac_code (Zpos m) 1) e) = S754_finite s m e.
Proof.
  intros V. apply valid_canonical in V as [C B].
  pose proof (canonical_digits _ _ C) as (D & _ & _).
  unfold round_fin. rewrite frac_code_div4, Z.div_1_r by lia.
  rewrite C, Z.sub_diag, sticky_0, frac_code_exact.
  unfold code. simpl loc_bits. rewrite Z.add_0_r, rne_exact.
  pose proof (digits_bounds (Zpos m) ltac:(lia)) as [_ Hb].
  assert (2 ^ Zdigits2 (Zpos m) <= two_prec)
    by (apply Z.pow_le_mono_r; lia).
  destruct (Z.eqb_spec (Zpos m) two_prec) as [E|_]; [lia|].
  unfold finalize. cbn [fst snd].
  destruct (Z.leb_spec e (emax - prec)); [reflexivity|lia].
Qed.

(** ** [binary_round] and [binary_normalize] *)

Lemma shl_align_spec m e e' :
  let '(mz, ez) := shl_align m e e' in
  (e' < e -> Zpos mz = Zpos m * 2 ^ (e - e') /\ ez = e') /\
  (e <= e' -> mz = m /\ ez = e).
Proof.
  unfold shl_align. destruct (e' - e) as [|p|p] eqn:E.
  - split; [lia|auto].
  - split; [lia|auto].
  - split; [|lia]. intros _. split; [|reflexivity].
    replace (e - e') with (Zpos p) by lia.
    change (Pos.iter xO m p) with (shift_pos p m).
    rewrite shift_pos_correct, Z.pow_pos_fold. lia.
Qed.

(** ** What each operation rounds *)

(** [rounds s N D e x]: the number [x] is the fraction [N / D] at the
    exponent [e], with the sign [s], rounded to nearest, ties to even. *)
Definition rounds (s : bool) (N D e : Z) (x : number) : Prop :=
  0 <= N /\ 0 < D /\
  e <= fexp prec emax (Zdigits2 (N / D) + e) /\
  x = finalize s (round_fin (frac_code N D) e).

Lemma frac_code_nonneg N D : 0 <= N -> 0 < D -> 0 <= frac_code N D.
Proof.
  intros HN HD. unfold frac_code.
  assert (0 <= 2 * N / D) by (apply Z.div_pos; lia).
  destruct (_ =? 0); lia.
Qed.

Lemma rounds_valid s N D e x : rounds s N D e x -> valid x = true.
Proof.
  intros (HN & HD & He & ->). apply round_fin_valid.
  - now apply frac_code_nonneg.
  - now rewrite frac_code_div4.
Qed.

Lemma rounds_mono N1 D1 e1 x N2 D2 e2 y :
  rounds false N1 D1 e1 x -> rounds false N2 D2 e2 y ->
  (tval N1 D1 e1 <= tval N2 D2 e2)%R -> le x y = true.
Proof.
  intros (HN1 & HD1 & He1 & ->) (HN2 & HD2 & He2 & ->) H.
  now apply round_fin_mono.
Qed.

Lemma rounds_canonical s m e :
  valid (S754_finite s m e) = true ->
  rounds s (Zpos m) 1 e (S754_finite s m e).
Proof.
  intros V. repeat split; try lia.
  - apply valid_canonical in V as [C _]. rewrite Z.div_1_r, C. lia.
  - symmetry. now apply round_fin_canonical.
Qed.

Lemma finalize_neg r E :
  finalize true (r, E) = neg (finalize false (r, E)).
Proof.
  unfold finalize. cbn [fst snd]. destruct r; try reflexivity.
  destruct (_ <=? _); reflexivity.
Qed.

Lemma rounds_neg N D e x : rounds false N D e x -> rounds true N D e (neg x).
Proof.
  intros (HN & HD & He & ->). repeat split; try assumption.
  destruct (round_fin (frac_code N D) e) as [r E].
  symmetry. apply finalize_neg.
Qed.

Lemma rounds_sign s N D e x : rounds s N D e x -> has_sign s x.
Proof.
  intros (HN & HD & He & ->).
  pose proof (round_fin_facts (frac_code N D) e (frac_code_nonneg N D HN HD))
    as F. cbv zeta in F. rewrite frac_code_div4 in F by assumption.
  destruct (F He) as ([Hr _] & _).
  unfold round_fin. rewrite frac_code_div4 by assumption.
  destruct (_ =? two_prec).
  - unfold finalize. cbn [fst snd]. simpl (2 ^ (prec - 1)).
    destruct (_ <=? _); reflexivity.
  - unfold finalize. cbn [fst snd].
    destruct (rne _); try lia; [reflexivity|].
    destruct (_ <=? _); reflexivity.
Qed.

Lemma digits_shift m k :
  0 < m -> 0 <= k -> Zdigits2 (m * 2 ^ k) = Zdigits2 m + k.
Proof.
  intros Hm Hk. pose proof (digits_bounds m Hm) as [B1 B2].
  pose proof (digits_pos m Hm).
  apply digits_unique; [lia|].
  replace (Zdigits2 m + k - 1) with (Zdigits2 m - 1 + k) by lia.
  rewrite !Z.pow_add_r by lia.
  assert (0 < 2 ^ k) by (apply Z.pow_pos_nonneg; lia). nia.
Qed.

Lemma binary_round_spec s m e :
  exists N e',
    rounds s N 1 e' (binary_round prec emax s m e) /\
    tval N 1 e' = (IZR (Zpos m) * pow2 e)%R.
Proof.
  unfold binary_round.
  change (Zpos (digits2_pos m)) with (Zdigits2 (Zpos m)).
  pose proof (shl_align_spec m e (fexp prec emax (Zdigits2 (Zpos m) + e)))
    as Hs.
  destruct (shl_align _ _ _) as [mz ez].
  destruct Hs as [Hlt Hge].
  exists (Zpos mz), ez.
  assert (Hpre : ez <= fexp prec emax (Zdigits2 (Zpos mz) + ez) /\
                 tval (Zpos mz) 1 ez = (IZR (Zpos m) * pow2 e)%R).
  { destruct (Z_lt_le_dec (fexp prec emax (Zdigits2 (Zpos m) + e)) e)
      as [L|G].
    - destruct (Hlt L) as [Hm ->]. rewrite Hm. split.
      + rewrite digits_shift by lia.
        replace (Zdigits2 (Zpos m) +
                 (e - fexp prec emax (Zdigits2 (Zpos m) + e)) +
                 fexp prec emax (Zdigits2 (Zpos m) + e))
          with (Zdigits2 (Zpos m) + e) by lia. lia.
      + rewrite tval_1, mult_IZR, <- pow2_IZR by lia.
        rewrite Rmult_assoc, <- pow2_add. f_equal. f_equal. lia.
    - destruct (Hge G) as [-> ->]. split; [exact G|apply tval_1]. }
  destruct Hpre as [Hpre Hv]. split; [|exact Hv].
  repeat split; try lia.
  - now rewrite Z.div_1_r.
  - rewrite binary_round_aux_spec by (lia || assumption).
    now rewrite frac_code_exact.
Qed.

(** The value a [binary_normalize] rounds, with its sign. *)
Lemma binary_normalize_pos m e :
  0 < m ->
  exists N e', rounds false N 1 e' (binary_normalize prec emax m e false) /\
               tval N 1 e' = (IZR m * pow2 e)%R.
Proof.
  intros Hm. destruct m as [|p|p]; try lia. apply binary_round_spec.
Qed.

Lemma binary_normalize_neg m e :
  m < 0 ->
  exists N e', rounds true N 1 e' (binary_normalize prec emax m e false) /\
               tval N 1 e' = (- (IZR m * pow2 e))%R.
Proof.
  intros Hm. destruct m as [|p|p]; try lia.
  destruct (binary_round_spec true p e) as (N & e' & H & Hv).
  exists N, e'. split; [exact H|]. rewrite Hv.
  change (Z.neg p) with (- Zpos p). rewrite opp_IZR. ring.
Qed.

(** *** Multiplication *)

Lemma mul_rounds sx mx ex sy my ey :
  valid (S754_finite sx mx ex) = true ->
  valid (S754_finite sy my ey) = true ->
  rounds (xorb sx sy) (Zpos mx * Zpos my) 1 (ex + ey)
         (mul (S754_finite sx mx ex) (S754_finite sy my ey)).
Proof.
  intros Vx Vy.
  apply valid_canonical in Vx as [Cx _], Vy as [Cy _].
  assert (Hpre : ex + ey <=
                 fexp prec emax (Zdigits2 (Zpos mx * Zpos my) + (ex + ey))).
  { pose proof (digits_bounds (Zpos mx) ltac:(lia)) as [Bx _].
    pose proof (digits_bounds (Zpos my) ltac:(lia)) as [By _].
    pose proof (digits_pos (Zpos mx) ltac:(lia)).
    pose proof (digits_pos (Zpos my) ltac:(lia)).
    assert (Hd : Zdigits2 (Zpos mx) + Zdigits2 (Zpos my) - 1 <=
                 Zdigits2 (Zpos mx * Zpos my)).
    { pose proof (digits_ge_pow (Zpos mx * Zpos my)
                    (Zdigits2 (Zpos mx) - 1 + (Zdigits2 (Zpos my) - 1))
                    ltac:(lia)) as G.
      rewrite Z.pow_add_r in G by lia.
      assert (0 < 2 ^ (Zdigits2 (Zpos mx) - 1))
        by (apply Z.pow_pos_nonneg; lia).
      assert (0 < 2 ^ (Zdigits2 (Zpos my) - 1))
        by (apply Z.pow_pos_nonneg; lia).
      assert (2 ^ (Zdigits2 (Zpos mx) - 1) * 2 ^ (Zdigits2 (Zpos my) - 1)
              <= Zpos mx * Zpos my) by nia.
      lia. }
    revert Cx Cy Hd. unfold fexp, emin, prec, emax. lia. }
  repeat split; try lia.
  - now rewrite Z.div_1_r.
  - unfold mul, SFmul. change (Zpos (mx * my)) with (Zpos mx * Zpos my).
    rewrite binary_round_aux_spec by (lia || assumption).
    now rewrite frac_code_exact.
Qed.

(** *** Division *)

Lemma new_location_frac_code N D :
  0 <= N -> 0 < D ->
  code (N / D) (new_location D (N mod D)) = frac_code N D.
Proof.
  intros HN HD. unfold frac_code, code, new_location.
  pose proof (Z.mod_pos_bound N D HD) as Hr.
  pose proof (Z.div_mod N D ltac:(lia)) as Hq.
  assert (E2 : 2 * N = (2 * (N / D)) * D + 2 * (N mod D)) by lia.
  destruct (Z.even D) eqn:Ev.
  - unfold new_location_even.
    destruct (Z.eqb_spec (N mod D) 0) as [Z0|NZ].
    + simpl loc_bits.
      assert (H1 : 2 * N / D = 2 * (N / D))
        by (rewrite E2, Z0, Z.add_0_r; apply Z.div_mul; lia).
      assert (H2 : (2 * N) mod D = 0)
        by (rewrite E2, Z0, Z.add_0_r; apply Z.mod_mul; lia).
      rewrite H1, H2. simpl. lia.
    + destruct (Z.compare_spec (2 * (N mod D)) D) as [C|C|C]; simpl loc_bits.
      * assert (H1 : 2 * N / D = 2 * (N / D) + 1).
        { rewrite E2, C. replace (2 * (N / D) * D + D)
            with ((2 * (N / D) + 1) * D) by lia. apply Z.div_mul; lia. }
        assert (H2 : (2 * N) mod D = 0).
        { rewrite E2, C. replace (2 * (N / D) * D + D)
            with ((2 * (N / D) + 1) * D) by lia. apply Z.mod_mul; lia. }
        rewrite H1, H2. simpl. lia.
      * assert (H1 : 2 * N / D = 2 * (N / D)).
        { symmetry. apply (Z.div_unique _ _ _ (2 * (N mod D))); lia. }
        assert (H2 : (2 * N) mod D = 2 * (N mod D)).
        { symmetry. apply (Z.mod_unique _ _ (2 * (N / D))); lia. }
        rewrite H1, H2.
        destruct (Z.eqb_spec (2 * (N mod D)) 0); lia.
      * assert (H1 : 2 * N / D = 2 * (N / D) + 1).
        { symmetry. apply (Z.div_unique _ _ _ (2 * (N mod D) - D)); lia. }
        assert (H2 : (2 * N) mod D = 2 * (N mod D) - D).
        { symmetry. apply (Z.mod_unique _ _ (2 * (N / D) + 1)); lia. }
        rewrite H1, H2.
        destruct (Z.eqb_spec (2 * (N mod D) - D) 0); lia.
  - unfold new_location_odd.
    assert (Hodd : D mod 2 = 1).
    { rewrite Zmod_even, Ev. reflexivity. }
    destruct (Z.eqb_spec (N mod D) 0) as [Z0|NZ].
    + simpl loc_bits.
      assert (H1 : 2 * N / D = 2 * (N / D))
        by (rewrite E2, Z0, Z.add_0_r; apply Z.div_mul; lia).
      assert (H2 : (2 * N) mod D = 0)
        by (rewrite E2, Z0, Z.add_0_r; apply Z.mod_mul; lia).
      rewrite H1, H2. simpl. lia.
    + destruct (Z.compare_spec (2 * (N mod D) + 1) D) as [C|C|C];
        simpl loc_bits.
      * assert (H1 : 2 * N / D = 2 * (N / D)).
        { symmetry. apply (Z.div_unique _ _ _ (2 * (N mod D))); lia. }
        assert (H2 : (2 * N) mod D = 2 * (N mod D)).
        { symmetry. apply (Z.mod_unique _ _ (2 * (N / D))); lia. }
        rewrite H1, H2.
        destruct (Z.eqb_spec (2 * (N mod D)) 0); lia.
      * assert (H1 : 2 * N / D = 2 * (N / D)).
        { symmetry. apply (Z.div_unique _ _ _ (2 * (N mod D))); lia. }
        assert (H2 : (2 * N) mod D = 2 * (N mod D)).
        { symmetry. apply (Z.mod_unique _ _ (2 * (N / D))); lia. }
        rewrite H1, H2.
        destruct (Z.eqb_spec (2 * (N mod D)) 0); lia.
      * assert (H1 : 2 * N / D = 2 * (N / D) + 1).
        { symmetry. apply (Z.div_unique _ _ _ (2 * (N mod D) - D)); lia. }
        assert (H2 : (2 * N) mod D = 2 * (N mod D) - D).
        { symmetry. apply (Z.mod_unique _ _ (2 * (N / D) + 1)); lia. }
        rewrite H1, H2.
        destruct (Z.eqb_spec (2 * (N mod D) - D) 0); lia.
Qed.

Lemma div_quotient_digits mx my s :
  0 <= s ->
  Zdigits2 (Zpos mx) + s - Zdigits2 (Zpos my) <=
  Zdigits2 (Zpos mx * 2 ^ s / Zpos my).
Proof.
  intros Hs.
  set (d1 := Zdigits2 (Zpos mx)). set (d2 := Zdigits2 (Zpos my)).
  destruct (Z_le_gt_dec (d1 + s - d2) 0) as [L|G].
  { pose proof (digits_nonneg (Zpos mx * 2 ^ s / Zpos my)). lia. }
  pose proof (digits_bounds (Zpos mx) ltac:(lia)) as [B1 _].
  pose proof (digits_bounds (Zpos my) ltac:(lia)) as [_ B2].
  pose proof (digits_pos (Zpos mx) ltac:(lia)) as P1.
  pose proof (digits_pos (Zpos my) ltac:(lia)) as P2.
  fold d1 in B1, P1. fold d2 in B2, P2.
  assert (H2s : 0 < 2 ^ s) by (apply Z.pow_pos_nonneg; lia).
  assert (K : 2 ^ (d1 + s - d2 - 1) <= Zpos mx * 2 ^ s / Zpos my).
  { apply Z.div_le_lower_bound; [lia|].
    assert (H : Zpos my * 2 ^ (d1 + s - d2 - 1) <=
                2 ^ d2 * 2 ^ (d1 + s - d2 - 1)).
    { apply Z.mul_le_mono_nonneg_r; [|lia]. apply Z.pow_nonneg; lia. }
    rewrite <- Z.pow_add_r in H by lia.
    replace (d2 + (d1 + s - d2 - 1)) with (d1 - 1 + s) in H by lia.
    rewrite Z.pow_add_r in H by lia.
    assert (2 ^ (d1 - 1) * 2 ^ s <= Zpos mx * 2 ^ s)
      by (apply Z.mul_le_mono_nonneg_r; lia).
    lia. }
  apply digits_ge_pow in K; lia.
Qed.

Lemma div_rounds sx mx ex sy my ey :
  exists N e',
    rounds (xorb sx sy) N (Zpos my) e'
           (div (S754_finite sx mx ex) (S754_finite sy my ey)) /\
    tval N (Zpos my) e' =
      (IZR (Zpos mx) * pow2 ex / (IZR (Zpos my) * pow2 ey))%R.
Proof.
  set (d1 := Zdigits2 (Zpos mx)). set (d2 := Zdigits2 (Zpos my)).
  set (e' := Z.min (fexp prec emax (d1 + ex - (d2 + ey))) (ex - ey)).
  set (s := ex - ey - e').
  assert (Hs : 0 <= s) by (unfold s, e'; lia).
  exists (Zpos mx * 2 ^ s), e'.
  assert (H2s : 0 < 2 ^ s) by (apply Z.pow_pos_nonneg; lia).
  assert (Hm' : match s with
                | 0 => Zpos mx
                | Zpos _ => Z.shiftl (Zpos mx) s
                | Zneg _ => 0
                end = Zpos mx * 2 ^ s).
  { destruct s as [|p|p] eqn:Es; try lia.
    rewrite Z.shiftl_mul_pow2 by lia. reflexivity. }
  assert (Hpre : e' <= fexp prec emax
                         (Zdigits2 (Zpos mx * 2 ^ s / Zpos my) + e')).
  { pose proof (div_quotient_digits mx my s Hs) as Hd. fold d1 d2 in Hd.
    assert (He' : e' <= fexp prec emax (d1 + ex - (d2 + ey)))
      by (unfold e'; lia).
    eapply Z.le_trans; [exact He'|]. apply fexp_mono.
    assert (Es : s = ex - ey - e') by reflexivity. lia. }
  split.
  - repeat split; try lia; try assumption.
    unfold div, SFdiv, SFdiv_core_binary.
    fold d1 d2 e' s. cbv zeta. rewrite Hm'.
    pose proof (new_location_frac_code (Zpos mx * 2 ^ s) (Zpos my)
                  ltac:(lia) ltac:(lia)) as Hc.
    assert (Hq : 0 <= Zpos mx * 2 ^ s / Zpos my) by (apply Z.div_pos; lia).
    revert Hc Hq Hpre. unfold Z.div, Z.modulo.
    destruct (Z.div_eucl (Zpos mx * 2 ^ s) (Zpos my)) as [q r].
    intros Hc Hq Hpre.
    rewrite binary_round_aux_spec by assumption.
    now rewrite Hc.
  - unfold tval. rewrite mult_IZR, <- pow2_IZR by lia.
    replace (pow2 ex) with (pow2 (s + e' + ey))
      by (f_equal; unfold s; lia).
    rewrite !pow2_add.
    pose proof (pow2_pos ey). pose proof (pow2_pos e').
    assert (0 < IZR (Zpos my))%R by (apply IZR_lt; lia).
    field. split; lra.
Qed.

(** ** Correct rounding, with signs

    [srounds v x]: the number [x] is the real [v] rounded to nearest. *)

Inductive srounds (v : R) (x : number) : Prop :=
  | srounds_zero s : v = 0%R -> x = S754_zero s -> srounds v x
  | srounds_pos N D e :
      (0 < v)%R -> rounds false N D e x -> tval N D e = v -> srounds v x
  | srounds_neg N D e :
      (v < 0)%R -> rounds true N D e x -> tval N D e = (- v)%R ->
      srounds v x.

Lemma le_neg x y : le x y = true -> le (- y)%num (- x)%num = true.
Proof.
  intros H. destruct (le_not_NaN _ _ H) as [Hx Hy].
  apply le_kle in H; auto.
  apply le_kle; [now destruct y|now destruct x|].
  destruct x as [[]|[]| |[] mx ex], y as [[]|[]| |[] my ey];
    try discriminate; unfold kle in *; simpl in *; lia.
Qed.

Lemma neg_involutive x : (- - x)%num = x.
Proof. destruct x as [[]|[]| |[] m e]; reflexivity. Qed.

Lemma le_zero_sign s y : has_sign false y -> le (S754_zero s) y = true.
Proof. destruct y; simpl; intros H; try subst; auto; contradiction. Qed.

Lemma le_sign_zero s x : has_sign true x -> le x (S754_zero s) = true.
Proof. destruct x; simpl; intros H; try subst; auto; contradiction. Qed.

Lemma le_sign_sign x y :
  has_sign true x -> has_sign false y -> le x y = true.
Proof.
  destruct x, y; simpl; intros H1 H2; try subst; auto; contradiction.
Qed.

Lemma rounds_true_inv N D e x :
  rounds true N D e x -> rounds false N D e (- x)%num.
Proof.
  intros (HN & HD & He & ->). repeat split; try assumption.
  destruct (round_fin (frac_code N D) e) as [r E].
  now rewrite finalize_neg, neg_involutive.
Qed.

Lemma srounds_mono v x w y :
  srounds v x -> srounds w y -> (v <= w)%R -> le x y = true.
Proof.
  intros [sx Hv ->|N1 D1 e1 Hv Hx Vx|N1 D1 e1 Hv Hx Vx]
         [sy Hw ->|N2 D2 e2 Hw Hy Vy|N2 D2 e2 Hw Hy Vy] H; try lra.
  - reflexivity.
  - apply le_zero_sign. eapply rounds_sign; eauto.
  - eapply rounds_mono; eauto. lra.
  - apply le_sign_zero. eapply rounds_sign; eauto.
  - apply le_sign_sign; eapply rounds_sign; eauto.
  - rewrite <- (neg_involutive x), <- (neg_involutive y).
    apply le_neg. apply rounds_true_inv in Hx, Hy.
    eapply rounds_mono; eauto. lra.
Qed.

Lemma srounds_valid v x : srounds v x -> valid x = true.
Proof.
  intros [s _ ->|N D e _ H _|N D e _ H _]; [reflexivity|..];
    eapply rounds_valid; eauto.
Qed.

Lemma srounds_not_NaN v x : srounds v x -> isNaN x = false.
Proof.
  intros [s _ ->|N D e _ H _|N D e _ H _]; [reflexivity|..];
    eapply has_sign_not_NaN, rounds_sign; eauto.
Qed.

(** A valid finite number rounds its own value. *)
Lemma valid_srounds x :
  valid x = true -> isFinite x = true -> srounds (fval x) x.
Proof.
  intros V F. destruct x as [s|s| |[] m e]; try discriminate.
  - now apply (srounds_zero _ _ s).
  - apply (srounds_neg _ _ (Zpos m) 1 e).
    + simpl. pose proof (fval_pos m e). lra.
    + now apply rounds_canonical.
    + rewrite tval_1. simpl. lra.
  - apply (srounds_pos _ _ (Zpos m) 1 e).
    + simpl. apply fval_pos.
    + now apply rounds_canonical.
    + rewrite tval_1. reflexivity.
Qed.

Lemma binary_normalize_srounds m e :
  srounds (IZR m * pow2 e) (binary_normalize prec emax m e false).
Proof.
  pose proof (pow2_pos e) as P.
  destruct (Z.lt_trichotomy m 0) as [L|[->|G]].
  - destruct (binary_normalize_neg m e L) as (N & e' & H & Hv).
    apply (srounds_neg _ _ N 1 e'); auto.
    apply IZR_lt in L. nra.
  - apply (srounds_zero _ _ false); [lra|reflexivity].
  - destruct (binary_normalize_pos m e G) as (N & e' & H & Hv).
    apply (srounds_pos _ _ N 1 e'); auto.
    apply IZR_lt in G. nra.
Qed.

Lemma of_Z_srounds n : srounds (IZR n) (of_Z n).
Proof.
  unfold of_Z. replace (IZR n) with (IZR n * pow2 0)%R.
  - apply binary_normalize_srounds.
  - unfold pow2. simpl. lra.
Qed.

(** ** The operations on finite numbers round the exact result *)

Lemma mul_srounds x y :
  valid x = true -> valid y = true ->
  isFinite x = true -> isFinite y = true ->
  srounds (fval x * fval y) (x * y)%num.
Proof.
  intros Vx Vy Fx Fy.
  destruct x as [sx|sx| |sx mx ex]; try discriminate;
    destruct y as [sy|sy| |sy my ey]; try discriminate;
    try (apply (srounds_zero _ _ (xorb sx sy));
         [simpl; try destruct sx; try destruct sy; lra|reflexivity]).
  pose proof (mul_rounds sx mx ex sy my ey Vx Vy) as H.
  pose proof (fval_pos mx ex) as Px. pose proof (fval_pos my ey) as Py.
  assert (Hv : tval (Zpos mx * Zpos my) 1 (ex + ey) =
               ((IZR (Zpos mx) * pow2 ex) * (IZR (Zpos my) * pow2 ey))%R).
  { rewrite tval_1, mult_IZR, pow2_add. ring. }
  assert (0 < (IZR (Zpos mx) * pow2 ex) * (IZR (Zpos my) * pow2 ey))%R
    by now apply Rmult_lt_0_compat.
  destruct sx, sy; unfold fval.
  - eapply srounds_pos; [|exact H|rewrite Hv]; lra.
  - eapply srounds_neg; [|exact H|rewrite Hv]; lra.
  - eapply srounds_neg; [|exact H|rewrite Hv]; lra.
  - eapply srounds_pos; [|exact H|rewrite Hv]; lra.
Qed.

Lemma div_srounds x s m e :
  isFinite x = true ->
  srounds (fval x / fval (S754_finite s m e)) (x / S754_finite s m e)%num.
Proof.
  intros Fx. pose proof (fval_pos m e) as Py.
  destruct x as [sx|sx| |sx mx ex]; try discriminate.
  - apply (srounds_zero _ _ (xorb sx s)); [|reflexivity].
    unfold fval, Rdiv. apply Rmult_0_l.
  - destruct (div_rounds sx mx ex s m e) as (N & e' & H & Hv).
    pose proof (fval_pos mx ex) as Px.
    unfold fval. revert Hv Px Py.
    generalize (IZR (Zpos mx) * pow2 ex)%R (IZR (Zpos m) * pow2 e)%R.
    intros a b Hv Pa Pb.
    assert (0 < a / b)%R by (apply Rdiv_lt_0_compat; assumption).
    destruct sx, s.
    + eapply srounds_pos; [|exact H|rewrite Hv].
      * replace (- a / - b)%R with (a / b)%R by (field; lra). assumption.
      * field; lra.
    + eapply srounds_neg; [|exact H|rewrite Hv].
      * replace (- a / b)%R with (- (a / b))%R by (field; lra). lra.
      * field; lra.
    + eapply srounds_neg; [|exact H|rewrite Hv].
      * replace (a / - b)%R with (- (a / b))%R by (field; lra). lra.
      * field; lra.
    + eapply srounds_pos; [|exact H|rewrite Hv]; [assumption|reflexivity].
Qed.

Lemma shl_align_value m e e' :
  e' <= e ->
  (IZR (Zpos (fst (shl_align m e e'))) * pow2 e' = IZR (Zpos m) * pow2 e)%R.
Proof.
  intros H. pose proof (shl_align_spec m e e') as S.
  destruct (shl_align m e e') as [mz ez]. destruct S as [S1 S2].
  cbn [fst]. destruct (Z.eq_dec e' e) as [->|Ne].
  - destruct (S2 ltac:(lia)) as [-> _]. reflexivity.
  - destruct (S1 ltac:(lia)) as [-> _].
    rewrite mult_IZR, <- pow2_IZR by lia.
    rewrite Rmult_assoc, <- pow2_add. f_equal. f_equal. lia.
Qed.

Lemma cond_Zopp_IZR s m :
  IZR (cond_Zopp s m) = (if s then - IZR m else IZR m)%R.
Proof. destruct s; simpl; [apply opp_IZR|reflexivity]. Qed.

Lemma add_srounds x y :
  valid x = true -> valid y = true ->
  isFinite x = true -> isFinite y = true ->
  srounds (fval x + fval y) (x + y)%num.
Proof.
  intros Vx Vy Fx Fy.
  destruct x as [sx|sx| |sx mx ex]; try discriminate;
    destruct y as [sy|sy| |sy my ey]; try discriminate.
  - replace (fval (S754_zero sx) + fval (S754_zero sy))%R with 0%R
      by (simpl; lra).
    destruct sx, sy; eapply srounds_zero; reflexivity.
  - replace (fval (S754_zero sx) + fval (S754_finite sy my ey))%R
      with (fval (S754_finite sy my ey)) by (simpl; lra).
    now apply valid_srounds.
  - replace (fval (S754_finite sx mx ex) + fval (S754_zero sy))%R
      with (fval (S754_finite sx mx ex)) by (simpl; lra).
    now apply valid_srounds.
  - unfold add, SFadd.
    replace (fval (S754_finite sx mx ex) + fval (S754_finite sy my ey))%R
      with (IZR (cond_Zopp sx (Zpos (fst (shl_align mx ex (Z.min ex ey)))) +
                 cond_Zopp sy (Zpos (fst (shl_align my ey (Z.min ex ey)))))
            * pow2 (Z.min ex ey))%R.
    + apply binary_normalize_srounds.
    + rewrite plus_IZR, !cond_Zopp_IZR, Rmult_plus_distr_r.
      pose proof (shl_align_value mx ex (Z.min ex ey) ltac:(lia)) as Hx.
      pose proof (shl_align_value my ey (Z.min ex ey) ltac:(lia)) as Hy.
      destruct sx, sy; unfold fval; lra.
Qed.

(** ** Monotonicity of the operations *)

Definition nonneg (x : number) : Prop := le pos_zero x = true.

Lemma nonneg_cases x :
  nonneg x -> (isFinite x = true /\ (0 <= fval x)%R) \/ x = Infinity.
Proof.
  unfold nonneg. destruct x as [s|[]| |[] m e]; try discriminate; intros _.
  - left. split; [reflexivity|simpl; lra].
  - now right.
  - left. split; [reflexivity|]. left. apply fval_pos.
Qed.

Lemma sign_nonneg x : has_sign false x -> nonneg x.
Proof. apply le_zero_sign. Qed.

Lemma gt_zero_sign x : gt x pos_zero = true -> has_sign false x.
Proof. destruct x as [s|[]| |[] m e]; try discriminate; reflexivity. Qed.

Lemma gt_zero_not_zero x : gt x pos_zero = true -> is_zero x = false.
Proof. destruct x as [s|[]| |[] m e]; try discriminate; reflexivity. Qed.

Lemma le_Infinity x : isNaN x = false -> le x Infinity = true.
Proof. destruct x as [s|[]| |[] m e]; try discriminate; reflexivity. Qed.

Lemma le_neg_Infinity x : isNaN x = false -> le neg_Infinity x = true.
Proof. destruct x as [s|[]| |[] m e]; try discriminate; reflexivity. Qed.

Lemma Infinity_le x : le Infinity x = true -> x = Infinity.
Proof. destruct x as [s|[]| |[] m e]; try discriminate; reflexivity. Qed.

Lemma le_neg_Infinity_inv x : le x neg_Infinity = true -> x = neg_Infinity.
Proof. destruct x as [s|[]| |[] m e]; try discriminate; reflexivity. Qed.

Lemma isFinite_not_NaN x : isFinite x = true -> isNaN x = false.
Proof. destruct x; try discriminate; reflexivity. Qed.

Lemma not_finite_cases x :
  isFinite x = false -> x = Infinity \/ x = neg_Infinity \/ x = NaN.
Proof. destruct x as [s|[]| |s m e]; try discriminate; auto. Qed.

Lemma mul_not_NaN x y :
  isNaN (x * y)%num = false -> isNaN x = false /\ isNaN y = false.
Proof.
  destruct x as [sx|sx| |sx mx ex], y as [sy|sy| |sy my ey];
    intros H; split; reflexivity || discriminate H.
Qed.

Lemma div_not_NaN x y :
  isNaN (x / y)%num = false -> isNaN x = false /\ isNaN y = false.
Proof.
  destruct x as [sx|sx| |sx mx ex], y as [sy|sy| |sy my ey];
    intros H; split; reflexivity || discriminate H.
Qed.

Lemma add_not_NaN x y :
  isNaN (x + y)%num = false -> isNaN x = false /\ isNaN y = false.
Proof.
  destruct x as [sx|sx| |sx mx ex], y as [sy|sy| |sy my ey];
    intros H; split; reflexivity || discriminate H.
Qed.

Lemma mul_Infinity_l y :
  nonneg y -> isNaN (Infinity * y)%num = false -> (Infinity * y)%num = Infinity.
Proof.
  unfold nonneg. destruct y as [s|[]| |[] m e]; try discriminate; reflexivity.
Qed.

Lemma mul_Infinity_r x :
  nonneg x -> isNaN (x * Infinity)%num = false -> (x * Infinity)%num = Infinity.
Proof.
  unfold nonneg. destruct x as [s|[]| |[] m e]; try discriminate; reflexivity.
Qed.

(** Products of non-negative numbers grow with their factors. *)
Lemma mul_le_mono a b c d :
  valid a = true -> valid b = true -> valid c = true -> valid d = true ->
  nonneg a -> le a b = true -> nonneg c -> le c d = true ->
  isNaN (a * c)%num = false -> isNaN (b * d)%num = false ->
  le (a * c)%num (b * d)%num = true.
Proof.
  intros Va Vb Vc Vd Na Hab Nc Hcd Hac Hbd.
  assert (Nb : nonneg b) by exact (le_trans _ _ _ Na Hab).
  assert (Nd : nonneg d) by exact (le_trans _ _ _ Nc Hcd).
  destruct (nonneg_cases b Nb) as [[Fb Pb]| ->].
  2:{ rewrite (mul_Infinity_l d Nd Hbd). now apply le_Infinity. }
  destruct (nonneg_cases d Nd) as [[Fd Pd]| ->].
  2:{ rewrite (mul_Infinity_r b Nb Hbd). now apply le_Infinity. }
  destruct (nonneg_cases a Na) as [[Fa Pa]| ->].
  2:{ apply Infinity_le in Hab. subst b. discriminate. }
  destruct (nonneg_cases c Nc) as [[Fc Pc]| ->].
  2:{ apply Infinity_le in Hcd. subst d. discriminate. }
  apply (srounds_mono (fval a * fval c) _ (fval b * fval d));
    try now apply mul_srounds.
  apply Rmult_le_compat; try assumption; now apply le_fval.
Qed.

Lemma mul_valid x y :
  valid x = true -> valid y = true -> valid (x * y)%num = true.
Proof.
  intros Vx Vy.
  destruct (isFinite x) eqn:Fx, (isFinite y) eqn:Fy.
  - eapply srounds_valid. now apply mul_srounds.
  - destruct (not_finite_cases y Fy) as [->|[->| ->]];
      destruct x as [sx|sx| |sx mx ex]; try discriminate; reflexivity.
  - destruct (not_finite_cases x Fx) as [->|[->| ->]];
      destruct y as [sy|sy| |sy my ey]; try discriminate; reflexivity.
  - destruct (not_finite_cases x Fx) as [->|[->| ->]];
      destruct (not_finite_cases y Fy) as [->|[->| ->]]; reflexivity.
Qed.

Lemma div_valid x y : valid (x / y)%num = true.
Proof.
  destruct y as [sy|sy| |sy my ey];
    try (destruct x as [sx|sx| |sx mx ex]; reflexivity).
  destruct (isFinite x) eqn:Fx.
  - eapply srounds_valid. now apply div_srounds.
  - destruct (not_finite_cases x Fx) as [->|[->| ->]]; reflexivity.
Qed.

Lemma add_valid x y :
  valid x = true -> valid y = true -> valid (x + y)%num = true.
Proof.
  intros Vx Vy.
  destruct (isFinite x) eqn:Fx, (isFinite y) eqn:Fy.
  - eapply srounds_valid. now apply add_srounds.
  - destruct (not_finite_cases y Fy) as [->|[->| ->]];
      destruct x as [sx|sx| |sx mx ex]; try discriminate; reflexivity.
  - destruct (not_finite_cases x Fx) as [->|[->| ->]];
      destruct y as [[]|[]| |sy my ey]; try discriminate; reflexivity.
  - destruct (not_finite_cases x Fx) as [->|[->| ->]];
      destruct (not_finite_cases y Fy) as [->|[->| ->]]; reflexivity.
Qed.

(** Quotients of non-negative numbers grow with the numerator and shrink
    as the denominator grows. *)
Lemma div_le_mono a b c d :
  valid a = true -> valid b = true -> valid c = true -> valid d = true ->
  nonneg a -> le a b = true -> has_sign false d -> le d c = true ->
  isNaN (a / c)%num = false -> isNaN (b / d)%num = false ->
  le (a / c)%num (b / d)%num = true.
Proof.
  intros Va Vb Vc Vd Na Hab Sd Hdc Hac Hbd.
  assert (Nb : nonneg b) by exact (le_trans _ _ _ Na Hab).
  destruct d as [sd|sd| |sd md ed]; simpl in Sd; try contradiction;
    subst sd.
  - (* division by zero *)
    destruct b as [sb|[]| |[] mb eb]; try discriminate;
      now apply le_Infinity.
  - (* division by Infinity *)
    apply Infinity_le in Hdc. subst c.
    destruct b as [sb|[]| |[] mb eb]; try discriminate;
      destruct a as [sa|[]| |[] ma ea]; try discriminate; reflexivity.
  - destruct (nonneg_cases b Nb) as [[Fb Pb]| ->];
      [|now apply le_Infinity].
    destruct (nonneg_cases a Na) as [[Fa Pa]| ->].
    2:{ apply Infinity_le in Hab. subst b. discriminate. }
    pose proof (div_srounds b false md ed Fb) as Sb.
    pose proof (fval_pos md ed) as Pd.
    assert (0 <= fval b / fval (S754_finite false md ed))%R.
    { unfold fval at 2. apply Rmult_le_pos; [assumption|].
      left. now apply Rinv_0_lt_compat. }
    destruct c as [sc|[]| |[] mc ec]; try discriminate.
    + (* the larger denominator is Infinity *)
      eapply (srounds_mono 0); [|exact Sb|assumption].
      destruct a as [sa|sa| |sa ma ea]; try discriminate;
        now apply (srounds_zero _ _ (xorb sa false)).
    + pose proof (div_srounds a false mc ec Fa) as Sa.
      apply (srounds_mono _ _ _ _ Sa Sb).
      pose proof (fval_pos mc ec) as Pc.
      pose proof (le_fval _ _ Va Vb Fa Fb Hab) as Rab.
      pose proof (le_fval _ _ Vd Vc eq_refl eq_refl Hdc) as Rdc.
      unfold fval at 2 4. unfold fval in Rdc.
      apply Rmult_le_compat; try assumption.
      * left. now apply Rinv_0_lt_compat.
      * now apply Rinv_le_contravar.
Qed.

(** Sums grow with their second term. *)
Lemma add_le_mono_r a b c :
  valid a = true -> valid b = true -> valid c = true ->
  le b c = true ->
  isNaN (a + b)%num = false -> isNaN (a + c)%num = false ->
  le (a + b)%num (a + c)%num = true.
Proof.
  intros Va Vb Vc Hbc Hab Hac.
  destruct (isFinite a) eqn:Fa.
  - destruct (isFinite c) eqn:Fc.
    + destruct (isFinite b) eqn:Fb.
      * apply (srounds_mono (fval a + fval b) _ (fval a + fval c));
          try now apply add_srounds.
        pose proof (le_fval _ _ Vb Vc Fb Fc Hbc). lra.
      * destruct (not_finite_cases b Fb) as [->|[->| ->]].
        -- apply Infinity_le in Hbc. subst c. discriminate.
        -- replace (a + neg_Infinity)%num with neg_Infinity
             by (destruct a; try discriminate; reflexivity).
           now apply le_neg_Infinity.
        -- discriminate.
    + destruct (not_finite_cases c Fc) as [->|[->| ->]].
      * replace (a + Infinity)%num with Infinity
          by (destruct a; try discriminate; reflexivity).
        now apply le_Infinity.
      * apply le_neg_Infinity_inv in Hbc. subst b. now apply le_refl.
      * destruct b; discriminate.
  - destruct (not_finite_cases a Fa) as [->|[->| ->]]; try discriminate.
    + replace (Infinity + b)%num with Infinity
        by (destruct b as [s|[]| |s m e]; try discriminate; reflexivity).
      replace (Infinity + c)%num with Infinity
        by (destruct c as [s|[]| |s m e]; try discriminate; reflexivity).
      reflexivity.
    + replace (neg_Infinity + b)%num with neg_Infinity
        by (destruct b as [s|[]| |s m e]; try discriminate; reflexivity).
      replace (neg_Infinity + c)%num with neg_Infinity
        by (destruct c as [s|[]| |s m e]; try discriminate; reflexivity).
      reflexivity.
Qed.

(** *** [Math.ceil] *)

Lemma Math_ceil_srounds x :
  valid x = true -> isFinite x = true ->
  exists n, (IZR n - 1 < fval x <= IZR n)%R /\ srounds (IZR n) (Math_ceil x).
Proof.
  intros V F. destruct x as [s|s| |s m e]; try discriminate.
  - exists 0. split; [simpl; lra|]. now apply (srounds_zero _ _ s).
  - unfold Math_ceil. destruct (Z.leb_spec 0 e) as [He|He].
    + exists (cond_Zopp s (Zpos m) * 2 ^ e).
      assert (Hv : fval (S754_finite s m e) =
                   IZR (cond_Zopp s (Zpos m) * 2 ^ e)).
      { rewrite mult_IZR, cond_Zopp_IZR, <- pow2_IZR by lia.
        destruct s; unfold fval; lra. }
      rewrite <- Hv. split; [lra|]. now apply valid_srounds.
    + set (z := cond_Zopp s (Zpos m)).
      set (n := - Z.shiftr (- z) (- e)).
      exists n. split.
      * assert (Hn : (n - 1) * 2 ^ (- e) < z <= n * 2 ^ (- e)).
        { unfold n. rewrite Z.shiftr_div_pow2 by lia.
          assert (0 < 2 ^ (- e)) by (apply Z.pow_pos_nonneg; lia).
          generalize dependent (2 ^ (- e)). intros P HP.
          pose proof (Z.div_mod (- z) P ltac:(lia)).
          pose proof (Z.mod_pos_bound (- z) P HP). nia. }
        assert (Hv : fval (S754_finite s m e) = (IZR z * pow2 e)%R).
        { unfold z. rewrite cond_Zopp_IZR. destruct s; unfold fval; lra. }
        rewrite Hv. destruct Hn as [H1 H2].
        apply IZR_lt in H1. apply IZR_le in H2.
        rewrite mult_IZR, minus_IZR in H1. rewrite mult_IZR in H2.
        rewrite <- pow2_IZR in H1, H2 by lia.
        pose proof (pow2_pos e) as Pe. pose proof (pow2_pos (- e)) as Pn.
        assert (E1 : (pow2 (- e) * pow2 e = 1)%R).
        { rewrite <- pow2_add. replace (- e + e) with 0 by lia.
          unfold pow2. simpl. lra. }
        split.
        -- replace (IZR n - 1)%R
             with ((IZR n - 1) * pow2 (- e) * pow2 e)%R
             by (rewrite Rmult_assoc, E1; ring).
           apply Rmult_lt_compat_r; assumption.
        -- replace (IZR n) with (IZR n * pow2 (- e) * pow2 e)%R
             by (rewrite Rmult_assoc, E1; ring).
           apply Rmult_le_compat_r; [lra|assumption].
      * unfold int_result. destruct (Z.eqb_spec n 0) as [->|Hn].
        -- now apply (srounds_zero _ _ s).
        -- apply of_Z_srounds.
Qed.

Lemma Math_ceil_not_NaN x : isNaN (Math_ceil x) = isNaN x.
Proof.
  destruct x as [s|s| |s m e]; try reflexivity.
  unfold Math_ceil. destruct (0 <=? e); [reflexivity|].
  unfold int_result. destruct (_ =? 0); [reflexivity|].
  apply binary_normalize_not_NaN.
Qed.

Lemma Math_ceil_mono x y :
  valid x = true -> valid y = true ->
  le x y = true -> le (Math_ceil x) (Math_ceil y) = true.
Proof.
  intros Vx Vy H. destruct (le_not_NaN _ _ H) as [Nx Ny].
  destruct (isFinite y) eqn:Fy.
  - destruct (isFinite x) eqn:Fx.
    + destruct (Math_ceil_srounds x Vx Fx) as (n & [Hn1 Hn2] & Sx).
      destruct (Math_ceil_srounds y Vy Fy) as (k & [Hk1 Hk2] & Sy).
      apply (srounds_mono _ _ _ _ Sx Sy).
      pose proof (le_fval _ _ Vx Vy Fx Fy H).
      apply IZR_le. assert (IZR (n - 1) < IZR k)%R
        by (rewrite minus_IZR; lra).
      apply lt_IZR in H1. lia.
    + destruct (not_finite_cases x Fx) as [->|[->| ->]];
        try discriminate.
      * apply Infinity_le in H. subst y. discriminate.
      * apply le_neg_Infinity. now rewrite Math_ceil_not_NaN.
  - destruct (not_finite_cases y Fy) as [->|[->| ->]]; try discriminate.
    + apply le_Infinity. now rewrite Math_ceil_not_NaN.
    + apply le_neg_Infinity_inv in H. subst x. reflexivity.
Qed.

Lemma Math_ceil_sign x : has_sign false x -> has_sign false (Math_ceil x).
Proof.
  destruct x as [s|s| |s m e]; simpl; auto.
  intros ->. destruct (0 <=? e) eqn:He; [reflexivity|].
  apply Z.leb_gt in He.
  unfold int_result. unfold cond_Zopp.
  assert (Hn : 0 <= - Z.shiftr (- Zpos m) (- e)).
  { rewrite Z.shiftr_div_pow2 by lia.
    assert (0 < 2 ^ (- e)) by (apply Z.pow_pos_nonneg; lia).
    generalize dependent (2 ^ (- e)). intros P HP.
    pose proof (Z.div_mod (- Zpos m) P ltac:(lia)).
    pose proof (Z.mod_pos_bound (- Zpos m) P HP). nia. }
  destruct (Z.eqb_spec (- Z.shiftr (- Zpos m) (- e)) 0); [reflexivity|].
  apply of_Z_pos_sign. lia.
Qed.

(** *** [Math.max] *)

Lemma Math_max_mono c x y :
  isNaN c = false -> le x y = true ->
  le (Math_max c x) (Math_max c y) = true.
Proof.
  intros Nc H. destruct (le_not_NaN _ _ H) as [Nx Ny].
  destruct (Math_max_cases c x Nc Nx) as [[-> Hx]|[-> Hx]],
           (Math_max_cases c y Nc Ny) as [[-> Hy]|[-> Hy]].
  - now apply le_refl.
  - assumption.
  - eapply le_trans; eauto.
  - assumption.
Qed.

(** ** The sample size is monotone *)

Lemma has_sign_exists x : isNaN x = false -> exists b, has_sign b x.
Proof.
  destruct x as [s|s| |s m e]; try discriminate; intros _; exists s;
    reflexivity.
Qed.

Lemma mul_nonneg a c :
  valid a = true -> valid c = true -> nonneg a -> nonneg c ->
  isNaN (a * c)%num = false -> nonneg (a * c)%num.
Proof.
  intros Va Vc Na Nc H.
  exact (mul_le_mono pos_zero a pos_zero c eq_refl Va eq_refl Vc
           eq_refl Na eq_refl Nc eq_refl H).
Qed.

(** The numerator and the result of [computeSampleSize], as functions of
    the sum of the two quantiles. *)
Definition sample_num (zSum sigma2 : number) : number :=
  (of_Z 2 * zSum * zSum * sigma2)%num.

Definition sample_n (num mdeAbs : number) : number :=
  Math_max (of_Z 2) (Math_ceil (num / (mdeAbs * mdeAbs))%num).

Lemma sample_num_sign zSum sigma2 :
  gt sigma2 pos_zero = true ->
  isNaN (sample_num zSum sigma2) = false ->
  has_sign false (sample_num zSum sigma2).
Proof.
  intros Hs H. unfold sample_num in *.
  destruct (mul_not_NaN _ _ H) as [H1 _].
  destruct (mul_not_NaN _ _ H1) as [H2 Hz].
  destruct (has_sign_exists _ Hz) as [b Hb].
  assert (S2 : has_sign b (of_Z 2 * zSum)%num).
  { destruct (mul_sign false b (of_Z 2) zSum (of_Z_pos_sign 2 eq_refl) Hb)
      as [E|E]; [congruence|exact E]. }
  assert (S3 : has_sign false (of_Z 2 * zSum * zSum)%num).
  { destruct (mul_sign b b _ _ S2 Hb) as [E|E]; [congruence|].
    now rewrite xorb_nilpotent in E. }
  destruct (mul_sign false false _ _ S3 (gt_zero_sign _ Hs)) as [E|E];
    [congruence|exact E].
Qed.

Lemma sample_num_valid zSum sigma2 :
  valid zSum = true -> valid sigma2 = true ->
  valid (sample_num zSum sigma2) = true.
Proof.
  intros Vz Vs. unfold sample_num.
  repeat apply mul_valid; try assumption. reflexivity.
Qed.

Lemma sample_num_mono z1 z2 sigma2 :
  valid z1 = true -> valid z2 = true -> valid sigma2 = true ->
  nonneg z1 -> le z1 z2 = true -> gt sigma2 pos_zero = true ->
  isNaN (sample_num z1 sigma2) = false ->
  isNaN (sample_num z2 sigma2) = false ->
  le (sample_num z1 sigma2) (sample_num z2 sigma2) = true.
Proof.
  intros V1 V2 Vs N1 H12 Hs H1 H2. unfold sample_num in *.
  destruct (mul_not_NaN _ _ H1) as [H1a _].
  destruct (mul_not_NaN _ _ H1a) as [H1b _].
  destruct (mul_not_NaN _ _ H2) as [H2a Hsg].
  destruct (mul_not_NaN _ _ H2a) as [H2b _].
  assert (V2z : valid (of_Z 2) = true) by reflexivity.
  assert (N2z : nonneg (of_Z 2)) by reflexivity.
  assert (L1 : le (of_Z 2 * z1)%num (of_Z 2 * z2)%num = true).
  { apply mul_le_mono; try assumption; reflexivity. }
  assert (Na : nonneg (of_Z 2 * z1)%num) by now apply mul_nonneg.
  assert (L2 : le (of_Z 2 * z1 * z1)%num (of_Z 2 * z2 * z2)%num = true).
  { apply mul_le_mono; try assumption; now apply mul_valid. }
  apply mul_le_mono; try assumption.
  - now repeat apply mul_valid.
  - now repeat apply mul_valid.
  - apply mul_nonneg; try assumption. now apply mul_valid.
  - now apply sign_nonneg, gt_zero_sign.
  - now apply le_refl.
Qed.

Lemma sample_n_not_NaN num mde :
  isNaN (sample_n num mde) = false ->
  isNaN (num / (mde * mde))%num = false.
Proof.
  unfold sample_n. rewrite Math_max_NaN, Math_ceil_not_NaN.
  intros H. now apply orb_false_elim in H as [_ H].
Qed.

Lemma square_sign mde :
  gt mde pos_zero = true -> isNaN (mde * mde)%num = false ->
  has_sign false (mde * mde)%num.
Proof.
  intros H N. apply gt_zero_sign in H.
  destruct (mul_sign false false _ _ H H) as [E|E]; [congruence|exact E].
Qed.

(** [sample_n] shrinks as the effect grows and grows with the
    numerator. *)
Lemma sample_n_mono num1 num2 mde1 mde2 :
  valid num1 = true -> valid num2 = true ->
  valid mde1 = true -> valid mde2 = true ->
  nonneg num1 -> le num1 num2 = true ->
  gt mde2 pos_zero = true -> le mde2 mde1 = true ->
  isNaN (sample_n num1 mde1) = false ->
  isNaN (sample_n num2 mde2) = false ->
  le (sample_n num1 mde1) (sample_n num2 mde2) = true.
Proof.
  intros Vn1 Vn2 Vm1 Vm2 N1 Hn G2 Hm H1 H2.
  apply sample_n_not_NaN in H1, H2.
  destruct (div_not_NaN _ _ H1) as [_ D1], (div_not_NaN _ _ H2) as [_ D2].
  assert (Nm2 : nonneg mde2) by now apply sign_nonneg, gt_zero_sign.
  unfold sample_n. apply Math_max_mono; [reflexivity|].
  apply Math_ceil_mono; try apply div_valid.
  apply div_le_mono; try assumption; try now apply mul_valid.
  - now apply square_sign.
  - now apply mul_le_mono.
Qed.

(** Rounding is symmetric in the sign, so a product changes sign with a
    factor. *)
Lemma binary_round_aux_neg s m e l :
  binary_round_aux prec emax (negb s) m e l
  = neg (binary_round_aux prec emax s m e l).
Proof.
  unfold binary_round_aux.
  destruct (shr_fexp prec emax m e l) as [mrs' e'].
  destruct (shr_fexp prec emax _ e' loc_Exact) as [mrs'' e''].
  destruct (shr_m mrs''); [reflexivity| |reflexivity].
  destruct (e'' <=? emax - prec); reflexivity.
Qed.

Lemma mul_neg_r x y : (x * - y)%num = (- (x * y))%num.
Proof.
  destruct x as [sx|sx| |sx mx ex], y as [sy|sy| |sy my ey];
    try reflexivity; unfold mul, neg, SFmul, SFopp;
    rewrite <- ?negb_xorb_r; try reflexivity.
  apply binary_round_aux_neg.
Qed.

Lemma mul_neg_l x y : (- x * y)%num = (- (x * y))%num.
Proof.
  destruct x as [sx|sx| |sx mx ex], y as [sy|sy| |sy my ey];
    try reflexivity; unfold mul, neg, SFmul, SFopp;
    rewrite <- ?negb_xorb_l; try reflexivity.
  apply binary_round_aux_neg.
Qed.

Lemma neg_valid x : valid x = true -> valid (- x)%num = true.
Proof. destruct x; intros H; exact H. Qed.

(** The numerator squares the sum of the quantiles. *)
Lemma sample_num_neg zSum sigma2 :
  sample_num (- zSum)%num sigma2 = sample_num zSum sigma2.
Proof.
  unfold sample_num.
  rewrite (mul_neg_r (of_Z 2) zSum), mul_neg_l, mul_neg_r, neg_involutive.
  reflexivity.
Qed.

(** Below zero the numerator falls as the sum of the quantiles rises. *)
Lemma sample_num_mono_neg z1 z2 sigma2 :
  valid z1 = true -> valid z2 = true -> valid sigma2 = true ->
  le z1 z2 = true -> le z2 pos_zero = true -> gt sigma2 pos_zero = true ->
  isNaN (sample_num z1 sigma2) = false ->
  isNaN (sample_num z2 sigma2) = false ->
  le (sample_num z2 sigma2) (sample_num z1 sigma2) = true.
Proof.
  intros V1 V2 Vs H12 H2 Hs N1 N2.
  rewrite <- (sample_num_neg z1), <- (sample_num_neg z2).
  apply sample_num_mono.
  - exact (neg_valid z2 V2).
  - exact (neg_valid z1 V1).
  - exact Vs.
  - exact (le_trans pos_zero neg_zero (- z2)%num eq_refl
             (le_neg z2 pos_zero H2)).
  - exact (le_neg z1 z2 H12).
  - exact Hs.
  - rewrite sample_num_neg. exact N2.
  - rewrite sample_num_neg. exact N1.
Qed.

Section SampleSize.

Variable M : MathLib.

Lemma invNorm_valid p : valid (invNorm M p) = true.
Proof.
  unfold invNorm, invNorm_tail. cbv zeta.
  destruct (_ || _); [reflexivity|].
  destruct (lt p plow); [|destruct (gt p phigh)];
    match goal with |- valid (?a / ?b)%num = true => exact (div_valid a b) end.
Qed.

Lemma computeSampleSize_eq sigma2 mde alpha power :
  isNaN (computeSampleSize M sigma2 mde alpha power) = false ->
  gt mde pos_zero = true /\ gt sigma2 pos_zero = true /\
  computeSampleSize M sigma2 mde alpha power =
    sample_n (sample_num (invNorm M (of_Z 1 - alpha / of_Z 2)
                          + invNorm M power) sigma2) mde.
Proof.
  unfold computeSampleSize. cbv zeta.
  destruct (negb (isNaN (invNorm M (of_Z 1 - alpha / of_Z 2)%num)));
    [|discriminate].
  destruct (negb (isNaN (invNorm M power))); [|discriminate].
  destruct (gt mde pos_zero); [|discriminate].
  destruct (gt sigma2 pos_zero); [|discriminate].
  intros _. repeat split.
Qed.

End SampleSize.

(** C5, as the code has it.  For numbers in binary64 form: (1) a larger
    minimal detectable effect never asks for a larger sample, whenever
    both sample sizes are numbers (not NaN); (2) for a fixed effect and
    alpha, a larger power quantile [invNorm power] never asks for a smaller
    sample, whenever the sum [zAlpha + zPower] of the two quantiles is not
    negative and both sample sizes are numbers; (3) and it never asks for
    a larger sample whenever the larger sum [zAlpha + zPower'] is not
    positive.  The sample size depends on the power through its quantile
    only. *)
Theorem computeSampleSize_monotone (M : MathLib)
    (sigma2 alpha power power' mde mde' : number) :
  valid sigma2 = true -> valid mde = true -> valid mde' = true ->
  (le mde mde' = true ->
   isNaN (computeSampleSize M sigma2 mde alpha power) = false ->
   isNaN (computeSampleSize M sigma2 mde' alpha power) = false ->
   le (computeSampleSize M sigma2 mde' alpha power)
      (computeSampleSize M sigma2 mde alpha power) = true) /\
  (le (invNorm M power) (invNorm M power') = true ->
   le pos_zero (invNorm M (of_Z 1 - alpha / of_Z 2)
                + invNorm M power)%num = true ->
   isNaN (computeSampleSize M sigma2 mde alpha power) = false ->
   isNaN (computeSampleSize M sigma2 mde alpha power') = false ->
   le (computeSampleSize M sigma2 mde alpha power)
      (computeSampleSize M sigma2 mde alpha power') = true) /\
  (le (invNorm M power) (invNorm M power') = true ->
   le (invNorm M (of_Z 1 - alpha / of_Z 2)
       + invNorm M power')%num pos_zero = true ->
   isNaN (computeSampleSize M sigma2 mde alpha power) = false ->
   isNaN (computeSampleSize M sigma2 mde alpha power') = false ->
   le (computeSampleSize M sigma2 mde alpha power')
      (computeSampleSize M sigma2 mde alpha power) = true) /\
  (invNorm M power = invNorm M power' ->
   computeSampleSize M sigma2 mde alpha power
   = computeSampleSize M sigma2 mde alpha power').
Proof.
  intros Vs Vm Vm'.
  pose proof (invNorm_valid M (of_Z 1 - alpha / of_Z 2)%num) as VA.
  split; [|split; [|split]].
  - intros Hm H1 H2.
    destruct (computeSampleSize_eq M _ _ _ _ H1) as (G1 & Gs & E1).
    destruct (computeSampleSize_eq M _ _ _ _ H2) as (G2 & _ & E2).
    rewrite E1 in *. rewrite E2 in *. clear E1 E2.
    set (num := sample_num _ sigma2) in *.
    assert (Nn : isNaN num = false)
      by exact (proj1 (div_not_NaN _ _ (sample_n_not_NaN _ _ H1))).
    assert (Vn : valid num = true).
    { apply sample_num_valid; [|assumption].
      apply add_valid; [assumption|apply invNorm_valid]. }
    apply sample_n_mono; try assumption.
    + now apply sign_nonneg, sample_num_sign.
    + now apply le_refl.
  - intros Hp H0 H1 H2.
    destruct (computeSampleSize_eq M _ _ _ _ H1) as (G1 & Gs & E1).
    destruct (computeSampleSize_eq M _ _ _ _ H2) as (_ & _ & E2).
    rewrite E1 in *. rewrite E2 in *. clear E1 E2.
    pose proof (invNorm_valid M power) as VP.
    pose proof (invNorm_valid M power') as VP'.
    set (zA := invNorm M (of_Z 1 - alpha / of_Z 2)%num) in *.
    assert (N1 : isNaN (sample_num (zA + invNorm M power) sigma2) = false)
      by exact (proj1 (div_not_NaN _ _ (sample_n_not_NaN _ _ H1))).
    assert (N2 : isNaN (sample_num (zA + invNorm M power') sigma2) = false)
      by exact (proj1 (div_not_NaN _ _ (sample_n_not_NaN _ _ H2))).
    assert (S1 : isNaN (zA + invNorm M power)%num = false).
    { exact (proj2 (mul_not_NaN _ _ (proj1 (mul_not_NaN _ _ N1)))). }
    assert (S2 : isNaN (zA + invNorm M power')%num = false).
    { exact (proj2 (mul_not_NaN _ _ (proj1 (mul_not_NaN _ _ N2)))). }
    assert (L : le (zA + invNorm M power)%num (zA + invNorm M power')%num
                = true) by now apply add_le_mono_r.
    assert (Ln : le (sample_num (zA + invNorm M power) sigma2)
                    (sample_num (zA + invNorm M power') sigma2) = true).
    { apply sample_num_mono; try assumption; now apply add_valid. }
    apply sample_n_mono; try assumption.
    + apply sample_num_valid; [now apply add_valid|assumption].
    + apply sample_num_valid; [now apply add_valid|assumption].
    + now apply sign_nonneg, sample_num_sign.
    + apply le_refl. now destruct mde.
  - intros Hp H0 H1 H2.
    destruct (computeSampleSize_eq M _ _ _ _ H1) as (G1 & Gs & E1).
    destruct (computeSampleSize_eq M _ _ _ _ H2) as (_ & _ & E2).
    rewrite E1 in *. rewrite E2 in *. clear E1 E2.
    pose proof (invNorm_valid M power) as VP.
    pose proof (invNorm_valid M power') as VP'.
    set (zA := invNorm M (of_Z 1 - alpha / of_Z 2)%num) in *.
    assert (N1 : isNaN (sample_num (zA + invNorm M power) sigma2) = false)
      by exact (proj1 (div_not_NaN _ _ (sample_n_not_NaN _ _ H1))).
    assert (N2 : isNaN (sample_num (zA + invNorm M power') sigma2) = false)
      by exact (proj1 (div_not_NaN _ _ (sample_n_not_NaN _ _ H2))).
    assert (S1 : isNaN (zA + invNorm M power)%num = false).
    { exact (proj2 (mul_not_NaN _ _ (proj1 (mul_not_NaN _ _ N1)))). }
    assert (S2 : isNaN (zA + invNorm M power')%num = false).
    { exact (proj2 (mul_not_NaN _ _ (proj1 (mul_not_NaN _ _ N2)))). }
    assert (L : le (zA + invNorm M power)%num (zA + invNorm M power')%num
                = true) by now apply add_le_mono_r.
    assert (Ln : le (sample_num (zA + invNorm M power') sigma2)
                    (sample_num (zA + invNorm M power) sigma2) = true).
    { apply sample_num_mono_neg; try assumption; now apply add_valid. }
    apply sample_n_mono; try assumption.
    + apply sample_num_valid; [now apply add_valid|assumption].
    + apply sample_num_valid; [now apply add_valid|assumption].
    + now apply sign_nonneg, sample_num_sign.
    + apply le_refl. now destruct mde.
  - intros E. unfold computeSampleSize. cbv zeta. rewrite E. reflexivity.
Qed.

(** With alpha = 0.05 and sigma2 = 100: doubling the effect from 1 to 2
    lowers the sample from 1570 to 393 per arm, and raising the power from
    0.8 to 0.9 raises it from 1570 to 2102.  With alpha = 0.9 the sums of
    the quantiles are negative for the powers 0.1 and 0.4, and the sample
    for 0.4 is not above the sample for 0.1. *)
Lemma computeSampleSize_monotone_witness :
  le (computeSampleSize RefMath.lib (of_Z 100) (of_Z 2) (dec 5 2) (dec 8 1))
     (computeSampleSize RefMath.lib (of_Z 100) (of_Z 1) (dec 5 2) (dec 8 1))
    = true /\
  le (computeSampleSize RefMath.lib (of_Z 100) (of_Z 1) (dec 5 2) (dec 8 1))
     (computeSampleSize RefMath.lib (of_Z 100) (of_Z 1) (dec 5 2) (dec 9 1))
    = true /\
  le (computeSampleSize RefMath.lib (of_Z 100) (of_Z 1) (dec 9 1) (dec 4 1))
     (computeSampleSize RefMath.lib (of_Z 100) (of_Z 1) (dec 9 1) (dec 1 1))
    = true.
Proof.
  destruct (computeSampleSize_monotone RefMath.lib (of_Z 100) (dec 5 2)
              (dec 8 1) (dec 9 1) (of_Z 1) (of_Z 2)
              eq_refl eq_refl eq_refl) as (H1 & H2 & _).
  destruct (computeSampleSize_monotone RefMath.lib (of_Z 100) (dec 9 1)
              (dec 1 1) (dec 4 1) (of_Z 1) (of_Z 1)
              eq_refl eq_refl eq_refl) as (_ & _ & H3 & _).
  split; [|split].
  - apply H1; vm_compute; reflexivity.
  - apply H2; vm_compute; reflexivity.
  - apply H3; vm_compute; reflexivity.
Defined.

(** Raising the power can lower the sample, in two ways.  With alpha =
    0.9 the quantile [zAlpha] is small, and [zAlpha + zPower] is negative
    for a power of 0.1 and closer to zero for a power of 0.4: raising the
    power from 0.1 to 0.4 lowers the sample from 268 to 4 per arm.  And
    [invNorm] is not monotone in binary64: the quantile of the double after
    0.95 is below the quantile of 0.95, so with alpha = 0.05, sigma2 = 1.05
    and an effect of 0.000001, where [zAlpha + zPower] is positive, the
    sample falls from 27288891021854 to 27288891021853. *)
Lemma computeSampleSize_power_decreases :
  (lt (dec 1 1) (dec 4 1) = true /\
   computeSampleSize RefMath.lib (of_Z 100) (of_Z 1) (dec 9 1) (dec 1 1)
     = of_Z 268 /\
   computeSampleSize RefMath.lib (of_Z 100) (of_Z 1) (dec 9 1) (dec 4 1)
     = of_Z 4 /\
   lt (of_Z 4) (of_Z 268) = true) /\
  (let p := dec 95 2 in
   let p' := S754_finite false 8556839292003943 (-53) in
   lt p p' = true /\
   lt (invNorm RefMath.lib p') (invNorm RefMath.lib p) = true /\
   le pos_zero (invNorm RefMath.lib (of_Z 1 - dec 5 2 / of_Z 2)
                + invNorm RefMath.lib p')%num = true /\
   computeSampleSize RefMath.lib (dec 105 2) (dec 1 6) (dec 5 2) p
     = of_Z 27288891021854 /\
   computeSampleSize RefMath.lib (dec 105 2) (dec 1 6) (dec 5 2) p'
     = of_Z 27288891021853 /\
   lt (of_Z 27288891021853) (of_Z 27288891021854) = true).
Proof. vm_compute. repeat split. Qed.

(** ** The generator away from the all-zero state

    Each of the three steps of xorshift32 is a bijection of the 32-bit
    words, so a state that is not zero never becomes zero, every draw is
    positive, and the redraw loops of [boxMuller] end at their first
    round. *)

Lemma toInt32_mod z : Int32.toInt32 z mod 2 ^ 32 = z mod 2 ^ 32.
Proof.
  unfold Int32.toInt32, Int32.two32, Int32.two31.
  change (2 ^ 32) with 4294967296.
  destruct (_ <? _); lia.
Qed.

Lemma testbit_toInt32 z i :
  0 <= i < 32 -> Z.testbit (Int32.toInt32 z) i = Z.testbit z i.
Proof.
  intros Hi.
  rewrite <- (Z.mod_pow2_bits_low (Int32.toInt32 z) 32 i) by lia.
  rewrite toInt32_mod. apply Z.mod_pow2_bits_low. lia.
Qed.

Lemma testbit_toUint32 z i :
  0 <= i -> Z.testbit (Int32.toUint32 z) i
            = if i <? 32 then Z.testbit z i else false.
Proof.
  intros Hi. unfold Int32.toUint32, Int32.two32.
  change 4294967296 with (2 ^ 32).
  destruct (Z.ltb_spec i 32).
  - apply Z.mod_pow2_bits_low. lia.
  - apply Z.mod_pow2_bits_high. lia.
Qed.

Lemma toUint32_zero_bits z :
  Int32.toUint32 z = 0 <->
  forall i, 0 <= i < 32 -> Z.testbit z i = false.
Proof.
  split.
  - intros H i Hi.
    pose proof (testbit_toUint32 z i ltac:(lia)) as T.
    rewrite H, Z.bits_0 in T.
    destruct (Z.ltb_spec i 32); [congruence|lia].
  - intros H. apply Z.bits_inj'. intros n Hn.
    rewrite testbit_toUint32, Z.bits_0 by assumption.
    destruct (Z.ltb_spec n 32); [apply H; lia|reflexivity].
Qed.

Lemma toUint32_idemp z : Int32.toUint32 (Int32.toUint32 z) = Int32.toUint32 z.
Proof. unfold Int32.toUint32, Int32.two32. apply Z.mod_mod. lia. Qed.

Lemma toUint32_toInt32 z : Int32.toUint32 (Int32.toInt32 z) = Int32.toUint32 z.
Proof.
  unfold Int32.toUint32, Int32.two32. change 4294967296 with (2 ^ 32).
  apply toInt32_mod.
Qed.

Lemma testbit_xor a b i :
  0 <= i < 32 ->
  Z.testbit (Int32.xor a b) i = xorb (Z.testbit a i) (Z.testbit b i).
Proof.
  intros Hi. unfold Int32.xor.
  now rewrite testbit_toInt32, Z.lxor_spec, !testbit_toInt32.
Qed.

Lemma testbit_shl a n i :
  0 <= n < 32 -> 0 <= i < 32 ->
  Z.testbit (Int32.shl a n) i
  = if i <? n then false else Z.testbit a (i - n).
Proof.
  intros Hn Hi. unfold Int32.shl.
  rewrite Z.mod_small by lia.
  rewrite testbit_toInt32, Z.shiftl_spec by lia.
  destruct (Z.ltb_spec i n).
  - apply Z.testbit_neg_r. lia.
  - apply testbit_toInt32. lia.
Qed.

Lemma testbit_shru a n i :
  0 <= n < 32 -> 0 <= i < 32 ->
  Z.testbit (Int32.shru a n) i
  = if i + n <? 32 then Z.testbit a (i + n) else false.
Proof.
  intros Hn Hi. unfold Int32.shru.
  rewrite Z.mod_small by lia.
  rewrite Z.shiftr_spec by lia.
  apply testbit_toUint32. lia.
Qed.

Lemma xor_shl_zero s n :
  0 < n < 32 ->
  Int32.toUint32 (Int32.xor s (Int32.shl s n)) = 0 -> Int32.toUint32 s = 0.
Proof.
  intros Hn H. rewrite toUint32_zero_bits in *.
  intros i. induction i as [i IH] using (well_founded_induction (Z.lt_wf 0)).
  intros Hi. pose proof (H i Hi) as Hb.
  rewrite testbit_xor, testbit_shl in Hb by lia.
  destruct (Z.ltb_spec i n).
  - now rewrite xorb_false_r in Hb.
  - rewrite (IH (i - n)) in Hb by lia. now rewrite xorb_false_r in Hb.
Qed.

Lemma xor_shru_zero s n :
  0 < n < 32 ->
  Int32.toUint32 (Int32.xor s (Int32.shru s n)) = 0 -> Int32.toUint32 s = 0.
Proof.
  intros Hn H. rewrite toUint32_zero_bits in *.
  assert (Hd : forall k : nat, forall i,
             0 <= i < 32 -> 32 - Z.of_nat k <= i -> Z.testbit s i = false).
  { induction k as [|k IH]; intros i Hi Hk; [lia|].
    pose proof (H i Hi) as Hb.
    rewrite testbit_xor, testbit_shru in Hb by lia.
    destruct (Z.ltb_spec (i + n) 32).
    - rewrite (IH (i + n)) in Hb by lia. now rewrite xorb_false_r in Hb.
    - now rewrite xorb_false_r in Hb. }
  intros i Hi. apply (Hd 32%nat); lia.
Qed.

Lemma xorshift_unfold s :
  xorshift s
  = Int32.xor (Int32.xor (Int32.xor s (Int32.shl s 13))
                         (Int32.shru (Int32.xor s (Int32.shl s 13)) 17))
              (Int32.shl
                 (Int32.xor (Int32.xor s (Int32.shl s 13))
                            (Int32.shru (Int32.xor s (Int32.shl s 13)) 17))
                 5).
Proof. unfold xorshift. reflexivity. Qed.

Lemma xorshift_nonzero s :
  Int32.toUint32 s <> 0 -> Int32.toUint32 (xorshift s) <> 0.
Proof.
  intros H E. apply H. rewrite xorshift_unfold in E.
  apply xor_shl_zero with (n := 13); [lia|].
  apply xor_shru_zero with (n := 17); [lia|].
  apply xor_shl_zero with (n := 5); [lia|]. exact E.
Qed.

Lemma toUint32_range z : 0 <= Int32.toUint32 z < 4294967296.
Proof. unfold Int32.toUint32, Int32.two32. lia. Qed.

Lemma lt_not_strict_eq a b : lt a b = true -> strict_eq b a = false.
Proof.
  intros H. destruct (lt_not_NaN _ _ H) as [Na Nb].
  apply lt_kle in H; auto.
  unfold strict_eq, SFeqb.
  destruct (SFcompare b a) as [[]|] eqn:E; try reflexivity.
  apply SFcompare_Eq_le in E as [E _]. apply le_kle in E; auto.
  contradiction.
Qed.

Lemma div_finite_not_NaN x s m e :
  isNaN x = false -> isNaN (x / S754_finite s m e)%num = false.
Proof.
  intros H. destruct (isFinite x) eqn:F.
  - eapply srounds_not_NaN. now apply div_srounds.
  - destruct (not_finite_cases x F) as [->|[->| ->]];
      reflexivity || discriminate.
Qed.

Lemma of_Z_mono a b : a <= b -> le (of_Z a) (of_Z b) = true.
Proof.
  intros H. apply (srounds_mono (IZR a) _ (IZR b)); try apply of_Z_srounds.
  now apply IZR_le.
Qed.

Lemma of_Z_valid n : valid (of_Z n) = true.
Proof. eapply srounds_valid, of_Z_srounds. Qed.

(** A draw from a state that is not zero is positive. *)
Lemma rand_positive s :
  Int32.toUint32 s <> 0 ->
  lt pos_zero (rand s).1 = true /\ Int32.toUint32 (rand s).2 <> 0.
Proof.
  intros H. apply xorshift_nonzero in H.
  unfold rand. cbn [fst snd]. split; [|exact H].
  pose proof (toUint32_range (xorshift s)) as R.
  set (n := Int32.toUint32 (xorshift s)) in *.
  apply lt_le_trans with (of_Z 1 / of_Z 4294967295)%num.
  - apply (bool_decide_unpack _). vm_compute. exact I.
  - assert (E : of_Z 4294967295
                = S754_finite false 9007199252643840 (-21)).
    { vm_compute. reflexivity. }
    apply div_le_mono; try apply of_Z_valid.
    + reflexivity.
    + apply of_Z_mono. lia.
    + rewrite E. reflexivity.
    + apply le_refl. rewrite E. reflexivity.
    + apply (bool_decide_unpack _). vm_compute. exact I.
    + rewrite E. apply div_finite_not_NaN.
      eapply srounds_not_NaN, of_Z_srounds.
Qed.

Lemma draw_nonzero_first s :
  Int32.toUint32 s <> 0 -> draw_nonzero 1 s = Some (rand s).
Proof.
  intros H. rewrite draw_nonzero_S.
  destruct (rand_positive s H) as [P _].
  now rewrite (lt_not_strict_eq _ _ P).
Qed.

Lemma boxMuller_eq M fuel s u s1 v s2 :
  draw_nonzero fuel s = Some (u, s1) ->
  draw_nonzero fuel s1 = Some (v, s2) ->
  boxMuller M fuel s
  = Some ((Math_sqrt (of_Z (-2) * Math_log M u)
           * Math_cos M (of_Z 2 * Math_PI * v))%num, s2).
Proof.
  intros E1 E2. unfold boxMuller. rewrite E1. cbn [mbind option_bind].
  rewrite E2. reflexivity.
Qed.

(** From a state that is not zero [boxMuller] returns after two draws,
    in a state that is not zero. *)
Lemma boxMuller_returns M s :
  Int32.toUint32 s <> 0 ->
  exists g s', boxMuller M 1 s = Some (g, s') /\ Int32.toUint32 s' <> 0.
Proof.
  intros H.
  pose proof (draw_nonzero_first s H) as E1.
  destruct (rand_positive s H) as [_ H1].
  destruct (rand s) as [u s1]. cbn [snd] in H1.
  pose proof (draw_nonzero_first s1 H1) as E2.
  destruct (rand_positive s1 H1) as [_ H2].
  destruct (rand s1) as [v s2]. cbn [snd] in H2.
  exists (Math_sqrt (of_Z (-2) * Math_log M u)
          * Math_cos M (of_Z 2 * Math_PI * v))%num, s2.
  split; [exact (boxMuller_eq M 1 s u s1 v s2 E1 E2)|exact H2].
Qed.

(** ** Streams from a seed that is not zero *)

Lemma rand_le_one s : le (rand s).1 (of_Z 1) = true.
Proof.
  unfold rand. cbn [fst].
  pose proof (toUint32_range (xorshift s)) as R.
  set (n := Int32.toUint32 (xorshift s)) in *.
  assert (E : of_Z 4294967295
              = S754_finite false 9007199252643840 (-21)).
  { vm_compute. reflexivity. }
  assert (E1 : (of_Z 4294967295 / of_Z 4294967295)%num = of_Z 1).
  { vm_compute. reflexivity. }
  rewrite <- E1.
  apply div_le_mono; try apply of_Z_valid.
  - apply (of_Z_mono 0 n). lia.
  - apply of_Z_mono. lia.
  - rewrite E. reflexivity.
  - apply le_refl. rewrite E. reflexivity.
  - rewrite E. apply div_finite_not_NaN.
    eapply srounds_not_NaN, of_Z_srounds.
  - rewrite E1. reflexivity.
Qed.

Lemma draws_S n s : draws (S n) s = (rand s).1 :: draws n (rand s).2.
Proof. cbn [draws]. now destruct (rand s). Qed.

Lemma draws_unit n : forall s,
  Int32.toUint32 s <> 0 ->
  Forall (fun u => lt pos_zero u = true /\ le u (of_Z 1) = true) (draws n s).
Proof.
  induction n as [|n IH]; intros s H; [constructor|].
  rewrite draws_S. destruct (rand_positive s H) as [P N].
  constructor; [split; [exact P|apply rand_le_one]|now apply IH].
Qed.

Lemma createPRNG_state seed :
  createPRNG seed <> 0 -> Int32.toUint32 (createPRNG seed) <> 0.
Proof. unfold createPRNG. now rewrite toUint32_idemp. Qed.

(** X1.  Each round of xorshift32 maps a state that is not zero to a state
    that is not zero: a generator made from a seed that is not a multiple
    of 2^32 never reaches the all-zero state. *)
Theorem createPRNG_state_never_zero (seed : Z) (n : nat) :
  createPRNG seed <> 0 ->
  Int32.toUint32 (Nat.iter n xorshift (createPRNG seed)) <> 0.
Proof.
  intros H. apply createPRNG_state in H.
  induction n as [|n IH]; [exact H|].
  rewrite Nat.iter_succ. now apply xorshift_nonzero.
Qed.

Lemma createPRNG_state_never_zero_witness :
  createPRNG 42 <> 0 /\
  Int32.toUint32 (Nat.iter 5 xorshift (createPRNG 42)) <> 0.
Proof.
  assert (H : createPRNG 42 <> 0) by (vm_compute; discriminate).
  split; [exact H|exact (createPRNG_state_never_zero 42 5 H)].
Defined.

(** X2.  Every number drawn from a generator whose seed is not a multiple
    of 2^32 is greater than 0 and at most 1 (the divisor is 2^32 - 1, so 1
    itself can be drawn). *)
Theorem rand_draws_in_unit_interval (seed : Z) (n : nat) :
  createPRNG seed <> 0 ->
  Forall (fun u => lt pos_zero u = true /\ le u (of_Z 1) = true)
         (draws n (createPRNG seed)).
Proof. intros H. now apply draws_unit, createPRNG_state. Qed.

Lemma rand_draws_in_unit_interval_witness :
  createPRNG 42 <> 0 /\
  Forall (fun u => lt pos_zero u = true /\ le u (of_Z 1) = true)
         (draws 3 (createPRNG 42)).
Proof.
  assert (H : createPRNG 42 <> 0) by (vm_compute; discriminate).
  split; [exact H|exact (rand_draws_in_unit_interval 42 3 H)].
Defined.

(** X3.  From a seed that is not a multiple of 2^32 both redraw loops of
    [boxMuller] end at their first round: the call returns, whatever the
    bound on the rounds, the value made from the first two draws. *)
Theorem boxMuller_uses_two_draws (M : MathLib) (seed : Z) (fuel : nat) :
  createPRNG seed <> 0 ->
  boxMuller M (S fuel) (createPRNG seed)
  = Some ((Math_sqrt (of_Z (-2) * Math_log M (rand (createPRNG seed)).1)
           * Math_cos M (of_Z 2 * Math_PI
                         * (rand (rand (createPRNG seed)).2).1))%num,
          (rand (rand (createPRNG seed)).2).2).
Proof.
  intros H. apply createPRNG_state in H.
  apply (boxMuller_more M 1 (S fuel) ltac:(lia)).
  destruct (rand_positive _ H) as [_ H1].
  apply (boxMuller_eq M 1 _ _ (rand (createPRNG seed)).2).
  - rewrite (draw_nonzero_first _ H). now destruct (rand (createPRNG seed)).
  - rewrite (draw_nonzero_first _ H1).
    now destruct (rand (rand (createPRNG seed)).2).
Qed.

Lemma boxMuller_uses_two_draws_witness :
  createPRNG 42 <> 0 /\
  is_Some (boxMuller RefMath.lib 3 (createPRNG 42)).
Proof.
  assert (H : createPRNG 42 <> 0) by (vm_compute; discriminate).
  split; [exact H|].
  rewrite (boxMuller_uses_two_draws RefMath.lib 42 2 H). eauto.
Defined.

(** ** [simulateAB] returns *)

Lemma metric_sum_frame (h h' : heap) k (data : list loc) :
  (forall row, row ∈ data -> h' !! row = h !! row) ->
  metric_sum h' k data = metric_sum h k data.
Proof.
  unfold metric_sum. generalize pos_zero.
  induction data as [|d data IH]; intros a H; [reflexivity|].
  cbn [fold_left].
  assert (E : get_num h' d k = get_num h d k).
  { unfold get_num. f_equal. apply get_lookup_eq, H. left. }
  rewrite E. apply IH. intros row Hr. apply H. now right.
Qed.

Lemma mixedSeed_frame (h h' : heap) k (data : list loc) seed :
  (forall row, row ∈ data -> h' !! row = h !! row) ->
  mixedSeed h' k data seed = mixedSeed h k data seed.
Proof. intros H. unfold mixedSeed. now rewrite (metric_sum_frame h h'). Qed.

Lemma createPRNG_toUint32 x : createPRNG (Int32.toUint32 x) = Int32.toUint32 x.
Proof. unfold createPRNG. apply toUint32_idemp. Qed.

Lemma createPRNG_toUint32_state x :
  Int32.toUint32 x <> 0 -> Int32.toUint32 (createPRNG (Int32.toUint32 x)) <> 0.
Proof. intros H. now rewrite createPRNG_toUint32, toUint32_idemp. Qed.

Lemma createPRNG_toUint32_ne x :
  createPRNG (Int32.toUint32 x) <> 0 -> Int32.toUint32 x <> 0.
Proof. now rewrite createPRNG_toUint32. Qed.

Section SimulationReturns.

Variable M : MathLib.
Variables (seed : Z) (splitC splitT : number).

(** A bound on the redraw rounds that is enough away from the all-zero
    state. *)
Variable fuel : nat.
Hypothesis boxMuller_enough : forall s,
  Int32.toUint32 s <> 0 ->
  exists g s', boxMuller M fuel s = Some (g, s') /\ Int32.toUint32 s' <> 0.

(** The generator of day [i] for the metric [k] does not start at zero. *)
Local Abbreviation day_seed_ok k i :=
  (Int32.toUint32 (Int32.xor (Int32.xor seed (hashStr k)) (Z.of_nat i)) <> 0).

Lemma sim_day_eq k muC_pre lift (h : heap) acc i o g1 r1 g2 r2 :
  boxMuller M fuel
    (createPRNG (Int32.toUint32
       (Int32.xor (Int32.xor seed (hashStr k)) (Z.of_nat i))))
  = Some (g1, r1) ->
  boxMuller M fuel r1 = Some (g2, r2) ->
  is_Some (sim_day M fuel k seed splitC splitT muC_pre lift (h, acc) (i, o)).
Proof.
  intros E1 E2. unfold sim_day. cbv zeta.
  destruct (String.eqb k "DAU"); [eexists; reflexivity|].
  rewrite E1. cbn [mbind option_bind].
  rewrite E2. cbn [mbind option_bind].
  eexists; reflexivity.
Qed.

Lemma sim_day_DAU muC_pre lift (h : heap) acc i o :
  is_Some (sim_day M fuel "DAU" seed splitC splitT muC_pre lift
                   (h, acc) (i, o)).
Proof. unfold sim_day. cbv zeta. eexists; reflexivity. Qed.

Lemma sim_day_returns k muC_pre lift st i o :
  (k <> "DAU" -> day_seed_ok k i) ->
  is_Some (sim_day M fuel k seed splitC splitT muC_pre lift st (i, o)).
Proof.
  intros H. destruct st as [h acc].
  destruct (String.eqb_spec k "DAU") as [->|E]; [apply sim_day_DAU|].
  specialize (H E).
  assert (Hr : Int32.toUint32
                 (createPRNG (Int32.toUint32
                    (Int32.xor (Int32.xor seed (hashStr k)) (Z.of_nat i))))
               <> 0)
    by exact (createPRNG_toUint32_state _ H).
  destruct (boxMuller_enough _ Hr) as (g1 & r1 & E1 & H1).
  destruct (boxMuller_enough _ H1) as (g2 & r2 & E2 & _).
  exact (sim_day_eq k muC_pre lift h acc i o g1 r1 g2 r2 E1 E2).
Qed.

Lemma day_loop_returns k muC_pre lift (L : list (nat * loc)) :
  (forall io, io ∈ L -> k <> "DAU" -> day_seed_ok k io.1) ->
  forall st,
    is_Some (foldM (sim_day M fuel k seed splitC splitT muC_pre lift) L st).
Proof.
  induction L as [|[i o] L IH]; intros H st; cbn [foldM];
    [eexists; reflexivity|].
  destruct (sim_day_returns k muC_pre lift st i o) as [st' E].
  { apply (H (i, o)). left. }
  rewrite E. cbn [mbind option_bind]. apply IH.
  intros io Hio. apply H. now right.
Qed.

Lemma lift_used_returns (h : heap) k (data : list loc) enforce :
  createPRNG (mixedSeed h k data seed) <> 0 ->
  is_Some (lift_used M fuel h k data seed enforce).
Proof.
  intros H. apply createPRNG_state in H.
  destruct (boxMuller_enough _ H) as (g & s' & E & _).
  unfold lift_used, deriveDataDrivenLift. cbv zeta.
  rewrite E. cbn [mbind option_bind]. eexists; reflexivity.
Qed.

Lemma sim_metric_returns (data out : list loc) startIndex enforce
    (h : heap) aggs m :
  createPRNG (mixedSeed h (key m) data seed) <> 0 ->
  (forall i, (startIndex <= i < length out)%nat -> key m <> "DAU" ->
             day_seed_ok (key m) i) ->
  is_Some (sim_metric M fuel data out seed splitC splitT startIndex enforce
                      (h, aggs) m).
Proof.
  intros Hl Hd. unfold sim_metric. cbv zeta.
  destruct (lift_used_returns h (key m) data enforce Hl) as [lift E].
  rewrite E. cbn [mbind option_bind].
  destruct (day_loop_returns (key m)
              (basePerUserUntil h (key m) data startIndex) lift
              (drop startIndex (indexed out))) with
    (st := (fold_left (clear_row (key m)) out h,
            {| sumC := pos_zero; sumE := pos_zero;
               NtotC := pos_zero; NtotT := pos_zero |}))
    as [[h2 acc] E2].
  { intros [i o] Hio. apply elem_of_window in Hio as [Ho Hi].
    apply Hd. split; [exact Hi|]. now apply lookup_lt_Some in Ho. }
  rewrite E2. cbn [mbind option_bind]. eexists; reflexivity.
Qed.

Lemma metrics_return (data out : list loc) startIndex enforce (h0 : heap)
    (ms : list metric) :
  NoDup out ->
  (forall row, row ∈ data -> row ∉ out) ->
  (forall m, m ∈ ms -> createPRNG (mixedSeed h0 (key m) data seed) <> 0) ->
  (forall m i, m ∈ ms -> (startIndex <= i < length out)%nat ->
               key m <> "DAU" -> day_seed_ok (key m) i) ->
  forall (h : heap) aggs,
    (forall row, row ∈ data -> h !! row = h0 !! row) ->
    is_Some (foldM (sim_metric M fuel data out seed splitC splitT startIndex
                               enforce) ms (h, aggs)).
Proof.
  intros Hnd Hout. induction ms as [|m ms IH]; intros Hl Hd h aggs Hh;
    cbn [foldM]; [eexists; reflexivity|].
  destruct (sim_metric_returns data out startIndex enforce h aggs m)
    as [[h1 aggs1] E].
  { rewrite (mixedSeed_frame h0 h) by exact Hh. apply Hl. left. }
  { intros i Hi. apply Hd; [left|exact Hi]. }
  rewrite E. cbn [mbind option_bind]. apply IH.
  - intros m' Hm'. apply Hl. now right.
  - intros m' i Hm'. apply Hd. now right.
  - intros row Hr. rewrite <- (Hh row Hr).
    destruct (sim_metric_spec M fuel data out seed splitC splitT startIndex
                enforce Hnd _ _ _ _ _ E) as ([Hfr _] & _).
    apply Hfr. now apply Hout.
Qed.

Lemma simulateAB_returns_first (h : heap) (data : list loc) testLen enforce :
  (forall row, row ∈ data -> row ∈ dom h) ->
  (forall m, m ∈ METRICS ->
             createPRNG (mixedSeed h (key m) data seed) <> 0) ->
  (forall m i, m ∈ METRICS ->
     (Z.to_nat (Z.max 0 (Z.of_nat (length data) - testLen)) <= i
      < length data)%nat ->
     key m <> "DAU" -> day_seed_ok (key m) i) ->
  is_Some (simulateAB M fuel h data seed splitC splitT testLen enforce).
Proof.
  intros Hdom Hl Hd. unfold simulateAB. cbv zeta.
  destruct (copy_rows h data) as [h1 out] eqn:Hc.
  destruct (copy_rows_spec data h h1 out Hc) as (Hlen & Hnd & Hnew & Hold & _).
  destruct (metrics_return data out
              (Z.to_nat (Z.max 0 (Z.of_nat (length data) - testLen)))
              enforce h METRICS Hnd) with (h := h1)
    (aggs := (∅ : gmap string aggregate)) as [[h2 aggs] E].
  - intros row Hr Ho. apply Hnew in Ho as [Ho _]. apply Ho. now apply Hdom.
  - exact Hl.
  - intros m i Hm Hi. apply Hd; [exact Hm|]. rewrite Hlen in Hi. exact Hi.
  - intros row Hr. apply Hold. now apply Hdom.
  - rewrite E. cbn [mbind option_bind]. eexists; reflexivity.
Qed.

End SimulationReturns.

(** X4.  For a window of a whole number of days, [simulateAB] returns,
    with any bound of at least one round on the redraw loops, as soon as
    no generator it makes starts in the all-zero state: the one seeding
    each metric's lift, and for each metric other than DAU the one of each
    day of the window (the days before the window get no generator). *)
Theorem simulateAB_returns (M : MathLib) (fuel : nat) (h : heap)
  (data : list loc) (seed : Z) (splitC splitT : number) (testLen : Z)
  (enforceNoDecline : bool) :
  (forall row, row ∈ data -> row ∈ dom h) ->
  (forall m, m ∈ METRICS ->
             createPRNG (mixedSeed h (key m) data seed) <> 0) ->
  (forall m i, m ∈ METRICS ->
     (Z.to_nat (Z.max 0 (Z.of_nat (length data) - testLen)) <= i
      < length data)%nat ->
     key m <> "DAU" ->
     createPRNG (Int32.toUint32
                   (Int32.xor (Int32.xor seed (hashStr (key m)))
                              (Z.of_nat i))) <> 0) ->
  is_Some (simulateAB M (S fuel) h data seed splitC splitT testLen
                      enforceNoDecline).
Proof.
  intros Hdom Hl Hd.
  apply (simulateAB_returns_first M seed splitC splitT (S fuel)); try assumption.
  - intros s Hs. destruct (boxMuller_returns M s Hs) as (g & s' & E & Hs').
    exists g, s'. split; [|exact Hs'].
    now apply (boxMuller_more M 1 (S fuel) ltac:(lia)).
  - intros m i Hm Hi Hk. specialize (Hd m i Hm Hi Hk).
    exact (createPRNG_toUint32_ne _ Hd).
Qed.

(** The seed 85707 is the hash of "WAU": the generator of day 0 for WAU
    would start at zero, but with a window of the last two of three days
    no generator is made for day 0. *)
Lemma example_seeds_not_zero :
  createPRNG (Int32.toUint32
                (Int32.xor (Int32.xor 85707 (hashStr "WAU")) (Z.of_nat 0)))
  = 0 /\
  Forall (fun m =>
            createPRNG (mixedSeed example_heap (key m) example_data 85707)
            <> 0 /\
            Forall (fun i =>
                      createPRNG (Int32.toUint32
                        (Int32.xor (Int32.xor 85707 (hashStr (key m)))
                                   (Z.of_nat i))) <> 0)
                   [1; 2]%nat)
         METRICS.
Proof.
  split; [vm_compute; reflexivity|].
  unfold METRICS. repeat constructor; vm_compute; discriminate.
Qed.

Lemma simulateAB_returns_witness :
  createPRNG (Int32.toUint32
                (Int32.xor (Int32.xor 85707 (hashStr "WAU")) (Z.of_nat 0)))
  = 0 /\
  is_Some (simulateAB RefMath.lib 3 example_heap example_data 85707
                      (dec 5 1) (dec 5 1) 2 true).
Proof.
  destruct example_seeds_not_zero as [Z0 F].
  pose proof (proj1 (Forall_forall _ _) F) as H.
  split; [exact Z0|].
  apply (simulateAB_returns RefMath.lib 2 example_heap example_data 85707).
  - intros row Hr. apply (bool_decide_unpack _).
    unfold example_data in Hr.
    repeat (apply elem_of_cons in Hr as [->|Hr]; [vm_compute; exact I|]).
    now apply elem_of_nil in Hr.
  - intros m Hm. exact (proj1 (H m Hm)).
  - intros m i Hm Hi _. pose proof (proj2 (H m Hm)) as Hf.
    rewrite Forall_forall in Hf. apply Hf.
    change (length example_data) with 3%nat in Hi.
    change (Z.to_nat (Z.max 0 (Z.of_nat 3 - 2))) with 1%nat in Hi.
    destruct i as [|[|[|i]]]; [lia| | |lia];
      repeat first [apply list_elem_of_here|apply list_elem_of_further].
Defined.

(** ** [hashStr] is the polynomial hash with multiplier 31 *)

(** Horner's rule for the characters of [s], from the value [h], over the
    integers. *)
Fixpoint hash31 (h : Z) (s : string) : Z :=
  match s with
  | EmptyString => h
  | String c s' => hash31 (31 * h + charCode c) s'
  end.

Lemma toInt32_congr z : Int32.toInt32 z mod 4294967296 = z mod 4294967296.
Proof. exact (toInt32_mod z). Qed.

Lemma shl5_congr h :
  Int32.shl h 5 mod 4294967296 = (32 * h) mod 4294967296.
Proof.
  unfold Int32.shl. rewrite toInt32_congr.
  change (5 mod 32) with 5. rewrite Z.shiftl_mul_pow2 by lia.
  change (2 ^ 5) with 32.
  pose proof (toInt32_congr h). lia.
Qed.

Lemma hashStr_loop_congr s : forall h1 h2,
  h1 mod 4294967296 = h2 mod 4294967296 ->
  hashStr_loop h1 s mod 4294967296 = hash31 h2 s mod 4294967296.
Proof.
  induction s as [|c s IH]; intros h1 h2 H; [exact H|].
  cbn [hashStr_loop hash31]. apply IH.
  rewrite toInt32_congr. pose proof (shl5_congr h1). lia.
Qed.

(** X5.  [hashStr] computes the hash h <- 31 h + code over the characters,
    reduced modulo 2^32: the shift-and-subtract and the [| 0] of each round
    lose nothing of it, and the result is an unsigned 32-bit integer. *)
Theorem hashStr_polynomial (s : string) :
  hashStr s = hash31 0 s mod 2 ^ 32 /\ 0 <= hashStr s < 2 ^ 32.
Proof.
  change (2 ^ 32) with 4294967296. unfold hashStr, Int32.toUint32, Int32.two32.
  split; [now apply hashStr_loop_congr|].
  apply Z.mod_pos_bound. lia.
Qed.

(** ** [clamp] *)

Lemma kle_antisym a b : kle a b -> kle b a -> a = b.
Proof.
  destruct a as [a1 [a2 a3]], b as [b1 [b2 b3]]. unfold kle. cbn [fst snd].
  intros H1 H2. assert (a1 = b1 /\ a2 = b2 /\ a3 = b3) as (-> & -> & ->) by lia.
  reflexivity.
Qed.

Lemma le_antisym_eq x y :
  le x y = true -> le y x = true -> strict_eq x y = true.
Proof.
  intros H1 H2. destruct (le_not_NaN _ _ H1) as [Nx Ny].
  apply le_kle in H1, H2; auto.
  unfold strict_eq, SFeqb. rewrite (SFcompare_ckey _ _ Nx Ny).
  rewrite (kle_antisym _ _ H1 H2). unfold kcmp. now rewrite !Z.compare_refl.
Qed.

(** Two numbers each at most the other are the same number, or two
    zeros. *)
Lemma le_antisym x y :
  le x y = true -> le y x = true ->
  x = y \/ (is_zero x = true /\ is_zero y = true).
Proof.
  intros H1 H2. destruct (le_not_NaN _ _ H1) as [Nx Ny].
  apply le_kle in H1, H2; auto.
  pose proof (kle_antisym _ _ H1 H2) as E.
  destruct x as [sx|[]| |[] mx ex], y as [sy|[]| |[] my ey];
    try discriminate; auto; cbn [ckey] in E; try discriminate E;
    left; injection E as E1 E2; try subst; try reflexivity.
  assert (ex = ey) by lia. subst. reflexivity.
Qed.

Lemma clamp_between (x lo hi : number) :
  isNaN x = false -> le lo hi = true ->
  le lo (clamp x lo hi) = true /\
  le (clamp x lo hi) hi = true /\
  (le lo x = true -> le x hi = true -> strict_eq (clamp x lo hi) x = true).
Proof.
  intros Nx H. destruct (le_not_NaN _ _ H) as [Nlo Nhi]. unfold clamp.
  assert (Nm : isNaN (Math_min hi x) = false)
    by (rewrite Math_min_NaN, Nhi, Nx; reflexivity).
  split; [now apply Math_max_ge_l|]. split.
  - destruct (Math_max_cases lo (Math_min hi x) Nlo Nm) as [[-> _]|[-> _]];
      [exact H|now apply Math_min_le_l].
  - intros Hlo Hhi.
    assert (Hmx : le (Math_min hi x) x = true) by now apply Math_min_le_r.
    assert (Hxm : le x (Math_min hi x) = true).
    { destruct (Math_min_cases hi x Nhi Nx) as [[-> _]|[-> _]];
        [exact Hhi|now apply le_refl]. }
    apply le_antisym_eq.
    + destruct (Math_max_cases lo (Math_min hi x) Nlo Nm) as [[-> _]|[-> _]];
        assumption.
    + eapply le_trans; [exact Hxm|]. now apply Math_max_ge_r.
Qed.

(** X6.  [clamp(x, lo, hi)] with [lo <= hi] and [x] a number lies between
    [lo] and [hi], and is [x] itself when [x] does. *)
Theorem clamp_bounds (x lo hi : number) :
  isNaN x = false -> le lo hi = true ->
  le lo (clamp x lo hi) = true /\
  le (clamp x lo hi) hi = true /\
  (le lo x = true -> le x hi = true -> strict_eq (clamp x lo hi) x = true).
Proof. apply clamp_between. Qed.

Lemma clamp_bounds_witness :
  le pos_zero (clamp (dec 15 1) pos_zero (of_Z 1)) = true /\
  le (clamp (dec 15 1) pos_zero (of_Z 1)) (of_Z 1) = true.
Proof.
  destruct (clamp_bounds (dec 15 1) pos_zero (of_Z 1) eq_refl eq_refl)
    as (H1 & H2 & _).
  split; assumption.
Defined.

(** X7.  The lift [deriveDataDrivenLift] returns is a number between -0.5
    and 2, or NaN (when the Gaussian draw is). *)
Theorem deriveDataDrivenLift_range (M : MathLib) (fuel : nat) (h : heap)
  (k : string) (data : list loc) (seed : Z) (l : number) :
  deriveDataDrivenLift M fuel h k data seed = Some l ->
  l = NaN \/ (le (- dec 5 1)%num l = true /\ le l (of_Z 2) = true).
Proof.
  unfold deriveDataDrivenLift. cbv zeta.
  destruct (boxMuller M fuel _) as [[g s]|]; cbn [mbind option_bind];
    [|discriminate].
  intros E. apply Some_eq_inj in E. subst l.
  destruct (isNaN (dec 10 2 + dec 10 2 * g)%num) eqn:N.
  - left. unfold clamp.
    assert (E : (dec 10 2 + dec 10 2 * g)%num = NaN)
      by (destruct (dec 10 2 + dec 10 2 * g)%num; try discriminate; reflexivity).
    rewrite E. reflexivity.
  - right.
    assert (Hb : le (- dec 5 1)%num (of_Z 2) = true)
      by (vm_compute; reflexivity).
    destruct (clamp_between _ _ _ N Hb) as (H1 & H2 & _). split; assumption.
Qed.

Lemma deriveDataDrivenLift_range_witness :
  is_Some (deriveDataDrivenLift RefMath.lib 1 example_heap "Shares"
                                example_data 42) /\
  le (- dec 5 1)%num
     (default NaN (deriveDataDrivenLift RefMath.lib 1 example_heap "Shares"
                                        example_data 42)) = true.
Proof.
  assert (S : is_Some (deriveDataDrivenLift RefMath.lib 1 example_heap
                         "Shares" example_data 42)).
  { apply (bool_decide_unpack _). vm_compute. exact I. }
  split; [exact S|]. destruct S as [l E].
  destruct (deriveDataDrivenLift_range _ _ _ _ _ _ _ E) as [N|[H _]].
  - exfalso. rewrite N in E. vm_compute in E. discriminate E.
  - rewrite E. exact H.
Defined.

(** ** The shape of a sample size *)

Lemma isNaN_eq x : isNaN x = true -> x = NaN.
Proof. destruct x; try discriminate; reflexivity. Qed.

Lemma sub_add_neg x y : (x - y)%num = (x + - y)%num.
Proof.
  destruct x as [[]|[]| |sx mx ex], y as [[]|[]| |sy my ey]; try reflexivity.
  unfold sub, add, neg, SFsub, SFadd, SFopp. f_equal.
  destruct sy; cbn [negb cond_Zopp]; lia.
Qed.

(** Rounding the same real gives the same number, or two zeros. *)
Lemma srounds_unique v x y :
  srounds v x -> srounds v y ->
  x = y \/ (is_zero x = true /\ is_zero y = true).
Proof.
  intros Hx Hy. apply le_antisym.
  - apply (srounds_mono v x v y Hx Hy). lra.
  - apply (srounds_mono v y v x Hy Hx). lra.
Qed.

(** [Math.ceil] of a number is an integer, a zero or an infinity. *)
Lemma Math_ceil_integer x :
  valid x = true -> isNaN x = false ->
  is_zero (Math_ceil x) = true \/ Math_ceil x = Infinity \/
  Math_ceil x = neg_Infinity \/ exists k, Math_ceil x = of_Z k.
Proof.
  intros V N. destruct (isFinite x) eqn:F.
  - destruct (Math_ceil_srounds x V F) as (k & _ & S).
    destruct (srounds_unique _ _ _ S (of_Z_srounds k)) as [E|[Z _]]; eauto.
  - destruct (not_finite_cases x F) as [->|[->| ->]]; auto; discriminate.
Qed.

(** The shape of a result of [computeSampleSize]. *)
Lemma computeSampleSize_cases (M : MathLib)
    (sigma2 mdeAbs alpha power : number) :
  computeSampleSize M sigma2 mdeAbs alpha power = NaN \/
  computeSampleSize M sigma2 mdeAbs alpha power = Infinity \/
  exists k, 2 <= k /\
            computeSampleSize M sigma2 mdeAbs alpha power = of_Z k.
Proof.
  destruct (isNaN (computeSampleSize M sigma2 mdeAbs alpha power)) eqn:N;
    [left; now apply isNaN_eq|right].
  destruct (computeSampleSize_eq M _ _ _ _ N) as (_ & _ & E).
  rewrite E in *. clear E. unfold sample_n in *.
  set (q := (_ / (mdeAbs * mdeAbs))%num) in *.
  rewrite Math_max_NaN, Math_ceil_not_NaN in N.
  apply orb_false_elim in N as [_ Nq].
  assert (Nc : isNaN (Math_ceil q) = false) by now rewrite Math_ceil_not_NaN.
  destruct (Math_max_cases (of_Z 2) (Math_ceil q) eq_refl Nc)
    as [[-> _]|[-> H]].
  { right. exists 2. split; [lia|reflexivity]. }
  destruct (Math_ceil_integer q (div_valid _ _) Nq) as [Z|[I|[I|[k Ek]]]].
  - destruct (Math_ceil q); discriminate.
  - now left.
  - rewrite I in H. discriminate.
  - right. exists k. split; [|exact Ek].
    destruct (Z_le_gt_dec 2 k) as [L|G]; [exact L|exfalso].
    rewrite Ek in H.
    assert (C : le (of_Z 2) (of_Z 1) = true)
      by (eapply le_trans; [exact H|apply of_Z_mono; lia]).
    discriminate C.
Qed.

(** X8.  [computeSampleSize] returns NaN, Infinity, or an integer that is
    at least 2. *)
Theorem computeSampleSize_shape (M : MathLib)
    (sigma2 mdeAbs alpha power : number) :
  computeSampleSize M sigma2 mdeAbs alpha power = NaN \/
  computeSampleSize M sigma2 mdeAbs alpha power = Infinity \/
  exists k, 2 <= k /\
            computeSampleSize M sigma2 mdeAbs alpha power = of_Z k.
Proof. apply computeSampleSize_cases. Qed.

(** ** Arguments [computeSampleSize] rejects *)

(** Quotients by a positive finite number grow with the numerator,
    whatever its sign. *)
Lemma div_le_mono_l a b m e :
  valid a = true -> valid b = true -> le a b = true ->
  le (a / S754_finite false m e)%num (b / S754_finite false m e)%num = true.
Proof.
  intros Va Vb H. destruct (le_not_NaN _ _ H) as [Na Nb].
  pose proof (fval_pos m e) as P.
  destruct (isFinite b) eqn:Fb.
  - destruct (isFinite a) eqn:Fa.
    + apply (srounds_mono _ _ _ _ (div_srounds a false m e Fa)
                           (div_srounds b false m e Fb)).
      pose proof (le_fval _ _ Va Vb Fa Fb H).
      unfold fval at 2 4. apply Rmult_le_compat_r; [|assumption].
      left. now apply Rinv_0_lt_compat.
    + destruct (not_finite_cases a Fa) as [->|[->| ->]]; try discriminate.
      * apply Infinity_le in H. subst b. discriminate.
      * apply le_neg_Infinity. now apply div_finite_not_NaN.
  - destruct (not_finite_cases b Fb) as [->|[->| ->]]; try discriminate.
    + apply le_Infinity. now apply div_finite_not_NaN.
    + apply le_neg_Infinity_inv in H. subst a. reflexivity.
Qed.

(** Differences shrink as the subtrahend grows. *)
Lemma sub_le_mono_r a b c :
  valid a = true -> valid b = true -> valid c = true ->
  le b c = true ->
  isNaN (a - b)%num = false -> isNaN (a - c)%num = false ->
  le (a - c)%num (a - b)%num = true.
Proof.
  intros Va Vb Vc H Nb Nc. rewrite !sub_add_neg in *.
  apply add_le_mono_r; try assumption.
  - now destruct c as [?|?| |? ? ?].
  - now destruct b as [?|?| |? ? ?].
  - now apply le_neg.
Qed.

Lemma invNorm_out_of_range M p :
  le p pos_zero = true \/ ge p (of_Z 1) = true \/ isNaN p = true ->
  invNorm M p = NaN.
Proof.
  intros H. unfold invNorm.
  destruct H as [-> |[-> | ->]]; [reflexivity| |];
    rewrite ?orb_true_r; reflexivity.
Qed.

Lemma half_alpha_range alpha :
  valid alpha = true ->
  (le alpha pos_zero = true -> ge (of_Z 1 - alpha / of_Z 2)%num (of_Z 1) = true) /\
  (le (of_Z 2) alpha = true -> le (of_Z 1 - alpha / of_Z 2)%num pos_zero = true).
Proof.
  intros V.
  assert (E2 : of_Z 2 = S754_finite false 4503599627370496 (-51))
    by (vm_compute; reflexivity).
  assert (V1 : valid (of_Z 1) = true) by reflexivity.
  split; intros H; destruct (le_not_NaN _ _ H) as [N1 N2].
  - assert (L : le (alpha / of_Z 2)%num pos_zero = true).
    { change pos_zero with (pos_zero / of_Z 2)%num. rewrite E2.
      now apply div_le_mono_l. }
    destruct (le_not_NaN _ _ L) as [Nt _]. unfold ge.
    change (of_Z 1) with (of_Z 1 - pos_zero)%num at 1.
    apply sub_le_mono_r; try assumption; try reflexivity.
    + apply div_valid.
    + rewrite sub_add_neg. apply add_finite_not_NaN.
      now destruct (alpha / of_Z 2)%num.
  - assert (L : le (of_Z 1) (alpha / of_Z 2)%num = true).
    { change (of_Z 1) with (of_Z 2 / of_Z 2)%num at 1. rewrite E2.
      apply div_le_mono_l; try assumption; reflexivity. }
    destruct (le_not_NaN _ _ L) as [_ Nt].
    change pos_zero with (of_Z 1 - of_Z 1)%num.
    apply sub_le_mono_r; try assumption; try reflexivity.
    + apply div_valid.
    + rewrite sub_add_neg. apply add_finite_not_NaN.
      now destruct (alpha / of_Z 2)%num.
Qed.

(** X9.  [computeSampleSize] returns NaN when the effect or the variance
    is not greater than 0 (NaN included), when the power is not strictly
    between 0 and 1, and when alpha is NaN, at most 0 or at least 2. *)
Theorem computeSampleSize_rejects (M : MathLib)
    (sigma2 mdeAbs alpha power : number) :
  gt mdeAbs pos_zero = false \/ gt sigma2 pos_zero = false \/
  le power pos_zero = true \/ ge power (of_Z 1) = true \/
  isNaN power = true \/ isNaN alpha = true \/
  (valid alpha = true /\
   (le alpha pos_zero = true \/ le (of_Z 2) alpha = true)) ->
  computeSampleSize M sigma2 mdeAbs alpha power = NaN.
Proof.
  intros H. unfold computeSampleSize. cbv zeta.
  destruct H as [H|[H|H]].
  - rewrite H, andb_false_r. reflexivity.
  - rewrite H, andb_false_r. reflexivity.
  - assert (E : isNaN (invNorm M (of_Z 1 - alpha / of_Z 2)%num) = true \/
                isNaN (invNorm M power) = true).
    { destruct H as [H|[H|[H|[H|[V H]]]]].
      - right. rewrite invNorm_out_of_range; auto.
      - right. rewrite invNorm_out_of_range; auto.
      - right. rewrite invNorm_out_of_range; auto.
      - left. rewrite invNorm_out_of_range; auto.
        right; right. destruct alpha; try discriminate. reflexivity.
      - left. destruct (half_alpha_range alpha V) as [A1 A2].
        rewrite invNorm_out_of_range; auto.
        destruct H as [H|H]; [right; left; auto|left; auto]. }
    destruct E as [-> | ->]; [reflexivity|].
    rewrite andb_false_r. reflexivity.
Qed.

Lemma computeSampleSize_rejects_witness :
  gt pos_zero pos_zero = false /\
  computeSampleSize RefMath.lib (of_Z 105) pos_zero (dec 5 2) (dec 8 1) = NaN.
Proof.
  split; [reflexivity|].
  apply (computeSampleSize_rejects RefMath.lib). left. reflexivity.
Defined.

(** ** Per-user means *)

(** X10.  [basePerUserUntil] over an empty prefix ([endIndex] 0) and over
    a prefix that is the whole series is [basePerUser] of the series; and
    [basePerUser] of an empty series is 0. *)
Theorem basePerUserUntil_whole_series (h : heap) (k : string)
  (data : list loc) (endIndex : nat) :
  endIndex = 0%nat \/ (length data <= endIndex)%nat ->
  basePerUserUntil h k data endIndex = basePerUser h k data /\
  basePerUser h k [] = pos_zero.
Proof.
  intros H. split; [|reflexivity].
  unfold basePerUserUntil. cbv zeta. destruct H as [-> |H].
  - rewrite take_0. reflexivity.
  - rewrite take_ge by exact H.
    destruct (length data =? 0)%nat; [reflexivity|].
    unfold basePerUser. cbv zeta.
    destruct (gt (tot_users (sum_totals h k data)) pos_zero); reflexivity.
Qed.

Lemma basePerUserUntil_whole_series_witness :
  basePerUserUntil example_heap "Likes" example_data 3
  = basePerUser example_heap "Likes" example_data.
Proof.
  apply (basePerUserUntil_whole_series example_heap "Likes" example_data 3).
  right. vm_compute. lia.
Defined.

Lemma add_NaN_contagious x y :
  isNaN x = true \/ isNaN y = true -> isNaN (x + y)%num = true.
Proof.
  intros H. destruct (isNaN (x + y)%num) eqn:N; [reflexivity|].
  apply add_not_NaN in N as [Nx Ny]. destruct H; congruence.
Qed.

Lemma sum_totals_NaN (h : heap) k (data : list loc) : forall acc,
  isNaN (tot_metric acc) = true \/
  (exists d, d ∈ data /\ isNaN (get_num h d k) = true) ->
  isNaN (tot_metric (fold_left (add_totals h k) data acc)) = true.
Proof.
  induction data as [|d data IH]; intros acc H; cbn [fold_left].
  - destruct H as [H|(d & Hd & _)]; [exact H|]. now apply elem_of_nil in Hd.
  - apply IH. destruct H as [H|(d' & Hd & N)].
    + left. cbn [add_totals tot_metric]. apply add_NaN_contagious. now left.
    + apply elem_of_cons in Hd as [->|Hd].
      * left. cbn [add_totals tot_metric]. apply add_NaN_contagious.
        now right.
      * right. now exists d'.
Qed.

(** X11.  A record without the metric (or with a value that is not a
    number) is not skipped: it makes the per-user mean NaN, unless the
    DAU total is not greater than 0, where the mean is 0. *)
Theorem basePerUser_missing_metric (h : heap) (k : string)
  (data : list loc) (d : loc) :
  d ∈ data -> isNaN (get_num h d k) = true ->
  basePerUser h k data
  = if gt (tot_users (sum_totals h k data)) pos_zero then NaN else pos_zero.
Proof.
  intros Hd N. unfold basePerUser. cbv zeta.
  destruct (gt (tot_users (sum_totals h k data)) pos_zero); [|reflexivity].
  assert (E : isNaN (tot_metric (sum_totals h k data)) = true).
  { apply sum_totals_NaN. right. now exists d. }
  apply isNaN_eq in E. rewrite E. reflexivity.
Qed.

Lemma basePerUser_missing_metric_witness :
  get example_heap 2%positive "Reposts" = None /\
  basePerUser example_heap "Reposts" example_data = NaN.
Proof.
  split; [vm_compute; reflexivity|].
  rewrite (basePerUser_missing_metric example_heap "Reposts" example_data
             2%positive).
  - vm_compute. reflexivity.
  - unfold example_data. apply list_elem_of_further, list_elem_of_here.
  - vm_compute. reflexivity.
Defined.

(** ** The decision rules *)

Lemma le_or_else n :
  isNaN n = false -> le n (or_else n pos_zero) = true.
Proof. destruct n as [[]|[]| |[] m e]; try discriminate; intros _;
  unfold or_else; cbn [truthy]; try reflexivity; now apply le_refl. Qed.

Lemma co_fold_spec (rows : list sizer_row) : forall m0,
  isNaN m0 = false ->
  isNaN (fold_left co_step rows m0) = false /\
  le m0 (fold_left co_step rows m0) = true /\
  forall r, r ∈ rows -> isNaN (row_n r) = false ->
            le (row_n r) (fold_left co_step rows m0) = true.
Proof.
  induction rows as [|r rows IH]; intros m0 N; cbn [fold_left].
  - split; [exact N|]. split; [now apply le_refl|].
    intros r Hr. now apply elem_of_nil in Hr.
  - pose proof (or_else_not_NaN (row_n r)) as Nv.
    assert (Ns : isNaN (co_step m0 r) = false)
      by (unfold co_step; now rewrite Math_max_NaN, N, Nv).
    destruct (IH _ Ns) as (H1 & H2 & H3). split; [exact H1|]. split.
    + eapply le_trans; [|exact H2]. now apply Math_max_ge_l.
    + intros r' Hr Nr. apply elem_of_cons in Hr as [->|Hr]; [|now apply H3].
      eapply le_trans; [now apply le_or_else|].
      eapply le_trans; [|exact H2]. now apply Math_max_ge_r.
Qed.

(** X12.  Under CO_PRIMARY the recommended n is a number (never NaN),
    is not negative, and is at least the sample size of every candidate
    metric whose own size is a number. *)
Theorem co_primary_dominates_rows (M : MathLib) (h : heap) (data : list loc)
  (selectedSuccessKeys : list string) (primary : string)
  (alpha power mdePct : number) :
  let rows := sizer_rows M h data (candidateKeys selectedSuccessKeys)
                         CO_PRIMARY alpha power mdePct in
  let n := DecisionRuleSizer M h data selectedSuccessKeys CO_PRIMARY primary
                             alpha power mdePct in
  isNaN n = false /\ le pos_zero n = true /\
  forall r, r ∈ rows -> isNaN (row_n r) = false -> le (row_n r) n = true.
Proof.
  cbv zeta. unfold DecisionRuleSizer, recommendedN.
  exact (co_fold_spec _ pos_zero eq_refl).
Qed.

(** The size of one candidate at the level [alpha]. *)
Definition candidate_n (M : MathLib) (h : heap) (data : list loc)
  (alpha power mdePct : number) (k : string) : number :=
  let mu := basePerUser h k data in
  computeSampleSize M (mu * (of_Z 1 + dec 5 2))%num
                    (mu * Math_max pos_zero mdePct)%num alpha power.

Lemma find_key_map {A : Type} (f : string -> A) (key_of : A -> string)
    (p : string) (l : list string) :
  (forall k, key_of (f k) = k) ->
  find (fun r => String.eqb (key_of r) p) (map f l)
  = if includes l p then Some (f p) else None.
Proof.
  intros Hk. unfold includes.
  induction l as [|k l IH]; [reflexivity|].
  cbn [map find existsb]. rewrite Hk, String.eqb_sym.
  destruct (String.eqb_spec p k) as [->|_]; [reflexivity|exact IH].
Qed.

Lemma candidateKeys_head sel : exists k, head (candidateKeys sel) = Some k.
Proof.
  unfold candidateKeys. destruct sel as [|k sel]; cbn; eauto.
Qed.

(** X13.  Under PRIMARY the recommended n is the sample size of the
    primary metric alone, at the uncorrected alpha, whatever the other
    candidates; when the primary metric is not among the candidates, the
    first candidate takes its place. *)
Theorem primary_rule_sizes_one_metric (M : MathLib) (h : heap)
  (data : list loc) (selectedSuccessKeys : list string) (primary : string)
  (alpha power mdePct : number) :
  let cand := candidateKeys selectedSuccessKeys in
  DecisionRuleSizer M h data selectedSuccessKeys PRIMARY primary
                    alpha power mdePct
  = candidate_n M h data alpha power mdePct
      (if includes cand primary then primary
       else default primary (head cand)).
Proof.
  cbv zeta. unfold DecisionRuleSizer, recommendedN, primaryRow, sizer_rows.
  cbn [is_primary].
  rewrite (find_key_map _ row_key primary) by reflexivity.
  destruct (includes (candidateKeys selectedSuccessKeys) primary);
    [reflexivity|].
  destruct (candidateKeys_head selectedSuccessKeys) as [k Ek].
  rewrite Ek. destruct (candidateKeys selectedSuccessKeys) as [|k' l];
    [discriminate|].
  injection Ek as ->. reflexivity.
Qed.

(** *** ANY_OF *)

Lemma positive_truthy n : lt pos_zero n = true -> or_else n pos_zero = n.
Proof. destruct n as [[]|[]| |[] m e]; try discriminate; reflexivity. Qed.

Lemma any_fold_spec (rows : list sizer_row) : forall m0,
  lt pos_zero m0 = true ->
  (forall r, r ∈ rows -> lt pos_zero (row_n r) = true) ->
  le (fold_left any_step rows m0) m0 = true /\
  (forall r, r ∈ rows -> le (fold_left any_step rows m0) (row_n r) = true) /\
  (fold_left any_step rows m0 = m0 \/
   exists r, r ∈ rows /\ fold_left any_step rows m0 = row_n r).
Proof.
  induction rows as [|r rows IH]; intros m0 P H; cbn [fold_left].
  - destruct (lt_not_NaN _ _ P) as [_ N].
    split; [now apply le_refl|]. split; [|now left].
    intros r Hr. now apply elem_of_nil in Hr.
  - assert (Pr : lt pos_zero (row_n r) = true) by (apply H; left).
    destruct (lt_not_NaN _ _ P) as [_ N0], (lt_not_NaN _ _ Pr) as [_ Nr].
    assert (Es : any_step m0 r = Math_min m0 (row_n r)).
    { unfold any_step. rewrite (lt_not_strict_eq _ _ P).
      now rewrite positive_truthy. }
    destruct (Math_min_cases m0 (row_n r) N0 Nr) as [[Em Hm]|[Em Hm]].
    + destruct (IH m0 P) as (H1 & H2 & H3).
      { intros r' Hr'. apply H. now right. }
      rewrite Es, Em. split; [exact H1|]. split.
      * intros r' Hr'. apply elem_of_cons in Hr' as [->|Hr']; [|now apply H2].
        eapply le_trans; [exact H1|exact Hm].
      * destruct H3 as [H3|(r' & Hr' & H3)]; [now left|right].
        exists r'. split; [now right|exact H3].
    + destruct (IH (row_n r) Pr) as (H1 & H2 & H3).
      { intros r' Hr'. apply H. now right. }
      rewrite Es, Em. split; [eapply le_trans; [exact H1|exact Hm]|]. split.
      * intros r' Hr'. apply elem_of_cons in Hr' as [->|Hr']; [exact H1|].
        now apply H2.
      * right. destruct H3 as [H3|(r' & Hr' & H3)].
        -- exists r. split; [left|exact H3].
        -- exists r'. split; [now right|exact H3].
Qed.

Lemma computeSampleSize_positive M sigma2 mde alpha power :
  isNaN (computeSampleSize M sigma2 mde alpha power) = false ->
  lt pos_zero (computeSampleSize M sigma2 mde alpha power) = true.
Proof.
  intros N.
  destruct (computeSampleSize_cases M sigma2 mde alpha power)
    as [E|[E|(k & Hk & E)]]; rewrite E in *; [discriminate|reflexivity|].
  apply lt_le_trans with (of_Z 2); [reflexivity|]. now apply of_Z_mono.
Qed.

Lemma sizer_rows_n M h data cand r alpha power mdePct row :
  row ∈ sizer_rows M h data cand r alpha power mdePct ->
  isNaN (row_n row) = false -> lt pos_zero (row_n row) = true.
Proof.
  unfold sizer_rows. intros H N. apply list_elem_of_fmap in H as (k & -> & _).
  cbn [row_n] in *. now apply computeSampleSize_positive.
Qed.

(** X14.  Under ANY_OF, when every candidate's sample size is a number,
    the recommended n is the smallest of them: it is one of the
    candidates' sizes and is at most each of them. *)
Theorem any_of_is_minimum (M : MathLib) (h : heap) (data : list loc)
  (selectedSuccessKeys : list string) (primary : string)
  (alpha power mdePct : number) :
  let rows := sizer_rows M h data (candidateKeys selectedSuccessKeys)
                         ANY_OF alpha power mdePct in
  let n := DecisionRuleSizer M h data selectedSuccessKeys ANY_OF primary
                             alpha power mdePct in
  (forall r, r ∈ rows -> isNaN (row_n r) = false) ->
  (forall r, r ∈ rows -> le n (row_n r) = true) /\
  (exists r, r ∈ rows /\ n = row_n r).
Proof.
  cbv zeta. unfold DecisionRuleSizer, recommendedN.
  set (rows := sizer_rows _ _ _ _ _ _ _ _). intros HN.
  assert (HP : forall r, r ∈ rows -> lt pos_zero (row_n r) = true).
  { intros r Hr.
    exact (sizer_rows_n M h data (candidateKeys selectedSuccessKeys) ANY_OF
             alpha power mdePct r Hr (HN r Hr)). }
  assert (Hne : exists r rest, rows = r :: rest).
  { subst rows. unfold sizer_rows.
    destruct (candidateKeys_head selectedSuccessKeys) as [k Ek].
    destruct (candidateKeys selectedSuccessKeys); [discriminate|].
    cbn [map]. eauto. }
  destruct Hne as (r0 & rest & E). rewrite E in *.
  change (fold_left _ (r0 :: rest) pos_zero)
    with (fold_left any_step rest (any_step pos_zero r0)).
  assert (P0 : lt pos_zero (row_n r0) = true) by (apply HP; left).
  assert (E0 : any_step pos_zero r0 = row_n r0)
    by (unfold any_step; cbn [strict_eq SFeqb SFcompare];
        now apply positive_truthy).
  rewrite E0.
  destruct (any_fold_spec rest (row_n r0) P0) as (H1 & H2 & H3).
  { intros r Hr. apply HP. now right. }
  split.
  - intros r Hr. apply elem_of_cons in Hr as [->|Hr]; [exact H1|now apply H2].
  - destruct H3 as [H3|(r & Hr & H3)].
    + exists r0. split; [left|exact H3].
    + exists r. split; [now right|exact H3].
Qed.

Lemma any_of_is_minimum_witness :
  DecisionRuleSizer RefMath.lib example_heap example_data
                    ["VideoViews"; "Shares"] ANY_OF "VideoViews"
                    (dec 2 1) (dec 8 1) (dec 1 1)
  = of_Z 572 /\
  forall r,
    r ∈ sizer_rows RefMath.lib example_heap example_data
                   ["VideoViews"; "Shares"] ANY_OF (dec 2 1) (dec 8 1)
                   (dec 1 1) ->
    le (of_Z 572) (row_n r) = true.
Proof.
  assert (E : DecisionRuleSizer RefMath.lib example_heap example_data
                ["VideoViews"; "Shares"] ANY_OF "VideoViews"
                (dec 2 1) (dec 8 1) (dec 1 1) = of_Z 572)
    by (vm_compute; reflexivity).
  split; [exact E|]. rewrite <- E.
  apply (any_of_is_minimum RefMath.lib example_heap example_data
           ["VideoViews"; "Shares"] "VideoViews").
  intros r Hr. unfold sizer_rows, candidateKeys in Hr. cbn [length Nat.eqb map] in Hr.
  repeat (apply elem_of_cons in Hr as [->|Hr]; [vm_compute; reflexivity|]).
  now apply elem_of_nil in Hr.
Defined.

(** ** The aggregates and the samples of [simulateAB] *)

(** A simulated value: a number that is not negative, or NaN. *)
Definition sample (v : number) : Prop := has_sign false v \/ v = NaN.

Lemma div_self x :
  gt x pos_zero = true -> isFinite x = true -> (x / x)%num = of_Z 1.
Proof.
  intros G F. destruct x as [s|s| |[] m e]; try discriminate.
  pose proof (div_srounds (S754_finite false m e) false m e eq_refl) as S.
  pose proof (fval_pos m e) as P. revert S P. unfold fval.
  generalize (IZR (Zpos m) * pow2 e)%R. intros r S P.
  replace (r / r)%R with (IZR 1) in S by (field; lra).
  destruct (srounds_unique _ _ _ S (of_Z_srounds 1)) as [E|[_ Z]];
    [exact E|discriminate Z].
Qed.

Section AggregatesOfSimulation.

Variable M : MathLib.
Variables (fuel : nat) (data out : list loc) (seed : Z).
Variables (splitC splitT : number) (startIndex : nat).
Variable enforceNoDecline : bool.
Hypothesis out_NoDup : NoDup out.

Let step := sim_metric M fuel data out seed splitC splitT startIndex
                       enforceNoDecline.

(** What every aggregate records of the window. *)
Definition window_agg (a : aggregate) : Prop :=
  agg_startIndex a = startIndex /\
  agg_daysInTest a
  = Z.max 1 (Z.of_nat (length data) - Z.of_nat startIndex).

(** The aggregate of a metric whose sums are its cohort totals. *)
Definition unit_agg (a : aggregate) : Prop :=
  agg_muC a = (if gt (agg_NtotC a) pos_zero
               then (agg_NtotC a / agg_NtotC a)%num else pos_zero) /\
  agg_muT a = (if gt (agg_NtotT a) pos_zero
               then (agg_NtotT a / agg_NtotT a)%num else pos_zero) /\
  agg_liftPct a = (if gt (agg_muC a) pos_zero
                   then (agg_muT a / agg_muC a - of_Z 1)%num else pos_zero).

Lemma sim_day_DAU_acc muC_pre lift (h h' : heap) acc acc' io :
  sim_day M fuel "DAU" seed splitC splitT muC_pre lift (h, acc) io
  = Some (h', acc') ->
  sumC acc = NtotC acc -> sumE acc = NtotT acc ->
  sumC acc' = NtotC acc' /\ sumE acc' = NtotT acc'.
Proof.
  destruct io as [i o]. unfold sim_day. cbv zeta.
  cbn [String.eqb Ascii.eqb Bool.eqb].
  intros Hd H1 H2. apply Some_pair_inj in Hd as [_ <-].
  cbn [sumC sumE NtotC NtotT]. now rewrite H1, H2.
Qed.

Lemma day_loop_DAU_acc muC_pre lift (L : list (nat * loc)) :
  forall (h h' : heap) acc acc',
    foldM (sim_day M fuel "DAU" seed splitC splitT muC_pre lift) L (h, acc)
    = Some (h', acc') ->
    sumC acc = NtotC acc -> sumE acc = NtotT acc ->
    sumC acc' = NtotC acc' /\ sumE acc' = NtotT acc'.
Proof.
  induction L as [|io L IH]; intros h h' acc acc' Hf H1 H2; cbn [foldM] in Hf.
  - apply Some_pair_inj in Hf as [_ <-]. now split.
  - destruct (sim_day M fuel "DAU" seed splitC splitT muC_pre lift
                      (h, acc) io) as [[h1 acc1]|] eqn:Hd;
      cbn [mbind option_bind] in Hf; [|discriminate].
    destruct (sim_day_DAU_acc _ _ _ _ _ _ _ Hd H1 H2) as [H3 H4].
    exact (IH _ _ _ _ Hf H3 H4).
Qed.

Lemma sim_metric_agg (h h' : heap) aggs aggs' m :
  step (h, aggs) m = Some (h', aggs') ->
  exists a, aggs' = <[key m := a]> aggs /\ window_agg a /\
            (key m = "DAU" -> unit_agg a).
Proof.
  unfold step, sim_metric. cbv zeta.
  destruct (lift_used M fuel h (key m) data seed enforceNoDecline)
    as [lift|]; cbn [mbind option_bind]; [|discriminate].
  destruct (foldM _ (drop startIndex (indexed out)) _)
    as [[h2 acc]|] eqn:Hloop; cbn [mbind option_bind]; [|discriminate].
  intros Hs. apply Some_pair_inj in Hs as [_ <-].
  eexists. split; [reflexivity|]. split; [split; reflexivity|].
  intros Hk. rewrite Hk in Hloop.
  destruct (day_loop_DAU_acc _ _ _ _ _ _ _ Hloop eq_refl eq_refl) as [E1 E2].
  unfold unit_agg.
  cbn [agg_muC agg_muT agg_liftPct agg_NtotC agg_NtotT].
  rewrite E1, E2. repeat split.
Qed.

Lemma metrics_aggs (ms : list metric) :
  forall (h h' : heap) aggs aggs',
    foldM step ms (h, aggs) = Some (h', aggs') ->
    (forall k, k ∉ map key ms -> aggs' !! k = aggs !! k) /\
    (forall m, m ∈ ms -> is_Some (aggs' !! key m)) /\
    (forall k a, aggs' !! k = Some a -> aggs !! k = Some a \/ window_agg a).
Proof.
  induction ms as [|m ms IH]; intros h h' aggs aggs' Hf; cbn [foldM] in Hf.
  - apply Some_pair_inj in Hf as [_ <-]. split; [reflexivity|]. split.
    + intros m Hm. now apply elem_of_nil in Hm.
    + intros k a Ha. now left.
  - destruct (step (h, aggs) m) as [[h1 aggs1]|] eqn:Hm;
      cbn [mbind option_bind] in Hf; [|discriminate].
    destruct (sim_metric_agg _ _ _ _ _ Hm) as (a0 & -> & W & _).
    destruct (IH _ _ _ _ Hf) as (H1 & H2 & H3). split; [|split].
    + intros k Hk. cbn [map] in Hk. apply not_elem_of_cons in Hk as [Hk1 Hk2].
      rewrite (H1 k Hk2). now apply lookup_insert_ne.
    + intros m' Hm'. apply elem_of_cons in Hm' as [->|Hm']; [|now apply H2].
      destruct (decide (key m ∈ map key ms)) as [Hin|Hout].
      * apply list_elem_of_fmap in Hin as (m' & E & Hm'). rewrite E.
        now apply H2.
      * rewrite (H1 _ Hout), lookup_insert_eq. eauto.
    + intros k a Ha. destruct (H3 k a Ha) as [Hk|Hw]; [|now right].
      destruct (decide (k = key m)) as [->|Hne].
      * rewrite lookup_insert_eq in Hk. injection Hk as <-. now right.
      * rewrite lookup_insert_ne in Hk by congruence. now left.
Qed.

End AggregatesOfSimulation.

(** X15.  The result of [simulateAB] reports the first day of the window,
    max(0, len - testLen); its aggregates have an entry for each of the
    nine metrics and for nothing else, and every entry records that first
    day and the number of days in the test, max(1, len - startIndex). *)
Theorem simulateAB_aggregates (M : MathLib) (fuel : nat) (h h' : heap)
  (data : list loc) (seed : Z) (splitC splitT : number) (testLen : Z)
  (enforceNoDecline : bool) (res : sim_result) :
  simulateAB M fuel h data seed splitC splitT testLen enforceNoDecline
  = Some (h', res) ->
  let startIndex := Z.to_nat (Z.max 0 (Z.of_nat (length data) - testLen)) in
  res_startIndex res = startIndex /\
  (forall k, is_Some (aggregates res !! k) <-> k ∈ map key METRICS) /\
  (forall k a, aggregates res !! k = Some a ->
     agg_startIndex a = startIndex /\
     agg_daysInTest a
     = Z.max 1 (Z.of_nat (length data) - Z.of_nat startIndex)).
Proof.
  intros Hrun startIndex. revert Hrun. unfold simulateAB. cbv zeta.
  fold startIndex.
  destruct (copy_rows h data) as [h1 out] eqn:Hcopy.
  destruct (foldM _ METRICS _) as [[h2 aggs]|] eqn:Hfold;
    cbn [mbind option_bind]; [|discriminate].
  intros H. apply Some_pair_inj in H as [_ <-].
  cbn [aggregates res_startIndex].
  destruct (metrics_aggs M fuel data out seed splitC splitT startIndex
              enforceNoDecline METRICS _ _ _ _ Hfold) as (H1 & H2 & H3).
  split; [reflexivity|]. split.
  - intros k. split.
    + intros Hk. destruct (decide (k ∈ map key METRICS)) as [Hin|Hout];
        [exact Hin|].
      rewrite (H1 k Hout), lookup_empty in Hk. now destruct Hk.
    + intros Hk. apply list_elem_of_fmap in Hk as (m & -> & Hm).
      now apply H2.
  - intros k a Ha. destruct (H3 k a Ha) as [He|Hw]; [|exact Hw].
    now rewrite lookup_empty in He.
Qed.

Lemma simulateAB_aggregates_witness :
  exists h' res,
    simulateAB RefMath.lib 1 example_heap example_data 42
               (dec 5 1) (dec 5 1) 2 true = Some (h', res) /\
    res_startIndex res = 1%nat.
Proof.
  destruct simulateAB_example_returns as [[h' res] E].
  exists h', res. split; [exact E|].
  exact (proj1 (simulateAB_aggregates _ _ _ _ _ _ _ _ _ _ _ E)).
Defined.

(** X16.  The DAU samples are the cohort sizes themselves, so the DAU
    aggregate is degenerate: its control mean and its experiment mean are
    exactly 1 as soon as the cohort total is positive and finite, and its
    lift is then exactly 0. *)
Theorem simulateAB_DAU_aggregate (M : MathLib) (fuel : nat) (h h' : heap)
  (data : list loc) (seed : Z) (splitC splitT : number) (testLen : Z)
  (enforceNoDecline : bool) (res : sim_result) :
  simulateAB M fuel h data seed splitC splitT testLen enforceNoDecline
  = Some (h', res) ->
  exists a,
    aggregates res !! "DAU" = Some a /\
    (gt (agg_NtotC a) pos_zero = true -> isFinite (agg_NtotC a) = true ->
     agg_muC a = of_Z 1) /\
    (gt (agg_NtotT a) pos_zero = true -> isFinite (agg_NtotT a) = true ->
     agg_muT a = of_Z 1) /\
    (gt (agg_NtotC a) pos_zero = true -> isFinite (agg_NtotC a) = true ->
     gt (agg_NtotT a) pos_zero = true -> isFinite (agg_NtotT a) = true ->
     agg_liftPct a = pos_zero).
Proof.
  unfold simulateAB. cbv zeta.
  destruct (copy_rows h data) as [h1 out] eqn:Hcopy.
  destruct (foldM _ METRICS _) as [[h2 aggs]|] eqn:Hfold;
    cbn [mbind option_bind]; [|discriminate].
  intros H. apply Some_pair_inj in H as [_ <-]. cbn [aggregates].
  remember (tail METRICS) as rest eqn:Hrest.
  assert (HM : METRICS
               = {| key := "DAU"; label := "DAU"; color := "#2563eb" |} :: rest)
    by (subst rest; reflexivity).
  rewrite HM in Hfold. cbn [foldM] in Hfold.
  destruct (sim_metric _ _ _ _ _ _ _ _ _ (h1, ∅) _) as [[h3 aggs3]|] eqn:Hdau;
    cbn [mbind option_bind] in Hfold; [|discriminate].
  destruct (sim_metric_agg _ _ _ _ _ _ _ _ _ _ _ _ _ _ Hdau)
    as (a & -> & _ & Hu).
  destruct (metrics_aggs _ _ _ _ _ _ _ _ _ _ _ _ _ _ Hfold) as (H1 & _ & _).
  exists a. split.
  - rewrite H1; [apply lookup_insert_eq|].
    subst rest. apply (bool_decide_unpack _). vm_compute. exact I.
  - destruct (Hu eq_refl) as (EC & ET & EL).
    assert (HC : gt (agg_NtotC a) pos_zero = true ->
                 isFinite (agg_NtotC a) = true -> agg_muC a = of_Z 1).
    { intros G F. rewrite EC, G. now apply div_self. }
    assert (HT : gt (agg_NtotT a) pos_zero = true ->
                 isFinite (agg_NtotT a) = true -> agg_muT a = of_Z 1).
    { intros G F. rewrite ET, G. now apply div_self. }
    split; [exact HC|]. split; [exact HT|].
    intros G1 F1 G2 F2. rewrite EL, (HC G1 F1), (HT G2 F2). reflexivity.
Qed.

Lemma simulateAB_DAU_aggregate_witness :
  exists h' res a,
    simulateAB RefMath.lib 1 example_heap example_data 42
               (dec 5 1) (dec 5 1) 2 true = Some (h', res) /\
    aggregates res !! "DAU" = Some a.
Proof.
  destruct simulateAB_example_returns as [[h' res] E].
  destruct (simulateAB_DAU_aggregate _ _ _ _ _ _ _ _ _ _ _ E)
    as (a & Ha & _).
  exists h', res, a. split; [exact E|exact Ha].
Defined.

(** ** Simulated values are never negative *)

Section SamplesOfSimulation.

Variable M : MathLib.
Variables (fuel : nat) (data out : list loc) (seed : Z).
Variables (splitC splitT : number) (startIndex : nat).
Variable enforceNoDecline : bool.
Hypothesis out_NoDup : NoDup out.

Let step := sim_metric M fuel data out seed splitC splitT startIndex
                       enforceNoDecline.

(** Both cohort fields of the metric [k] hold a simulated value at the
    row [o]. *)
Definition sampled (h : heap) (k : string) (o : loc) : Prop :=
  exists vC vE,
    get h o (k +:+ "_Control") = Some (VNum vC) /\
    get h o (k +:+ "_Experiment") = Some (VNum vE) /\
    sample vC /\ sample vE.

Definition sampled_in_window (h : heap) (k : string) : Prop :=
  forall i o, out !! i = Some o -> (startIndex <= i)%nat -> sampled h k o.

Lemma sample_max_zero x : sample (Math_max pos_zero x).
Proof. apply Math_max_zero_shape. Qed.

Lemma sim_day_writes k muC_pre lift (h h' : heap) acc acc' i o :
  sim_day M fuel k seed splitC splitT muC_pre lift (h, acc) (i, o)
  = Some (h', acc') ->
  exists vC vE,
    h' = set_field (set_field h o (k +:+ "_Control") (VNum vC))
                   o (k +:+ "_Experiment") (VNum vE) /\
    sample vC /\ sample vE.
Proof.
  unfold sim_day. cbv zeta. destruct (String.eqb k "DAU").
  - intros Hs. apply Some_pair_inj in Hs as [<- _].
    eexists _, _. split; [reflexivity|]. split; apply sample_max_zero.
  - destruct (boxMuller M fuel _) as [[g1 r1]|];
      cbn [mbind option_bind]; [|discriminate].
    destruct (boxMuller M fuel r1) as [[g2 r2]|];
      cbn [mbind option_bind]; [|discriminate].
    intros Hs. apply Some_pair_inj in Hs as [<- _].
    eexists _, _. split; [reflexivity|]. split; apply sample_max_zero.
Qed.

Lemma day_loop_samples k muC_pre lift (L : list (nat * loc)) :
  forall (h h' : heap) acc acc',
    foldM (sim_day M fuel k seed splitC splitT muC_pre lift) L (h, acc)
    = Some (h', acc') ->
    NoDup (L.*2) ->
    forall i o, (i, o) ∈ L -> sampled h' k o.
Proof.
  induction L as [|[i0 o0] L IH]; intros h h' acc acc' Hf Hnd i o Hin.
  - inversion Hin.
  - cbn [foldM] in Hf.
    destruct (sim_day M fuel k seed splitC splitT muC_pre lift
                      (h, acc) (i0, o0)) as [[h1 acc1]|] eqn:Hd;
      cbn [mbind option_bind] in Hf; [|discriminate].
    cbn [fmap list_fmap snd] in Hnd. apply NoDup_cons in Hnd as [Hnin Hnd].
    apply elem_of_cons in Hin as [Heq|Hin]; [|exact (IH _ _ _ _ Hf Hnd i o Hin)].
    injection Heq as -> ->.
    destruct (sim_day_writes _ _ _ _ _ _ _ _ _ Hd) as (vC & vE & Hh1 & SC & SE).
    destruct (day_loop_modifies M fuel seed splitC splitT (L.*2) k muC_pre
                lift L _ _ _ _ Hf) as [Hfr _].
    { intros io Hio. apply list_elem_of_fmap. exists io.
      split; [reflexivity|exact Hio]. }
    clear Hd Hf. exists vC, vE.
    rewrite !(get_lookup_eq h1 h' o0) by (apply Hfr; exact Hnin).
    rewrite Hh1. split; [|split; [apply get_set_field_eq|split; assumption]].
    rewrite get_set_field_ne_field by apply app_suffix_ne.
    apply get_set_field_eq.
Qed.

Lemma sim_metric_samples (h h' : heap) aggs aggs' m :
  step (h, aggs) m = Some (h', aggs') -> sampled_in_window h' (key m).
Proof.
  unfold step, sim_metric. cbv zeta.
  destruct (lift_used M fuel h (key m) data seed enforceNoDecline)
    as [lift|]; cbn [mbind option_bind]; [|discriminate].
  destruct (foldM _ (drop startIndex (indexed out)) _)
    as [[h2 acc]|] eqn:Hloop; cbn [mbind option_bind]; [|discriminate].
  intros Hs. apply Some_pair_inj in Hs as [<- _].
  intros i o Ho Hi.
  assert (Hnd : NoDup ((drop startIndex (indexed out)).*2)).
  { rewrite window_rows. apply NoDup_drop_list. exact out_NoDup. }
  apply (day_loop_samples _ _ _ _ _ _ _ _ Hloop Hnd i o).
  apply elem_of_window. split; assumption.
Qed.

Lemma metrics_samples (ms : list metric) :
  forall (h h' : heap) aggs aggs',
    foldM step ms (h, aggs) = Some (h', aggs') ->
    forall m, m ∈ ms \/ sampled_in_window h (key m) ->
              sampled_in_window h' (key m).
Proof.
  induction ms as [|m' ms IH]; intros h h' aggs aggs' Hf m Hm;
    cbn [foldM] in Hf.
  - apply Some_pair_inj in Hf as [<- _].
    destruct Hm as [Hm|Hm]; [inversion Hm|exact Hm].
  - destruct (step (h, aggs) m') as [[h1 aggs1]|] eqn:Hm';
      cbn [mbind option_bind] in Hf; [|discriminate].
    pose proof (sim_metric_samples _ _ _ _ _ Hm') as Hnew.
    destruct (sim_metric_spec M fuel data out seed splitC splitT startIndex
                enforceNoDecline out_NoDup _ _ _ _ _ Hm') as ([_ Hfld] & _ & _).
    apply (IH _ _ _ _ Hf).
    destruct Hm as [Hm|Hm].
    { apply elem_of_cons in Hm as [->|Hm]; [right; exact Hnew|left; exact Hm]. }
    right. intros i o Ho Hi.
    destruct (Hnew i o Ho Hi) as (wC & wE & NC & NE & SC & SE).
    destruct (Hm i o Ho Hi) as (vC & vE & HC & HE & TC & TE).
    assert (HC' : exists v, get h1 o (key m +:+ "_Control") = Some (VNum v)
                            /\ sample v).
    { destruct (decide (key m +:+ "_Control" ∈ footprint (key m')))
        as [Hin|Hnin]; [|exists vC; rewrite Hfld by exact Hnin; split; assumption].
      apply elem_of_cons in Hin as [->|Hin]; [exists wC; split; assumption|].
      apply elem_of_cons in Hin as [->|Hin];
        [exists wE; split; assumption|inversion Hin]. }
    assert (HE' : exists v, get h1 o (key m +:+ "_Experiment") = Some (VNum v)
                            /\ sample v).
    { destruct (decide (key m +:+ "_Experiment" ∈ footprint (key m')))
        as [Hin|Hnin]; [|exists vE; rewrite Hfld by exact Hnin; split; assumption].
      apply elem_of_cons in Hin as [->|Hin]; [exists wC; split; assumption|].
      apply elem_of_cons in Hin as [->|Hin];
        [exists wE; split; assumption|inversion Hin]. }
    destruct HC' as (uC & UC & PC), HE' as (uE & UE & PE).
    exists uC, uE. repeat split; assumption.
Qed.

End SamplesOfSimulation.

(** X17.  The result of [simulateAB] has a row for every day of the
    series, and the row of every day of the test window holds, for each of
    the nine metrics, a control and an experiment value that are numbers
    and not negative (+0, positive or +Infinity), or NaN: never [null],
    never missing, never below zero. *)
Theorem simulateAB_samples_not_negative (M : MathLib) (fuel : nat)
  (h h' : heap) (data : list loc) (seed : Z) (splitC splitT : number)
  (testLen : Z) (enforceNoDecline : bool) (res : sim_result) :
  simulateAB M fuel h data seed splitC splitT testLen enforceNoDecline
  = Some (h', res) ->
  length (simData res) = length data /\
  forall i,
    (Z.to_nat (Z.max 0 (Z.of_nat (length data) - testLen)) <= i
     < length data)%nat ->
    exists o,
      simData res !! i = Some o /\
      forall m, m ∈ METRICS ->
        exists vC vE,
          get h' o (key m +:+ "_Control") = Some (VNum vC) /\
          get h' o (key m +:+ "_Experiment") = Some (VNum vE) /\
          (has_sign false vC \/ vC = NaN) /\ (has_sign false vE \/ vE = NaN).
Proof.
  unfold simulateAB. cbv zeta.
  destruct (copy_rows h data) as [h1 out] eqn:Hcopy.
  destruct (foldM _ METRICS _) as [[h2 aggs]|] eqn:Hfold;
    cbn [mbind option_bind]; [|discriminate].
  intros H. apply Some_pair_inj in H as [<- <-]. cbn [simData].
  destruct (copy_rows_spec _ _ _ _ Hcopy) as (Hlen & Hnd & _).
  split; [exact Hlen|]. intros i [Hi Hlt].
  destruct (lookup_lt_is_Some_2 out i) as [o Ho]; [rewrite Hlen; exact Hlt|].
  exists o. split; [exact Ho|]. intros m Hm.
  exact (metrics_samples _ _ _ _ _ _ _ _ _ Hnd _ _ _ _ _ Hfold
           m (or_introl Hm) i o Ho Hi).
Qed.

(** On the example series with a window of two days: the row of the last
    day exists and holds such values for Likes. *)
Lemma simulateAB_samples_not_negative_witness :
  exists h' res o,
    simulateAB RefMath.lib 1 example_heap example_data 42
               (dec 5 1) (dec 5 1) 2 true = Some (h', res) /\
    length (simData res) = 3%nat /\
    simData res !! 2%nat = Some o /\
    exists vC vE,
      get h' o "Likes_Control" = Some (VNum vC) /\
      get h' o "Likes_Experiment" = Some (VNum vE) /\
      (has_sign false vC \/ vC = NaN) /\ (has_sign false vE \/ vE = NaN).
Proof.
  destruct simulateAB_example_returns as [[h' res] E].
  destruct (simulateAB_samples_not_negative _ _ _ _ _ _ _ _ _ _ _ E)
    as [Hlen Hrows].
  destruct (Hrows 2%nat) as (o & Ho & Hv); [vm_compute; lia|].
  exists h', res, o. split; [exact E|]. split; [exact Hlen|].
  split; [exact Ho|].
  apply (Hv {| key := "Likes"; label := "Likes"; color := "#f97316" |}).
  unfold METRICS. do 8 apply list_elem_of_further. apply list_elem_of_here.
Defined.

(** ** The selection of metrics *)

(** X18.  Toggling a metric twice restores the selection; one toggle
    changes the membership of that key and of no other. *)
Theorem toggleMetric_round_trip (key : string) (prev : gset string) :
  toggleMetric key (toggleMetric key prev) = prev /\
  (key ∈ toggleMetric key prev <-> key ∉ prev) /\
  (forall k, k <> key -> (k ∈ toggleMetric key prev <-> k ∈ prev)).
Proof.
  unfold toggleMetric. split; [|split].
  - destruct (decide (key ∈ prev)) as [Hin|Hout].
    + rewrite decide_False by (rewrite elem_of_difference, elem_of_singleton; tauto).
      apply set_eq. intros x.
      rewrite elem_of_union, elem_of_difference, elem_of_singleton.
      destruct (decide (x = key)) as [->|Hne]; tauto.
    + rewrite decide_True by (rewrite elem_of_union, elem_of_singleton; tauto).
      apply set_eq. intros x.
      rewrite elem_of_difference, elem_of_union, elem_of_singleton.
      destruct (decide (x = key)) as [->|Hne]; tauto.
  - destruct (decide (key ∈ prev)) as [Hin|Hout].
    + rewrite elem_of_difference, elem_of_singleton. tauto.
    + rewrite elem_of_union, elem_of_singleton. tauto.
  - intros k Hk. destruct (decide (key ∈ prev)) as [Hin|Hout].
    + rewrite elem_of_difference, elem_of_singleton. tauto.
    + rewrite elem_of_union, elem_of_singleton. tauto.
Qed.

Lemma setGroup_elem (keys : list string) (checked : bool) :
  forall (prev : gset string) (k : string),
    k ∈ setGroup keys checked prev <->
    if checked then k ∈ prev \/ k ∈ keys else k ∈ prev /\ k ∉ keys.
Proof.
  unfold setGroup. induction keys as [|k0 keys IHk]; intros prev k;
    cbn [fold_left].
  - destruct checked; rewrite ?elem_of_nil; tauto.
  - rewrite IHk. destruct checked.
    + rewrite elem_of_union, elem_of_singleton, elem_of_cons. tauto.
    + rewrite elem_of_difference, elem_of_singleton, not_elem_of_cons. tauto.
Qed.

(** X19.  [setGroup(keys, true)] selects every key of the group and
    [setGroup(keys, false)] clears every one of them; both leave the keys
    outside the group as they were, so "Clear" after "Select all" leaves
    the selection without the group. *)
Theorem setGroup_membership (keys : list string) (prev : gset string)
  (k : string) :
  (k ∈ setGroup keys true prev <-> k ∈ prev \/ k ∈ keys) /\
  (k ∈ setGroup keys false prev <-> k ∈ prev /\ k ∉ keys) /\
  (k ∈ setGroup keys false (setGroup keys true prev)
   <-> k ∈ prev /\ k ∉ keys).
Proof.
  split; [apply (setGroup_elem keys true)|].
  split; [apply (setGroup_elem keys false)|].
  rewrite (setGroup_elem keys false), (setGroup_elem keys true). tauto.
Qed.

(** ** The traffic splits *)

Lemma Math_max_choice a b :
  Math_max a b = a \/ Math_max a b = b \/ Math_max a b = NaN.
Proof.
  destruct (isNaN a) eqn:Na.
  { right; right. unfold Math_max. now rewrite Na. }
  destruct (isNaN b) eqn:Nb.
  { right; right. unfold Math_max. now rewrite Na, Nb. }
  destruct (Math_max_cases a b Na Nb) as [[E _]|[E _]]; auto.
Qed.

Lemma Math_min_choice a b :
  Math_min a b = a \/ Math_min a b = b \/ Math_min a b = NaN.
Proof.
  destruct (isNaN a) eqn:Na.
  { right; right. unfold Math_min. now rewrite Na. }
  destruct (isNaN b) eqn:Nb.
  { right; right. unfold Math_min. now rewrite Na, Nb. }
  destruct (Math_min_cases a b Na Nb) as [[E _]|[E _]]; auto.
Qed.

Lemma clamp_valid x lo hi :
  valid x = true -> valid lo = true -> valid hi = true ->
  valid (clamp x lo hi) = true.
Proof.
  intros Vx Vlo Vhi. unfold clamp.
  destruct (Math_max_choice lo (Math_min hi x)) as [-> |[-> | ->]];
    [exact Vlo| |reflexivity].
  destruct (Math_min_choice hi x) as [-> |[-> | ->]];
    [exact Vhi|exact Vx|reflexivity].
Qed.

Lemma or_else_valid x : valid x = true -> valid (or_else x pos_zero) = true.
Proof. intros V. unfold or_else. now destruct (truthy x). Qed.

Lemma between_finite lo x hi :
  isFinite lo = true -> isFinite hi = true ->
  le lo x = true -> le x hi = true -> isFinite x = true.
Proof.
  intros Flo Fhi H1 H2.
  destruct x as [s|[]| |s m e]; try reflexivity; try discriminate.
  - destruct lo as [?|[]| |[] ? ?]; discriminate.
  - destruct hi as [?|[]| |[] ? ?]; discriminate.
Qed.

(** A split as [setSplitPair] first makes it: a fraction in [0, 1]. *)
Lemma unit_split c :
  valid c = true ->
  let c0 := clamp (or_else c pos_zero) pos_zero (of_Z 1) in
  valid c0 = true /\ has_sign false c0 /\ le c0 (of_Z 1) = true /\
  isFinite c0 = true.
Proof.
  intros V c0.
  assert (N : isNaN c0 = false).
  { unfold c0. rewrite clamp_NaN, or_else_not_NaN. reflexivity. }
  assert (S : has_sign false c0).
  { destruct (clamp_unit_shape (or_else c pos_zero)) as [S|E]; [exact S|].
    fold c0 in E. rewrite E in N. discriminate. }
  destruct (clamp_between (or_else c pos_zero) pos_zero (of_Z 1)
              (or_else_not_NaN c) eq_refl) as (L0 & L1 & _).
  fold c0 in L0, L1.
  split; [|split; [exact S|split; [exact L1|]]].
  - apply clamp_valid; [now apply or_else_valid|reflexivity|reflexivity].
  - now apply (between_finite pos_zero c0 (of_Z 1)).
Qed.

Lemma add_le_mono_fin a b c d :
  valid a = true -> valid b = true -> valid c = true -> valid d = true ->
  isFinite a = true -> isFinite b = true ->
  isFinite c = true -> isFinite d = true ->
  le a b = true -> le c d = true -> le (a + c)%num (b + d)%num = true.
Proof.
  intros Va Vb Vc Vd Fa Fb Fc Fd H1 H2.
  apply (srounds_mono (fval a + fval c) _ (fval b + fval d));
    try now apply add_srounds.
  pose proof (le_fval _ _ Va Vb Fa Fb H1).
  pose proof (le_fval _ _ Vc Vd Fc Fd H2). lra.
Qed.

Lemma add_zero_r x :
  has_sign false x -> isFinite x = true -> (x + pos_zero)%num = x.
Proof. destruct x as [[]|[]| |[] m e]; try discriminate; reflexivity. Qed.

Lemma add_zero_l x :
  has_sign false x -> isFinite x = true -> (pos_zero + x)%num = x.
Proof. destruct x as [[]|[]| |[] m e]; try discriminate; reflexivity. Qed.

Lemma not_gt_le a b :
  isNaN a = false -> isNaN b = false -> gt a b = false -> le a b = true.
Proof.
  intros Na Nb G. destruct (le a b) eqn:L; [reflexivity|].
  apply not_le_lt in L; auto. unfold gt, lt in *. congruence.
Qed.

Lemma positive_finite_form x :
  gt x pos_zero = true -> isFinite x = true ->
  exists m e, x = S754_finite false m e.
Proof.
  destruct x as [s|s| |[] m e]; try discriminate; intros _ _; eauto.
Qed.

Lemma mul_finite_r_not_NaN x s m e :
  isNaN x = false -> isNaN (x * S754_finite s m e)%num = false.
Proof.
  destruct x as [s'|s'| |s' m' e']; try reflexivity; try discriminate.
  intros _. unfold mul, SFmul.
  apply (has_sign_not_NaN (xorb s' s)), binary_round_aux_sign. lia.
Qed.

(** A part [x] of a total above 0.98, scaled to 98%. *)
Lemma scaled_split x tot :
  valid x = true -> valid tot = true ->
  has_sign false x -> isFinite x = true -> isFinite tot = true ->
  gt tot (dec 98 2) = true -> le x tot = true ->
  le pos_zero (x / tot * dec 98 2)%num = true /\
  le (x / tot * dec 98 2)%num (dec 98 2) = true.
Proof.
  intros Vx Vt Sx Fx Ft G L.
  assert (Gt0 : gt tot pos_zero = true).
  { apply lt_le_trans with (dec 98 2); [reflexivity|]. now apply lt_le. }
  assert (St : has_sign false tot) by now apply gt_zero_sign.
  assert (Nt : isNaN tot = false) by now apply isFinite_not_NaN.
  assert (Nx : isNaN x = false) by now apply isFinite_not_NaN.
  assert (E1 : (tot / tot)%num = of_Z 1) by now apply div_self.
  clear G.
  destruct (positive_finite_form tot Gt0 Ft) as (m & e & Et).
  assert (Nq : isNaN (x / tot)%num = false)
    by (rewrite Et; now apply div_finite_not_NaN).
  assert (Q1 : le (x / tot)%num (of_Z 1) = true).
  { rewrite <- E1.
    apply div_le_mono; try assumption.
    - now apply sign_nonneg.
    - now apply le_refl.
    - rewrite E1. reflexivity. }
  assert (Q0 : nonneg (x / tot)%num).
  { assert (Z : (pos_zero / tot)%num = pos_zero)
      by (rewrite Et; reflexivity).
    unfold nonneg. rewrite <- Z at 1.
    apply div_le_mono; try assumption; try reflexivity.
    - now apply sign_nonneg.
    - now apply le_refl.
    - rewrite Z. reflexivity. }
  assert (Vq : valid (x / tot)%num = true) by apply div_valid.
  assert (E98 : (of_Z 1 * dec 98 2)%num = dec 98 2)
    by (vm_compute; reflexivity).
  assert (F98 : dec 98 2 = S754_finite false 8827055269646172 (-53))
    by (vm_compute; reflexivity).
  assert (Np : isNaN (x / tot * dec 98 2)%num = false)
    by (rewrite F98; now apply mul_finite_r_not_NaN).
  assert (Hle : le (x / tot * dec 98 2)%num (dec 98 2) = true).
  { rewrite <- E98 at 2.
    apply mul_le_mono; try assumption; reflexivity. }
  split; [|exact Hle].
  apply mul_nonneg; try assumption; reflexivity.
Qed.

Lemma setSplitPair_parts c t :
  valid c = true -> valid t = true ->
  let p := setSplitPair c t in
  (le pos_zero p.1 = true /\ le p.1 (dec 98 2) = true) /\
  (le pos_zero p.2 = true /\ le p.2 (dec 98 2) = true).
Proof.
  intros Vc Vt. unfold setSplitPair. cbv zeta.
  destruct (unit_split c Vc) as (Vc0 & Sc0 & Lc0 & Fc0).
  destruct (unit_split t Vt) as (Vt0 & St0 & Lt0 & Ft0).
  cbv zeta in Vc0, Sc0, Lc0, Fc0, Vt0, St0, Lt0, Ft0.
  set (c0 := clamp (or_else c pos_zero) pos_zero (of_Z 1)) in *.
  set (t0 := clamp (or_else t pos_zero) pos_zero (of_Z 1)) in *.
  assert (Vtot : valid (c0 + t0)%num = true) by now apply add_valid.
  assert (Hc : le c0 (c0 + t0)%num = true).
  { rewrite <- (add_zero_r c0 Sc0 Fc0) at 1.
    apply add_le_mono_fin; try assumption; try reflexivity.
    - now apply le_refl, isFinite_not_NaN.
    - now apply sign_nonneg. }
  assert (Ht : le t0 (c0 + t0)%num = true).
  { rewrite <- (add_zero_l t0 St0 Ft0) at 1.
    apply add_le_mono_fin; try assumption; try reflexivity.
    - now apply sign_nonneg.
    - now apply le_refl, isFinite_not_NaN. }
  assert (H2 : le (c0 + t0)%num (of_Z 2) = true).
  { change (of_Z 2) with (of_Z 1 + of_Z 1)%num.
    apply add_le_mono_fin; try assumption; reflexivity. }
  assert (Ftot : isFinite (c0 + t0)%num = true).
  { apply (between_finite c0 _ (of_Z 2)); try assumption. reflexivity. }
  destruct (gt (c0 + t0)%num (dec 98 2)) eqn:G; cbn [fst snd].
  - split; now apply scaled_split.
  - assert (L : le (c0 + t0)%num (dec 98 2) = true).
    { apply not_gt_le; [now apply isFinite_not_NaN|reflexivity|exact G]. }
    split; (split; [now apply sign_nonneg|eapply le_trans; eassumption]).
Qed.

(** X20.  Whatever two numbers are typed, [setSplitPair] stores two splits
    that are numbers between 0 and 0.98. *)
Theorem setSplitPair_bounds (c t : number) :
  valid c = true -> valid t = true ->
  le pos_zero (setSplitPair c t).1 = true /\
  le (setSplitPair c t).1 (dec 98 2) = true /\
  le pos_zero (setSplitPair c t).2 = true /\
  le (setSplitPair c t).2 (dec 98 2) = true.
Proof.
  intros Vc Vt. destruct (setSplitPair_parts c t Vc Vt) as [[H1 H2] [H3 H4]].
  repeat split; assumption.
Qed.

Lemma setSplitPair_bounds_witness :
  le (setSplitPair (dec 7 1) (dec 6 1)).1 (dec 98 2) = true /\
  le (setSplitPair (dec 7 1) (dec 6 1)).2 (dec 98 2) = true.
Proof.
  destruct (setSplitPair_bounds (dec 7 1) (dec 6 1) eq_refl eq_refl)
    as (_ & H1 & _ & H2).
  split; assumption.
Defined.

(** ** "Apply as split" *)

Lemma valid_intro s m e :
  fexp prec emax (Zdigits2 (Zpos m) + e) = e -> e <= emax - prec ->
  valid (S754_finite s m e) = true.
Proof.
  intros C B. unfold valid, valid_binary, bounded, canonical_mantissa.
  apply andb_true_intro. split; [apply Z.eqb_eq; exact C|apply Z.leb_le; exact B].
Qed.

(** Doubling a fraction is exact. *)
Lemma add_self_value x :
  valid x = true -> has_sign false x -> le x (of_Z 1) = true ->
  isFinite (x + x)%num = true /\ valid (x + x)%num = true /\
  (fval (x + x)%num = 2 * fval x)%R.
Proof.
  intros V S L.
  destruct x as [[]|[]| |[] m e]; try discriminate; try contradiction.
  { split; [reflexivity|]. split; [reflexivity|]. simpl. lra. }
  assert (Fx : isFinite (S754_finite false m e) = true) by reflexivity.
  pose proof (add_srounds _ _ V V Fx Fx) as Sr.
  destruct (valid_canonical _ _ _ V) as [C B].
  destruct (canonical_digits _ _ C) as (D & Dn & Em).
  assert (He : e <= -52).
  { assert (E1 : of_Z 1 = S754_finite false 4503599627370496 (-52))
      by (vm_compute; reflexivity).
    rewrite E1 in L. apply le_kle in L; try reflexivity.
    unfold kle in L. cbn [ckey fst snd] in L. lia. }
  assert (Hz : exists z, valid z = true /\ isFinite z = true /\
                         is_zero z = false /\
                         (fval z = 2 * fval (S754_finite false m e))%R).
  { destruct (Z.eq_dec (Zdigits2 (Zpos m)) prec) as [Ed|Nd].
    - exists (S754_finite false m (e + 1)). split; [|split; [|split]];
        try reflexivity.
      + apply valid_intro; [|unfold emax, prec; lia].
        rewrite Ed. revert C. rewrite Ed. unfold fexp, emin, emax, prec. lia.
      + unfold fval. rewrite pow2_add.
        replace (pow2 1) with 2%R by (unfold pow2; simpl; lra). ring.
    - assert (E' : e = emin prec emax) by (unfold prec in *; lia).
      exists (S754_finite false (2 * m) e). split; [|split; [|split]];
        try reflexivity.
      + assert (Hd : Zdigits2 (Zpos (2 * m)) = Zdigits2 (Zpos m) + 1).
        { change (Zpos (2 * m)) with (2 * Zpos m).
          rewrite Z.mul_comm. change 2 with (2 ^ 1) at 1.
          apply digits_shift; lia. }
        apply valid_intro; [|exact B].
        rewrite Hd. subst e. unfold fexp, emin, emax, prec in *. lia.
      + unfold fval. change (Zpos (2 * m)) with (2 * Zpos m).
        rewrite mult_IZR. ring. }
  destruct Hz as (z & Vz & Fz & Nz & Ez).
  replace (fval (S754_finite false m e) + fval (S754_finite false m e))%R
    with (fval z) in Sr by lra.
  destruct (srounds_unique _ _ _ Sr (valid_srounds z Vz Fz)) as [E|[_ Z]];
    [|congruence].
  rewrite E. split; [exact Fz|]. split; [exact Vz|exact Ez].
Qed.

Lemma fval_le x y :
  valid x = true -> valid y = true -> isFinite x = true -> isFinite y = true ->
  (fval x <= fval y)%R -> le x y = true.
Proof.
  intros Vx Vy Fx Fy H.
  exact (srounds_mono _ _ _ _ (valid_srounds x Vx Fx) (valid_srounds y Vy Fy) H).
Qed.

(** The fraction [applyToSplit] passes on: a number in [0, hi]. *)
Lemma apply_fraction q hi :
  valid q = true -> isNaN q = false ->
  valid hi = true -> le pos_zero hi = true -> lt hi (of_Z 1) = true ->
  let frac := clamp q pos_zero hi in
  valid frac = true /\ has_sign false frac /\ le frac hi = true /\
  clamp (or_else frac pos_zero) pos_zero (of_Z 1) = frac.
Proof.
  intros V N Vh Lh Hh frac.
  destruct (le_not_NaN _ _ Lh) as [_ Nh].
  assert (Nf : isNaN frac = false).
  { unfold frac. rewrite clamp_NaN, N, Nh. reflexivity. }
  assert (S : has_sign false frac).
  { destruct (Math_max_zero_shape (Math_min hi q)) as [S|E];
      [exact S|]. unfold frac, clamp in Nf. rewrite E in Nf. discriminate Nf. }
  destruct (clamp_between q pos_zero hi N Lh) as (L0 & L1 & _).
  fold frac in L0, L1.
  split; [apply clamp_valid; [exact V|reflexivity|exact Vh]|].
  split; [exact S|]. split; [exact L1|].
  assert (Eo : or_else frac pos_zero = frac).
  { clear - S Nf. destruct frac as [[]|[]| |[] m e]; simpl in S;
      try discriminate S; try discriminate Nf; reflexivity. }
  rewrite Eo. unfold clamp.
  assert (Em : Math_min (of_Z 1) frac = frac).
  { destruct (Math_min_cases (of_Z 1) frac eq_refl Nf) as [[_ H]|[E _]];
      [|exact E].
    exfalso. assert (C : le (of_Z 1) hi = true)
      by (eapply le_trans; [exact H|exact L1]).
    apply lt_kle in Hh; [|exact Nh|reflexivity].
    apply le_kle in C; [|reflexivity|exact Nh]. contradiction. }
  rewrite Em. apply Math_max_zero_nonneg. left. exact S.
Qed.

(** Two equal parts [frac] of a total, under the rule of [setSplitPair]
    with the bound [hi] and its half [lo]. *)
Lemma even_split frac hi lo half :
  valid frac = true -> has_sign false frac -> le frac hi = true ->
  valid hi = true -> isFinite hi = true -> lt pos_zero hi = true ->
  le hi (of_Z 1) = true ->
  valid lo = true -> isFinite lo = true -> (fval lo = fval hi / 2)%R ->
  valid half = true -> isFinite half = true -> is_zero half = false ->
  (fval half = / 2)%R -> (half * hi)%num = lo ->
  let p := if gt (frac + frac)%num hi
           then ((frac / (frac + frac) * hi)%num,
                 (frac / (frac + frac) * hi)%num)
           else (frac, frac) in
  p.1 = p.2 /\ le pos_zero p.1 = true /\ le p.1 lo = true.
Proof.
  intros Vf Sf Lf Vh Fh Ph Lh1 Vl Fl El Va Fa Za Ea Em.
  assert (L1 : le frac (of_Z 1) = true)
    by (eapply le_trans; [exact Lf|exact Lh1]).
  destruct (add_self_value frac Vf Sf L1) as (Ft & Vt & Et).
  assert (Ff : isFinite frac = true).
  { apply (between_finite pos_zero frac (of_Z 1)); try reflexivity;
      [apply sign_nonneg; exact Sf|exact L1]. }
  cbv zeta.
  destruct (gt (frac + frac)%num hi) eqn:Gt; cbn [fst snd].
  - split; [reflexivity|].
    assert (Gt0 : gt (frac + frac)%num pos_zero = true).
    { apply lt_le_trans with hi; [exact Ph|]. apply lt_le. exact Gt. }
    destruct (positive_finite_form _ Gt0 Ft) as (m & e & E).
    assert (Eh : (frac / (frac + frac))%num = half).
    { pose proof (div_srounds frac false m e Ff) as Sr. rewrite <- E in Sr.
      assert (P : (0 < fval (frac + frac)%num)%R)
        by (rewrite E; apply fval_pos).
      replace (fval frac / fval (frac + frac)%num)%R with (fval half) in Sr.
      - destruct (srounds_unique _ _ _ Sr (valid_srounds half Va Fa))
          as [Eq|[_ Z]]; [exact Eq|congruence].
      - rewrite Ea, Et. rewrite Et in P. field. lra. }
    rewrite Eh, Em. split.
    + apply fval_le; try assumption; try reflexivity.
      rewrite El. simpl fval.
      assert (0 <= fval hi)%R; [|lra].
      apply (le_fval pos_zero hi eq_refl Vh eq_refl Fh). apply lt_le. exact Ph.
    + apply le_refl. apply isFinite_not_NaN. exact Fl.
  - split; [reflexivity|]. split; [apply sign_nonneg; exact Sf|].
    assert (L : le (frac + frac)%num hi = true).
    { apply not_gt_le; [apply isFinite_not_NaN; exact Ft
                       |apply isFinite_not_NaN; exact Fh|exact Gt]. }
    pose proof (le_fval _ _ Vt Vh Ft Fh L) as R.
    apply fval_le; try assumption. lra.
Qed.

Lemma half_of_98 :
  (fval (dec 49 2) = fval (dec 98 2) / 2)%R /\
  (dec 5 1 * dec 98 2)%num = dec 49 2 /\
  (fval (dec 5 1) = / 2)%R.
Proof.
  split; [|split; [vm_compute; reflexivity|]].
  - assert (E1 : dec 49 2 = S754_finite false 8827055269646172 (-54))
      by (vm_compute; reflexivity).
    assert (E2 : dec 98 2 = S754_finite false 8827055269646172 (-53))
      by (vm_compute; reflexivity).
    rewrite E1, E2. unfold fval.
    replace (-53) with (-54 + 1) by lia. rewrite pow2_add.
    replace (pow2 1) with 2%R by (unfold pow2; simpl; lra). field.
  - assert (E5 : dec 5 1 = S754_finite false 4503599627370496 (-53))
      by (vm_compute; reflexivity).
    rewrite E5. unfold fval.
    replace (IZR 4503599627370496) with (pow2 52)
      by (rewrite pow2_IZR by lia; reflexivity).
    rewrite <- pow2_add. replace (52 + -53) with (-1) by lia.
    unfold pow2. simpl. lra.
Qed.

(** X21.  "Apply as split" acts only for a finite n and a positive DAU
    total, and then gives both arms the same share, a number between 0
    and 0.49; otherwise it leaves the splits as they are. *)
Theorem applyToSplit_even_shares (sumDAUWindow n : number)
  (st : number * number) :
  if isFinite n && gt sumDAUWindow pos_zero
  then (applyToSplit sumDAUWindow n st).1 = (applyToSplit sumDAUWindow n st).2
       /\ le pos_zero (applyToSplit sumDAUWindow n st).1 = true
       /\ le (applyToSplit sumDAUWindow n st).1 (dec 49 2) = true
  else applyToSplit sumDAUWindow n st = st.
Proof.
  unfold applyToSplit.
  destruct (isFinite n && gt sumDAUWindow pos_zero) eqn:G; [|reflexivity].
  apply andb_prop in G as [Fn Gs]. cbv zeta.
  assert (Nq : isNaN (n / sumDAUWindow)%num = false).
  { clear - Fn Gs.
    destruct sumDAUWindow as [?|[]| |[] m e]; try discriminate Gs.
    - destruct n; try discriminate Fn; reflexivity.
    - apply div_finite_not_NaN. apply isFinite_not_NaN. exact Fn. }
  destruct half_of_98 as (H49 & M49 & H5).
  assert (V98 : valid (dec 98 2) = true) by (vm_compute; reflexivity).
  assert (F98 : isFinite (dec 98 2) = true) by (vm_compute; reflexivity).
  assert (P98 : lt pos_zero (dec 98 2) = true) by (vm_compute; reflexivity).
  assert (L98 : lt (dec 98 2) (of_Z 1) = true) by (vm_compute; reflexivity).
  assert (V49 : valid (dec 49 2) = true) by (vm_compute; reflexivity).
  assert (F49 : isFinite (dec 49 2) = true) by (vm_compute; reflexivity).
  assert (V5 : valid (dec 5 1) = true) by (vm_compute; reflexivity).
  assert (F5 : isFinite (dec 5 1) = true) by (vm_compute; reflexivity).
  assert (Z5 : is_zero (dec 5 1) = false) by (vm_compute; reflexivity).
  revert H49 M49 H5 V98 F98 P98 L98 V49 F49 V5 F5 Z5.
  unfold setSplitPair.
  generalize (dec 98 2) (dec 49 2) (dec 5 1). intros hi lo half.
  intros H49 M49 H5 V98 F98 P98 L98 V49 F49 V5 F5 Z5.
  destruct (apply_fraction (n / sumDAUWindow)%num hi (div_valid _ _) Nq
              V98 (lt_le _ _ P98) L98) as (Vf & Sf & Lf & Ef).
  cbv zeta in Vf, Sf, Lf, Ef. cbv zeta. rewrite Ef.
  exact (even_split _ hi lo half Vf Sf Lf V98 F98 P98 (lt_le _ _ L98)
           V49 F49 H49 V5 F5 Z5 H5 M49).
Qed.

(** ** The selected keys of a group *)

Lemma selected_of_all (keys : list string) (sel : gset string) :
  (forall k, k ∈ keys -> k ∈ sel) -> selected_of keys sel = keys.
Proof.
  unfold selected_of. induction keys as [|k keys IH]; intros H;
    [reflexivity|].
  rewrite filter_cons, decide_True by (apply H; apply list_elem_of_here).
  f_equal. apply IH. intros k' Hk. apply H. apply list_elem_of_further.
  exact Hk.
Qed.

Lemma selected_of_none (keys : list string) (sel : gset string) :
  (forall k, k ∈ keys -> k ∉ sel) -> selected_of keys sel = [].
Proof.
  unfold selected_of. induction keys as [|k keys IH]; intros H;
    [reflexivity|].
  rewrite filter_cons, decide_False by (apply H; apply list_elem_of_here).
  apply IH. intros k' Hk. apply H. apply list_elem_of_further. exact Hk.
Qed.

Lemma selected_of_ext (keys : list string) (s1 s2 : gset string) :
  (forall k, k ∈ keys -> (k ∈ s1 <-> k ∈ s2)) ->
  selected_of keys s1 = selected_of keys s2.
Proof.
  unfold selected_of. induction keys as [|k keys IH]; intros H;
    [reflexivity|].
  rewrite !filter_cons.
  assert (Hk : k ∈ s1 <-> k ∈ s2) by (apply H; apply list_elem_of_here).
  assert (E : filter (fun k0 => k0 ∈ s1) keys = filter (fun k0 => k0 ∈ s2) keys).
  { apply IH. intros k' Hk'. apply H. apply list_elem_of_further. exact Hk'. }
  destruct (decide (k ∈ s1)) as [I|I].
  - rewrite decide_True by (apply Hk; exact I). f_equal. exact E.
  - rewrite decide_False by (intros J; apply I, Hk; exact J). exact E.
Qed.

(** X22.  After [setGroup(keys, true)] the selected keys of the group are
    all of [keys], in the order of the group; after [setGroup(keys,
    false)] there are none; and the selected keys of a list that shares no
    key with the group are what they were. *)
Theorem setGroup_selected_keys (keys others : list string)
  (prev : gset string) (checked : bool) :
  (forall k, k ∈ others -> k ∉ keys) ->
  selected_of keys (setGroup keys checked prev)
    = (if checked then keys else []) /\
  selected_of others (setGroup keys checked prev) = selected_of others prev.
Proof.
  intros D. split.
  - destruct checked.
    + apply selected_of_all. intros k Hk.
      apply (setGroup_elem keys true). right. exact Hk.
    + apply selected_of_none. intros k Hk Hin.
      apply (setGroup_elem keys false) in Hin. destruct Hin as [_ N].
      exact (N Hk).
  - apply selected_of_ext. intros k Hk. rewrite (setGroup_elem keys checked).
    pose proof (D k Hk) as N. destruct checked; tauto.
Qed.

Lemma setGroup_selected_keys_witness :
  selected_of SUCCESS_KEYS (setGroup SUCCESS_KEYS true ∅) = SUCCESS_KEYS /\
  selected_of GUARDRAIL_KEYS (setGroup SUCCESS_KEYS true ∅)
    = selected_of GUARDRAIL_KEYS ∅.
Proof.
  apply (setGroup_selected_keys SUCCESS_KEYS GUARDRAIL_KEYS ∅ true).
  apply (proj1 (Forall_forall (fun k => k ∉ SUCCESS_KEYS) GUARDRAIL_KEYS)).
  apply (bool_decide_unpack _). vm_compute. exact I.
Defined.

(** ** The square root and the confidence interval of [computeStats] *)

Lemma digits_sqrt n : 0 < n -> Zdigits2 (Z.sqrt n) = Z.div2 (Zdigits2 n + 1).
Proof.
  intros Hn. pose proof (digits_bounds n Hn) as [B1 B2].
  pose proof (digits_pos n Hn) as Hd.
  rewrite Z.div2_div. set (k := Zdigits2 n) in *.
  set (c := (k + 1) / 2).
  assert (Hc : 2 * c = k \/ 2 * c = k + 1) by (unfold c; lia).
  assert (Hc1 : 1 <= c) by lia.
  apply digits_unique; [exact Hc1|]. split.
  - apply Z.sqrt_le_square; [lia|apply Z.pow_nonneg; lia|].
    rewrite <- Z.pow_add_r by lia.
    apply Z.le_trans with (2 ^ (k - 1)); [|exact B1].
    apply Z.pow_le_mono_r; lia.
  - apply Z.sqrt_lt_square; [lia|apply Z.pow_nonneg; lia|].
    rewrite <- Z.pow_add_r by lia.
    apply Z.lt_le_trans with (2 ^ k); [exact B2|].
    apply Z.pow_le_mono_r; lia.
Qed.

(** The mantissa and exponent [SFsqrt_core_binary] hands to the rounding
    step: the root is not negative and wide enough for its exponent. *)
Lemma sqrt_core_facts m e :
  let '(q, e', _) := SFsqrt_core_binary prec emax (Zpos m) e in
  0 <= q /\ e' <= fexp prec emax (Zdigits2 q + e').
Proof.
  unfold SFsqrt_core_binary.
  set (d := Zdigits2 (Zpos m)).
  set (e' := Z.min (fexp prec emax (Z.div2 (d + e + 1))) (Z.div2 e)).
  set (s := e - 2 * e').
  assert (Hs : 0 <= s).
  { unfold s, e'. pose proof (Z.div2_div e). lia. }
  set (m' := match s with Zpos _ => Z.shiftl (Zpos m) s | 0 => Zpos m
             | Zneg _ => 0 end).
  assert (Em : m' = Zpos m * 2 ^ s).
  { unfold m'. destruct s as [|p|p] eqn:Es; [simpl; lia| |lia].
    rewrite Z.shiftl_mul_pow2 by lia. reflexivity. }
  pose proof (Z.sqrtrem_spec m') as Sp.
  assert (Pm : 0 < m').
  { rewrite Em. apply Z.mul_pos_pos; [lia|apply Z.pow_pos_nonneg; lia]. }
  pose proof (Z.sqrtrem_sqrt m') as Sq.
  destruct (Z.sqrtrem m') as [q r]. cbn [fst] in Sq. subst q.
  split; [apply Z.sqrt_nonneg|].
  rewrite digits_sqrt by exact Pm.
  rewrite Em, digits_shift by lia. fold d.
  assert (E : Z.div2 (d + s + 1) + e' = Z.div2 (d + e + 1)).
  { rewrite !Z.div2_div. unfold s. lia. }
  rewrite E. unfold e'. lia.
Qed.

Lemma Math_sqrt_valid x : valid (Math_sqrt x) = true.
Proof.
  destruct x as [s|[]| |[] m e]; try reflexivity.
  unfold Math_sqrt, SFsqrt.
  pose proof (sqrt_core_facts m e) as F.
  destruct (SFsqrt_core_binary prec emax (Zpos m) e) as [[q e'] l].
  destruct F as [Hq He].
  rewrite binary_round_aux_spec by assumption.
  apply round_fin_valid.
  - unfold code. pose proof (loc_bits_range l). lia.
  - rewrite code_div. exact He.
Qed.

Lemma Math_sqrt_nonneg x :
  isNaN (Math_sqrt x) = false -> nonneg (Math_sqrt x).
Proof.
  destruct x as [s|[]| |[] m e]; try discriminate; intros _;
    [destruct s; reflexivity|reflexivity|].
  unfold Math_sqrt, SFsqrt.
  pose proof (sqrt_core_facts m e) as F.
  destruct (SFsqrt_core_binary prec emax (Zpos m) e) as [[q e'] l].
  destruct F as [Hq _].
  apply sign_nonneg, binary_round_aux_sign. exact Hq.
Qed.

Lemma sub_zero_r x : (x - pos_zero)%num = x.
Proof. destruct x as [[]|[]| |[] m e]; reflexivity. Qed.

Lemma le_add_zero x : isNaN x = false -> le x (x + pos_zero)%num = true.
Proof.
  intros N. destruct x as [[]|[]| |[] m e]; try discriminate N;
    try reflexivity; cbn [add SFadd]; apply le_refl; reflexivity.
Qed.

Lemma sub_valid x y :
  valid x = true -> valid y = true -> valid (x - y)%num = true.
Proof.
  intros Vx Vy. rewrite sub_add_neg. apply add_valid; [exact Vx|].
  destruct y; exact Vy.
Qed.

(** A number is between itself less and itself plus a margin that is not
    negative. *)
Lemma margin_brackets x t :
  valid x = true -> valid t = true -> nonneg t ->
  (isNaN (x - t)%num = false -> le (x - t)%num x = true) /\
  (isNaN (x + t)%num = false -> le x (x + t)%num = true).
Proof.
  intros Vx Vt Nt. split; intros N.
  - assert (Nx : isNaN x = false).
    { rewrite sub_add_neg in N. exact (proj1 (add_not_NaN _ _ N)). }
    pose proof (sub_le_mono_r x pos_zero t Vx eq_refl Vt Nt) as H.
    rewrite sub_zero_r in H. exact (H Nx N).
  - assert (Nx : isNaN x = false) by exact (proj1 (add_not_NaN _ _ N)).
    apply le_trans with (x + pos_zero)%num; [exact (le_add_zero x Nx)|].
    apply (add_le_mono_r x pos_zero t Vx eq_refl Vt Nt); [|exact N].
    destruct x as [[]|[]| |[] m e]; try discriminate Nx; reflexivity.
Qed.

(** X23.  The confidence bounds of [computeStats] bracket the
    difference: whenever [ciLow] is a number it is at most [diff], and
    whenever [ciHigh] is a number it is at least [diff]. *)
Theorem computeStats_interval (M : MathLib)
  (muC liftPct nC nT varBoost : number) :
  valid muC = true -> valid liftPct = true ->
  let s := computeStats M muC liftPct nC nT varBoost in
  (isNaN (st_ciLow s) = false -> le (st_ciLow s) (st_diff s) = true) /\
  (isNaN (st_ciHigh s) = false -> le (st_diff s) (st_ciHigh s) = true).
Proof.
  intros Vm Vl. cbv zeta. unfold computeStats.
  cbn [st_ciLow st_ciHigh st_diff].
  set (muT := (muC * (of_Z 1 + liftPct))%num).
  set (diff := (muT - muC)%num).
  set (se := Math_sqrt (muT * (of_Z 1 + varBoost) / nT
                        + muC * (of_Z 1 + varBoost) / nC)%num).
  assert (Vd : valid diff = true).
  { apply sub_valid; [|exact Vm]. apply mul_valid; [exact Vm|].
    apply add_valid; [apply of_Z_valid|exact Vl]. }
  assert (Vs : valid se = true) by apply Math_sqrt_valid.
  assert (Ns : isNaN se = false -> nonneg se) by apply Math_sqrt_nonneg.
  assert (Vz : valid zCritical = true) by (vm_compute; reflexivity).
  assert (Nz : nonneg zCritical) by (vm_compute; reflexivity).
  assert (Vt : valid (zCritical * se)%num = true)
    by (apply mul_valid; assumption).
  clearbody se diff. clear muT.
  destruct (isNaN (zCritical * se)%num) eqn:Nt.
  - assert (E : (zCritical * se)%num = NaN)
      by (destruct (zCritical * se)%num; try discriminate Nt; reflexivity).
    rewrite E. split; intros N.
    + rewrite sub_add_neg in N. apply add_not_NaN in N.
      destruct N as [_ N]. discriminate N.
    + apply add_not_NaN in N. destruct N as [_ N]. discriminate N.
  - apply margin_brackets; [exact Vd|exact Vt|].
    apply mul_nonneg; [exact Vz|exact Vs|exact Nz| |exact Nt].
    apply Ns. exact (proj2 (mul_not_NaN _ _ Nt)).
Qed.

Lemma computeStats_interval_witness :
  let s := computeStats RefMath.lib (dec 25 1) (dec 1 1) (of_Z 1000)
             (of_Z 1000) (dec 5 2) in
  le (st_ciLow s) (st_diff s) = true /\ le (st_diff s) (st_ciHigh s) = true.
Proof.
  cbv zeta.
  destruct (computeStats_interval RefMath.lib (dec 25 1) (dec 1 1)
              (of_Z 1000) (of_Z 1000) (dec 5 2)) as [L H];
    [vm_compute; reflexivity|vm_compute; reflexivity|].
  split; [apply L|apply H]; vm_compute; reflexivity.
Defined.

(** ** The lift of a guardrail metric *)

(** C2.  With the no-decline flag set and a generator that does not start
    at zero, the lift of a guardrail metric is produced, and it is
    [Math.max(0, lift)] of the derived lift: never negative, and at least
    0 as soon as the Gaussian draw it derives from is a number. *)
Theorem guardrail_lift_nonnegative (M : MathLib) (fuel : nat) (h : heap)
  (k : string) (data : list loc) (seed : Z) :
  includes GUARDRAIL_KEYS k = true ->
  createPRNG (mixedSeed h k data seed) <> 0 ->
  exists g s raw l,
    boxMuller M (S fuel) (createPRNG (mixedSeed h k data seed))
    = Some (g, s) /\
    deriveDataDrivenLift M (S fuel) h k data seed = Some raw /\
    lift_used M (S fuel) h k data seed true = Some l /\
    l = Math_max pos_zero raw /\
    lt l pos_zero = false /\
    (isNaN g = false -> le pos_zero l = true).
Proof.
  intros Hk Hs. apply createPRNG_state in Hs.
  destruct (boxMuller_returns M _ Hs) as (g & s & E1 & _).
  apply (boxMuller_more M 1 (S fuel) ltac:(lia)) in E1.
  exists g, s, (clamp (dec 10 2 + dec 10 2 * g)%num (- dec 5 1)%num (of_Z 2)),
    (Math_max pos_zero
       (clamp (dec 10 2 + dec 10 2 * g)%num (- dec 5 1)%num (of_Z 2))).
  split; [exact E1|].
  unfold lift_used, deriveDataDrivenLift. cbv zeta. rewrite E1, Hk.
  cbn [mbind option_bind andb].
  split; [reflexivity|]. split; [reflexivity|]. split; [reflexivity|].
  split; [apply Math_max_zero_not_negative|].
  intros Hg. apply Math_max_zero_ge. rewrite clamp_NaN.
  assert (E : exists s0 m e, dec 10 2 = S754_finite s0 m e)
    by (vm_compute; eauto).
  destruct E as (s0 & m0 & e0 & ->).
  rewrite add_finite_not_NaN by (apply mul_finite_not_NaN; exact Hg).
  reflexivity.
Qed.

(** On the example series with seed 24 the derived lift of Sessions is
    negative (about -0.037), and the lift used under the flag is +0. *)
Lemma guardrail_lift_nonnegative_witness :
  includes GUARDRAIL_KEYS "Sessions" = true /\
  createPRNG (mixedSeed example_heap "Sessions" example_data 24) <> 0 /\
  exists raw,
    deriveDataDrivenLift RefMath.lib 1 example_heap "Sessions" example_data 24
    = Some raw /\
    lt raw pos_zero = true /\
    lift_used RefMath.lib 1 example_heap "Sessions" example_data 24 true
    = Some pos_zero.
Proof.
  assert (Hs : createPRNG (mixedSeed example_heap "Sessions" example_data 24)
               <> 0) by (vm_compute; discriminate).
  split; [reflexivity|]. split; [exact Hs|].
  destruct (guardrail_lift_nonnegative RefMath.lib 0 example_heap "Sessions"
              example_data 24 eq_refl Hs)
    as (g & s & raw & l & _ & ED & EL & El & _ & _).
  exists raw. split; [exact ED|].
  assert (C : deriveDataDrivenLift RefMath.lib 1 example_heap "Sessions"
                example_data 24
              = Some (S754_finite true 5287972835463512 (-57))).
  { vm_compute. reflexivity. }
  rewrite C in ED. apply Some_eq_inj in ED. subst raw.
  split; [reflexivity|]. rewrite EL, El. reflexivity.
Defined.

(** ** A second run sees the same series

    [simulateAB] reads the records of the series and the rows it made
    itself, nothing else: two runs from heaps that agree on the records
    write the same values, whatever the references of their rows. *)

Lemma sum_totals_same (hA hB : heap) k (L : list loc) :
  (forall d, d ∈ L -> hA !!! d = hB !!! d) ->
  sum_totals hA k L = sum_totals hB k L.
Proof.
  unfold sum_totals. generalize {| tot_metric := pos_zero; tot_users := pos_zero |}.
  induction L as [|d L IH]; intros acc H; [reflexivity|].
  cbn [fold_left].
  assert (E : add_totals hA k acc d = add_totals hB k acc d).
  { unfold add_totals, get_num, get. rewrite (H d); [reflexivity|left]. }
  rewrite E. apply IH. intros d' Hd'. apply H. right. exact Hd'.
Qed.

Lemma basePerUser_same (hA hB : heap) k (data : list loc) :
  (forall d, d ∈ data -> hA !!! d = hB !!! d) ->
  basePerUser hA k data = basePerUser hB k data.
Proof.
  intros H. unfold basePerUser. rewrite (sum_totals_same hA hB k data H).
  reflexivity.
Qed.

Lemma basePerUserUntil_same (hA hB : heap) k (data : list loc) n :
  (forall d, d ∈ data -> hA !!! d = hB !!! d) ->
  basePerUserUntil hA k data n = basePerUserUntil hB k data n.
Proof.
  intros H. unfold basePerUserUntil. cbv zeta.
  rewrite (basePerUser_same hA hB k data H).
  rewrite (sum_totals_same hA hB k (take n data)); [reflexivity|].
  intros d Hd. apply H. apply (subseteq_take n data d Hd).
Qed.

Lemma metric_sum_same (hA hB : heap) k (data : list loc) :
  (forall d, d ∈ data -> hA !!! d = hB !!! d) ->
  metric_sum hA k data = metric_sum hB k data.
Proof.
  unfold metric_sum. generalize pos_zero.
  induction data as [|d data IH]; intros a H; [reflexivity|].
  cbn [fold_left].
  assert (E : get_num hA d k = get_num hB d k).
  { unfold get_num, get. rewrite (H d); [reflexivity|left]. }
  rewrite E. apply IH. intros d' Hd'. apply H. right. exact Hd'.
Qed.

Lemma lift_used_same M fuel (hA hB : heap) k (data : list loc) seed enforce :
  (forall d, d ∈ data -> hA !!! d = hB !!! d) ->
  lift_used M fuel hA k data seed enforce
  = lift_used M fuel hB k data seed enforce.
Proof.
  intros H. unfold lift_used, deriveDataDrivenLift, mixedSeed.
  rewrite (metric_sum_same hA hB k data H). reflexivity.
Qed.

Section SecondRun.

Variable M : MathLib.
Variables (fuel : nat) (data : list loc) (seed : Z).
Variables (splitC splitT : number) (startIndex : nat).
Variable enforceNoDecline : bool.

(** The rows of the two runs. *)
Variables outA outB : list loc.
Hypothesis outA_NoDup : NoDup outA.
Hypothesis outB_NoDup : NoDup outB.
Hypothesis out_length : length outA = length outB.
Hypothesis data_outA : forall d, d ∈ data -> d ∉ outA.
Hypothesis data_outB : forall d, d ∈ data -> d ∉ outB.

(** The rows of the same day. *)
Definition paired (a b : loc) : Prop :=
  exists i, outA !! i = Some a /\ outB !! i = Some b.

(** The two heaps hold the same records and, day by day, the same
    rows. *)
Definition same_rows (hA hB : heap) : Prop :=
  (forall d, d ∈ data -> hA !!! d = hB !!! d) /\
  (forall a b, paired a b -> hA !!! a = hB !!! b).

Lemma paired_eq a b a' b' : paired a b -> paired a' b' -> (a = a' <-> b = b').
Proof.
  intros (i & Ha & Hb) (j & Ha' & Hb'). split; intros E; subst.
  - pose proof (NoDup_lookup _ _ _ _ outA_NoDup Ha Ha'). subst j. congruence.
  - pose proof (NoDup_lookup _ _ _ _ outB_NoDup Hb Hb'). subst j. congruence.
Qed.

Lemma paired_out : Forall2 paired outA outB.
Proof.
  apply Forall2_same_length_lookup_2; [exact out_length|].
  intros i a b Ha Hb. exists i. split; assumption.
Qed.

Lemma set_field_same (hA hB : heap) a b f v :
  same_rows hA hB -> paired a b ->
  same_rows (set_field hA a f v) (set_field hB b f v).
Proof.
  intros [R1 R2] P. pose proof P as (i & Ha & Hb).
  split.
  - intros d Hd. unfold set_field.
    rewrite !lookup_total_insert_ne; [apply R1; exact Hd| |].
    + intros ->. apply (data_outB d Hd). apply list_elem_of_lookup.
      exists i. exact Hb.
    + intros ->. apply (data_outA d Hd). apply list_elem_of_lookup.
      exists i. exact Ha.
  - intros a' b' P'. unfold set_field.
    destruct (decide (a' = a)) as [->|Hne].
    + assert (b' = b) by (apply (paired_eq a b' a b P' P); reflexivity).
      subst b'. rewrite !lookup_total_insert_eq. rewrite (R2 a b P).
      reflexivity.
    + assert (Hne' : b' <> b).
      { intros E. apply Hne. apply (paired_eq a' b' a b P' P). exact E. }
      rewrite !lookup_total_insert_ne by (intros E; congruence).
      apply R2. exact P'.
Qed.

Lemma clear_rows_same k (LA LB : list loc) :
  Forall2 paired LA LB ->
  forall hA hB, same_rows hA hB ->
    same_rows (fold_left (clear_row k) LA hA) (fold_left (clear_row k) LB hB).
Proof.
  induction 1 as [|a b LA LB P _ IH]; intros hA hB R; [exact R|].
  cbn [fold_left]. apply IH. unfold clear_row.
  apply set_field_same; [apply set_field_same|]; assumption.
Qed.

Lemma sim_day_same k muC_pre lift (hA hA' hB : heap) acc acc' i a b :
  sim_day M fuel k seed splitC splitT muC_pre lift (hA, acc) (i, a)
  = Some (hA', acc') ->
  same_rows hA hB -> paired a b ->
  exists hB',
    sim_day M fuel k seed splitC splitT muC_pre lift (hB, acc) (i, b)
    = Some (hB', acc') /\
    same_rows hA' hB'.
Proof.
  intros Hs R P.
  assert (E : get_num hB b "DAU" = get_num hA a "DAU").
  { unfold get_num, get. rewrite (proj2 R a b P). reflexivity. }
  unfold sim_day in *. cbv zeta in *. rewrite E.
  destruct (String.eqb k "DAU").
  - apply Some_pair_inj in Hs as [<- <-].
    eexists. split; [reflexivity|].
    apply set_field_same; [apply set_field_same|]; assumption.
  - destruct (boxMuller M fuel _) as [[g1 r1]|];
      cbn [mbind option_bind] in *; [|discriminate Hs].
    destruct (boxMuller M fuel r1) as [[g2 r2]|];
      cbn [mbind option_bind] in *; [|discriminate Hs].
    apply Some_pair_inj in Hs as [<- <-].
    eexists. split; [reflexivity|].
    apply set_field_same; [apply set_field_same|]; assumption.
Qed.

Lemma day_loop_same k muC_pre lift (LA LB : list (nat * loc)) :
  Forall2 (fun x y => x.1 = y.1 /\ paired x.2 y.2) LA LB ->
  forall (hA hA' hB : heap) acc acc',
    foldM (sim_day M fuel k seed splitC splitT muC_pre lift) LA (hA, acc)
    = Some (hA', acc') ->
    same_rows hA hB ->
    exists hB',
      foldM (sim_day M fuel k seed splitC splitT muC_pre lift) LB (hB, acc)
      = Some (hB', acc') /\
      same_rows hA' hB'.
Proof.
  induction 1 as [|[i a] [j b] LA LB [Eij P] _ IH];
    intros hA hA' hB acc acc' Hf R; cbn [foldM] in *.
  - apply Some_pair_inj in Hf as [<- <-]. exists hB. split; [reflexivity|exact R].
  - cbn [fst snd] in Eij, P. subst j.
    destruct (sim_day M fuel k seed splitC splitT muC_pre lift (hA, acc) (i, a))
      as [[hA1 acc1]|] eqn:Hd; cbn [mbind option_bind] in Hf; [|discriminate Hf].
    destruct (sim_day_same _ _ _ _ _ _ _ _ _ _ _ Hd R P) as (hB1 & Hd' & R1).
    rewrite Hd'. cbn [mbind option_bind].
    exact (IH _ _ _ _ _ Hf R1).
Qed.

Lemma window_paired :
  Forall2 (fun x y => x.1 = y.1 /\ paired x.2 y.2)
          (drop startIndex (indexed outA)) (drop startIndex (indexed outB)).
Proof.
  apply Forall2_drop. apply Forall2_same_length_lookup_2.
  - unfold indexed. rewrite !length_zip_with, !length_seq, out_length.
    reflexivity.
  - intros i [i1 a] [i2 b] Ha Hb. rewrite indexed_lookup in Ha, Hb.
    destruct (outA !! i) as [a'|] eqn:EA; [|discriminate Ha].
    destruct (outB !! i) as [b'|] eqn:EB; [|discriminate Hb].
    cbn [fmap option_fmap option_map] in Ha, Hb.
    apply Some_pair_inj in Ha as [<- <-]. apply Some_pair_inj in Hb as [<- <-].
    split; [reflexivity|]. exists i. split; assumption.
Qed.

Lemma sim_metric_same (hA hA' hB : heap) aggs aggs' m :
  sim_metric M fuel data outA seed splitC splitT startIndex enforceNoDecline
             (hA, aggs) m = Some (hA', aggs') ->
  same_rows hA hB ->
  exists hB',
    sim_metric M fuel data outB seed splitC splitT startIndex enforceNoDecline
               (hB, aggs) m = Some (hB', aggs') /\
    same_rows hA' hB'.
Proof.
  intros Hs R. unfold sim_metric in *. cbv zeta in *.
  rewrite <- (basePerUserUntil_same hA hB (key m) data startIndex (proj1 R)).
  rewrite <- (lift_used_same M fuel hA hB (key m) data seed enforceNoDecline
                (proj1 R)).
  destruct (lift_used M fuel hA (key m) data seed enforceNoDecline)
    as [lift|]; cbn [mbind option_bind] in *; [|discriminate Hs].
  destruct (foldM _ (drop startIndex (indexed outA)) _)
    as [[hA2 acc]|] eqn:Hloop; cbn [mbind option_bind] in Hs;
    [|discriminate Hs].
  apply Some_pair_inj in Hs as [<- <-].
  destruct (day_loop_same _ _ _ _ _ window_paired _ _
              (fold_left (clear_row (key m)) outB hB) _ _ Hloop)
    as (hB2 & Hloop' & R2).
  { apply clear_rows_same; [exact paired_out|exact R]. }
  rewrite Hloop'. cbn [mbind option_bind].
  exists hB2. split; [reflexivity|exact R2].
Qed.

Lemma metrics_same (ms : list metric) :
  forall (hA hA' hB : heap) aggs aggs',
    foldM (sim_metric M fuel data outA seed splitC splitT startIndex
                      enforceNoDecline) ms (hA, aggs) = Some (hA', aggs') ->
    same_rows hA hB ->
    exists hB',
      foldM (sim_metric M fuel data outB seed splitC splitT startIndex
                        enforceNoDecline) ms (hB, aggs) = Some (hB', aggs') /\
      same_rows hA' hB'.
Proof.
  induction ms as [|m ms IH]; intros hA hA' hB aggs aggs' Hf R;
    cbn [foldM] in *.
  - apply Some_pair_inj in Hf as [<- <-]. exists hB. split; [reflexivity|exact R].
  - destruct (sim_metric M fuel data outA seed splitC splitT startIndex
                enforceNoDecline (hA, aggs) m) as [[hA1 aggs1]|] eqn:Hm;
      cbn [mbind option_bind] in Hf; [|discriminate Hf].
    destruct (sim_metric_same _ _ _ _ _ _ Hm R) as (hB1 & Hm' & R1).
    rewrite Hm'. cbn [mbind option_bind].
    exact (IH _ _ _ _ _ Hf R1).
Qed.

End SecondRun.

(** Two runs from heaps that hold the same records: when the first
    returns, so does the second, with the same aggregates and, day by day,
    rows with the same fields. *)
Lemma simulateAB_same_series (M : MathLib) (fuel : nat) (hA hA' hB : heap)
  (data : list loc) (seed : Z) (splitC splitT : number) (testLen : Z)
  (enforce : bool) (resA : sim_result) :
  (forall d, d ∈ data -> d ∈ dom hA /\ d ∈ dom hB /\ hB !! d = hA !! d) ->
  simulateAB M fuel hA data seed splitC splitT testLen enforce
  = Some (hA', resA) ->
  exists hB' resB,
    simulateAB M fuel hB data seed splitC splitT testLen enforce
    = Some (hB', resB) /\
    aggregates resB = aggregates resA /\
    length (simData resB) = length data /\
    forall i a b, simData resA !! i = Some a -> simData resB !! i = Some b ->
      forall f, get hB' b f = get hA' a f.
Proof.
  intros Hd. unfold simulateAB. cbv zeta.
  destruct (copy_rows hA data) as [hA1 outA] eqn:HcA.
  destruct (copy_rows hB data) as [hB1 outB] eqn:HcB.
  destruct (copy_rows_spec _ _ _ _ HcA) as (LA & NA & OA & FA & RA).
  destruct (copy_rows_spec _ _ _ _ HcB) as (LB & NB & OB & FB & RB).
  destruct (foldM _ METRICS (hA1, _)) as [[hA2 aggsA]|] eqn:HfA;
    cbn [mbind option_bind]; [|discriminate].
  intros H. apply Some_pair_inj in H as [<- <-]. cbn [simData aggregates].
  assert (R : same_rows data outA outB hA1 hB1).
  { split.
    - intros d Hin. destruct (Hd d Hin) as (DA & DB & E).
      rewrite !lookup_total_alt.
      rewrite (proj1 (FA d DA)), (proj1 (FB d DB)), E. reflexivity.
    - intros a b (i & Ha & Hb).
      destruct (lookup_lt_is_Some_2 data i) as [d Hi].
      { rewrite <- LA. apply lookup_lt_Some in Ha. exact Ha. }
      assert (Hin : d ∈ data) by (apply list_elem_of_lookup; exists i; exact Hi).
      destruct (Hd d Hin) as (DA & DB & E).
      rewrite (lookup_total_correct _ _ _ (RA i d a Hi Ha DA)).
      rewrite (lookup_total_correct _ _ _ (RB i d b Hi Hb DB)).
      rewrite !lookup_total_alt, E. reflexivity. }
  destruct (metrics_same M fuel data seed splitC splitT
              (Z.to_nat (Z.max 0 (Z.of_nat (length data) - testLen)))
              enforce outA outB NA NB) with (ms := METRICS)
    (hA := hA1) (hA' := hA2) (hB := hB1)
    (aggs := (∅ : gmap string aggregate)) (aggs' := aggsA)
    as (hB2 & HfB & R2).
  - rewrite LA, LB. reflexivity.
  - intros d Hin Ho. apply OA in Ho as [Ho _]. apply Ho.
    exact (proj1 (Hd d Hin)).
  - intros d Hin Ho. apply OB in Ho as [Ho _]. apply Ho.
    exact (proj1 (proj2 (Hd d Hin))).
  - exact HfA.
  - exact R.
  - rewrite HfB. cbn [mbind option_bind].
    eexists _, _. split; [reflexivity|]. cbn [simData aggregates].
    split; [reflexivity|]. split; [exact LB|].
    intros i a b Ha Hb f. unfold get.
    rewrite (proj2 R2 a b); [reflexivity|]. exists i. split; assumption.
Qed.

(** ** The activity-count metric in the window *)

(** C7.  A run of [simulateAB] over a series of records returns one row
    per day.  On every day of the window the row holds, for the DAU
    metric of a record whose DAU is a count, exactly
    floor(DAU * clamp(splitC, 0, 1)) and floor(DAU * clamp(splitT, 0, 1));
    before the window both cohort fields of every metric are [null].  And
    a second run on the same inputs, made after the first one, returns
    again, with the same aggregates and, day by day, rows that hold the
    same value in every field. *)
Theorem simulateAB_activity_window (M : MathLib) (fuel : nat) (h h' : heap)
  (data : list loc) (seed : Z) (splitC splitT : number) (testLen : Z)
  (enforceNoDecline : bool) (res : sim_result) :
  (forall row, row ∈ data -> row ∈ dom h) ->
  simulateAB M fuel h data seed splitC splitT testLen enforceNoDecline
  = Some (h', res) ->
  let startIndex := Z.to_nat (Z.max 0 (Z.of_nat (length data) - testLen)) in
  length (simData res) = length data /\
  (forall i row,
     data !! i = Some row ->
     exists o,
       simData res !! i = Some o /\
       ((startIndex <= i)%nat -> count (get_num h row "DAU") = true ->
        get h' o "DAU_Control"
        = Some (VNum (Math_floor (get_num h row "DAU"
                                  * clamp splitC pos_zero (of_Z 1))%num)) /\
        get h' o "DAU_Experiment"
        = Some (VNum (Math_floor (get_num h row "DAU"
                                  * clamp splitT pos_zero (of_Z 1))%num))) /\
       ((i < startIndex)%nat ->
        forall m, m ∈ METRICS ->
          get h' o (key m +:+ "_Control") = Some VNull /\
          get h' o (key m +:+ "_Experiment") = Some VNull)) /\
  (exists h'' res',
     simulateAB M fuel h' data seed splitC splitT testLen enforceNoDecline
     = Some (h'', res') /\
     aggregates res' = aggregates res /\
     length (simData res') = length data /\
     forall i o o',
       simData res !! i = Some o -> simData res' !! i = Some o' ->
       forall f, get h'' o' f = get h' o f).
Proof.
  intros Hdom Hrun startIndex.
  assert (Hframe : forall d, d ∈ data ->
            d ∈ dom h /\ d ∈ dom h' /\ h' !! d = h !! d).
  { revert Hrun. unfold simulateAB. cbv zeta.
    destruct (copy_rows h data) as [h1 out] eqn:Hcopy.
    destruct (foldM _ METRICS _) as [[h2 aggs]|] eqn:Hfold;
      cbn [mbind option_bind]; [|discriminate].
    intros H. apply Some_pair_inj in H as [<- _].
    destruct (copy_rows_spec _ _ _ _ Hcopy) as (_ & Hnd & Hout & Hfr & _).
    destruct (metrics_modifies _ _ _ _ _ _ _ _ _ Hnd _ _ _ _ _ Hfold)
      as [Hloc _].
    intros d Hd. pose proof (Hdom d Hd) as Dd.
    destruct (Hfr d Dd) as [E D1].
    assert (E2 : h2 !! d = h !! d).
    { rewrite <- E. apply Hloc. intros Hin. apply Hout in Hin as [Hin _].
      exact (Hin Dd). }
    split; [exact Dd|]. split; [|exact E2].
    apply elem_of_dom. rewrite E2. apply elem_of_dom. exact Dd. }
  split; [|split].
  - revert Hrun. unfold simulateAB. cbv zeta.
    destruct (copy_rows h data) as [h1 out] eqn:Hcopy.
    destruct (foldM _ METRICS _) as [[h2 aggs]|];
      cbn [mbind option_bind]; [|discriminate].
    intros H. apply Some_pair_inj in H as [_ <-]. cbn [simData].
    exact (proj1 (copy_rows_spec _ _ _ _ Hcopy)).
  - revert Hrun. unfold simulateAB. cbv zeta. fold startIndex.
    destruct (copy_rows h data) as [h1 out] eqn:Hcopy.
    destruct (foldM _ METRICS _) as [[h2 aggs]|] eqn:Hfold;
      cbn [mbind option_bind]; [|discriminate].
    intros H. apply Some_pair_inj in H as [<- <-]. cbn [simData].
    destruct (copy_rows_spec _ _ _ _ Hcopy) as (Hlen & Hnd & Hout & Hfr & Hrows).
    intros i row Hi.
    assert (Hrow : row ∈ dom h).
    { apply Hdom. apply list_elem_of_lookup. exists i. exact Hi. }
    destruct (lookup_lt_is_Some_2 out i) as [o Ho].
    { rewrite Hlen. apply lookup_lt_Some in Hi. exact Hi. }
    exists o. split; [exact Ho|]. split.
    + intros Hwin Hcount.
      remember (tail METRICS) as rest eqn:Hrest.
      assert (HM : METRICS
                   = {| key := "DAU"; label := "DAU"; color := "#2563eb" |}
                     :: rest)
        by (subst rest; reflexivity).
      rewrite HM in Hfold. cbn [foldM] in Hfold.
      destruct (sim_metric _ _ _ _ _ _ _ _ _ (h1, ∅) _)
        as [[h3 aggs3]|] eqn:Hdau;
        cbn [mbind option_bind] in Hfold; [|discriminate].
      destruct (sim_metric_spec _ _ _ _ _ _ _ _ _ Hnd _ _ _ _ _ Hdau)
        as (_ & _ & Hval).
      destruct (Hval eq_refl i o Ho Hwin) as [HC HE].
      destruct (metrics_modifies _ _ _ _ _ _ _ _ _ Hnd _ _ _ _ _ Hfold)
        as [_ Hfld].
      assert (Hd : get_num h1 o "DAU" = get_num h row "DAU").
      { unfold get_num, get.
        now rewrite (lookup_total_correct _ _ _ (Hrows i row o Hi Ho Hrow)). }
      rewrite !Hfld, HC, HE, Hd, !cohort_size_floor by
        (exact Hcount
         || (subst rest; apply (bool_decide_unpack _); vm_compute; exact I)).
      split; reflexivity.
    + intros Hlt m Hm.
      exact (metrics_null_before_window _ _ _ _ _ _ _ _ _ Hnd _ _ _ _ _ Hfold
               m (or_introl Hm) i o Ho Hlt).
  - exact (simulateAB_same_series M fuel h h' h' data seed splitC splitT
             testLen enforceNoDecline res Hframe Hrun).
Qed.

Lemma example_data_in_heap :
  forall row, row ∈ example_data -> row ∈ dom example_heap.
Proof.
  intros row Hr. apply (bool_decide_unpack _). unfold example_data in Hr.
  repeat (apply elem_of_cons in Hr as [->|Hr]; [vm_compute; exact I|]).
  now apply elem_of_nil in Hr.
Qed.

(** On the example series (DAU 1001, 1101, 1201) with both splits 0.5 and
    a window of the last two days: the row of the second day holds 550
    for both DAU cohorts, that of the third day 600, and the row of the
    first day holds [null]. *)
Lemma simulateAB_activity_window_witness :
  exists h' res o0 o1 o2,
    simulateAB RefMath.lib 1 example_heap example_data 42
               (dec 5 1) (dec 5 1) 2 true = Some (h', res) /\
    simData res = [o0; o1; o2] /\
    get h' o1 "DAU_Control" = Some (VNum (of_Z 550)) /\
    get h' o1 "DAU_Experiment" = Some (VNum (of_Z 550)) /\
    get h' o2 "DAU_Control" = Some (VNum (of_Z 600)) /\
    get h' o0 "DAU_Control" = Some VNull /\
    get h' o0 "Likes_Experiment" = Some VNull.
Proof.
  destruct simulateAB_example_returns as [[h' res] E].
  destruct (simulateAB_activity_window _ _ _ _ _ _ _ _ _ _ _
              example_data_in_heap E) as (Hlen & Hrows & _).
  destruct (Hrows 0%nat 1%positive eq_refl) as (o0 & H0 & _ & N0).
  destruct (Hrows 1%nat 2%positive eq_refl) as (o1 & H1 & W1 & _).
  destruct (Hrows 2%nat 3%positive eq_refl) as (o2 & H2 & W2 & _).
  exists h', res, o0, o1, o2. split; [exact E|].
  split.
  { destruct (simData res) as [|a [|b [|c [|d l]]]]; try discriminate Hlen.
    cbn in H0, H1, H2. congruence. }
  destruct W1 as [C1 E1]; [vm_compute; lia|reflexivity|].
  destruct W2 as [C2 _]; [vm_compute; lia|reflexivity|].
  assert (L : (0 < Z.to_nat (Z.max 0 (Z.of_nat (length example_data) - 2)))%nat)
    by (vm_compute; lia).
  split; [rewrite C1; vm_compute; reflexivity|].
  split; [rewrite E1; vm_compute; reflexivity|].
  split; [rewrite C2; vm_compute; reflexivity|].
  split.
  - apply (N0 L {| key := "DAU"; label := "DAU"; color := "#2563eb" |}).
    unfold METRICS. apply list_elem_of_here.
  - apply (N0 L {| key := "Likes"; label := "Likes"; color := "#f97316" |}).
    unfold METRICS. do 8 apply list_elem_of_further. apply list_elem_of_here.
Defined.
